(** * Shopping engine of spar_app: fuzzy product search and path optimizer

    A shallow embedding of the computational core of the application:
    - the search utilities of the main component ([normalizeString],
      [calculateLevenshteinDistance], [calculateSimilarityScore],
      [searchProducts]);
    - the [StoreOptimizer] class of the OptimizedShoppingPath component
      ([createProductIndex], [findProductLocation],
      [organizeItemsByCorridor], [determineCorridorEntryPoints],
      [optimizeShoppingPath]);
    - the second [StoreOptimizer] class, of StoreLayoutVisual.tsx (module
      [Visual]).

    Conventions of the embedding.
    - A JavaScript string is the list of its UTF-16 code units ([list N]).
    - [String.prototype.toLowerCase] and [String.prototype.normalize('NFD')]
      depend on the Unicode tables; they are the two fields of the class
      [Builtins], and every definition is parametric in them.
    - A [Map] is an association list in insertion order, with unique keys:
      [Map.set] on a present key replaces the value in place.
    - A JSON object is the list of its entries in [Object.entries] order.
    - [Array.prototype.sort] is a stable sort by the comparator, which it
      reads by its sign, [NaN] as [+0].
    - Numbers that are counts, lengths and distances are [nat] (they are
      integers far below 2^53, which doubles hold exactly).
    - Scores are modelled twice. [calculateSimilarityScore] and [scoreItem]
      are the scores in exact arithmetic ([Q]): the values of the formulas.
      Module [Double] has the same two functions on IEEE 754 doubles
      (binary64, round to nearest even, with the operations of the Standard
      Library's [SpecFloat]), as the code computes them, and
      [searchProducts], whose threshold and order are decided on the
      doubles. *)

From Stdlib Require Import QArith Qminmax Qpower Lia Lqa SpecFloat.
From stdpp Require Import base list option numbers strings sorting.

Local Open Scope nat_scope.

(** ** JavaScript strings *)

Abbreviation jsstring := (list N).

(** A string literal, code unit by code unit. *)
Definition lit (s : string) : jsstring :=
  List.map Ascii.N_of_ascii (String.list_ascii_of_string s).

(** [a === b] on strings. *)
Definition str_eqb (a b : jsstring) : bool := bool_decide (a = b).

(** [s.startsWith(p)], used to define [includes]. *)
Fixpoint startsWith (s p : jsstring) : bool :=
  match p, s with
  | [], _ => true
  | _ :: _, [] => false
  | c :: p', d :: s' => (c =? d)%N && startsWith s' p'
  end.

(** [s.includes(p)]: [p] occurs in [s] as a contiguous run of code units. *)
Fixpoint includes (s p : jsstring) : bool :=
  startsWith s p ||
  match s with
  | [] => false
  | _ :: s' => includes s' p
  end.

(** [a < b] on strings: lexicographic order of the code units. *)
Fixpoint str_ltb (a b : jsstring) : bool :=
  match a, b with
  | _, [] => false
  | [], _ :: _ => true
  | c :: a', d :: b' => (c <? d)%N || ((c =? d)%N && str_ltb a' b')
  end.

(** The class [\s] of regular expressions, which is also the white space
    of [String.prototype.trim]. *)
Definition isSpace (c : N) : bool :=
  ((9 <=? c) && (c <=? 13) || (c =? 32) || (c =? 160) || (c =? 5760)
   || (8192 <=? c) && (c <=? 8202) || (c =? 8232) || (c =? 8233)
   || (c =? 8239) || (c =? 8287) || (c =? 12288) || (c =? 65279))%N.

Fixpoint dropSpaces (s : jsstring) : jsstring :=
  match s with
  | c :: s' => if isSpace c then dropSpaces s' else s
  | [] => []
  end.

(** [s.trim()]. *)
Definition trim (s : jsstring) : jsstring :=
  rev (dropSpaces (rev (dropSpaces s))).

(** [s.split(/\s+/)]: [splitFrom inSpace cur s] scans [s] with the token
    [cur] (reversed) under construction; [inSpace] says that the scan is
    inside a run of white space, which closes one token and opens the next.
    The empty string splits into one empty token, and white space at either
    end of the string gives an empty token there. *)
Fixpoint splitFrom (inSpace : bool) (cur : jsstring) (s : jsstring)
  : list jsstring :=
  match s with
  | [] => [rev cur]
  | c :: s' =>
      if isSpace c
      then if inSpace then splitFrom true cur s'
           else rev cur :: splitFrom true [] s'
      else splitFrom false (c :: cur) s'
  end.

Definition splitSpaces (s : jsstring) : list jsstring := splitFrom false [] s.

(** [Array.prototype.sort(cmp)]: a stable sort; [cmp x y] is the sign of
    the comparator's result. [x], which stands before [y] in the array,
    stays before it unless the comparator says it is greater. *)
Section Sort.
Context {A : Type} (cmp : A -> A -> Z).

Fixpoint sortInsert (x : A) (l : list A) : list A :=
  match l with
  | [] => [x]
  | y :: l' => if (cmp x y <=? 0)%Z then x :: l else y :: sortInsert x l'
  end.

Definition sort (l : list A) : list A := foldr sortInsert [] l.
End Sort.

(** ** Maps in insertion order *)
Section JsMap.
Context {V : Type}.

(** [m.get(k)] *)
Fixpoint mapGet (m : list (jsstring * V)) (k : jsstring) : option V :=
  match m with
  | [] => None
  | (k', v) :: m' => if str_eqb k' k then Some v else mapGet m' k
  end.

(** [m.has(k)] *)
Definition mapHas (m : list (jsstring * V)) (k : jsstring) : bool :=
  match mapGet m k with Some _ => true | None => false end.

(** [m.set(k, v)] *)
Fixpoint mapSet (m : list (jsstring * V)) (k : jsstring) (v : V)
  : list (jsstring * V) :=
  match m with
  | [] => [(k, v)]
  | (k', v') :: m' =>
      if str_eqb k' k then (k', v) :: m' else (k', v') :: mapSet m' k v
  end.

(** [Array.from(m.keys())] *)
Definition mapKeys (m : list (jsstring * V)) : list jsstring :=
  List.map fst m.
End JsMap.

(** ** The search utilities *)

(** The two string operations that come from the Unicode tables. *)
Class Builtins := {
  toLowerCase : jsstring -> jsstring;
  normalizeNFD : jsstring -> jsstring
}.

(** The characters removed by [/[\u0300-\u036f]/g]. *)
Definition isCombiningMark (c : N) : bool := ((768 <=? c) && (c <=? 879))%N.

(** The characters kept by [/[^a-z0-9\s]/g]. *)
Definition isKept (c : N) : bool :=
  ((97 <=? c) && (c <=? 122) || (48 <=? c) && (c <=? 57))%N || isSpace c.

Definition normalizeString `{Builtins} (str : jsstring) : jsstring :=
  List.filter isKept
    (List.filter (fun c => negb (isCombiningMark c))
       (normalizeNFD (toLowerCase str))).

(** *** Edit distance *)

(** The matrix of [calculateLevenshteinDistance]: [b.length + 1] rows of
    [a.length + 1] cells, each [null] at first. *)
Abbreviation Matrix := (list (list (option nat))).

(** Reading [matrix[j][i]] as a number: [null] counts as [0]. *)
Definition mget (m : Matrix) (j i : nat) : nat :=
  match m !! j with
  | Some row => match row !! i with Some (Some v) => v | _ => 0 end
  | None => 0
  end.

(** [matrix[j][i] = v] *)
Definition mset (m : Matrix) (j i : nat) (v : nat) : Matrix :=
  alter (fun row => <[i := Some v]> row) j m.

(** [for (let k = from; k <= to; k++) body], as a left fold. *)
Definition forUpTo {St : Type} (from to : nat) (body : St -> nat -> St) (s : St)
  : St :=
  fold_left body (seq from (to + 1 - from)) s.

Definition min3 (x y z : nat) : nat := Nat.min x (Nat.min y z).

Definition calculateLevenshteinDistance (a b : jsstring) : nat :=
  if length a =? 0 then length b
  else if length b =? 0 then length a
  else
    let matrix : Matrix := replicate (length b + 1) (replicate (length a + 1) None) in
    let matrix := forUpTo 0 (length a) (fun m i => mset m 0 i i) matrix in
    let matrix := forUpTo 0 (length b) (fun m j => mset m j 0 j) matrix in
    let matrix :=
      forUpTo 1 (length b) (fun m j =>
        forUpTo 1 (length a) (fun m i =>
          let substitutionCost :=
            if bool_decide (a !! (i - 1) = b !! (j - 1)) then 0 else 1 in
          mset m j i
            (min3 (mget m j (i - 1) + 1)
                  (mget m (j - 1) i + 1)
                  (mget m (j - 1) (i - 1) + substitutionCost))) m) matrix in
    mget matrix (length b) (length a).

(** *** Similarity score, in exact arithmetic *)

(** A count or a length as a score. *)
Definition num (n : nat) : Q := inject_Z (Z.of_nat n).

Definition calculateSimilarityScore `{Builtins} (query item : jsstring) : Q :=
  let normalizedQuery := normalizeString query in
  let normalizedItem := normalizeString item in
  if str_eqb normalizedItem normalizedQuery then 1%Q
  else if includes normalizedItem normalizedQuery then 0.8%Q
  else
    let queryWords := splitSpaces normalizedQuery in
    let itemWords := splitSpaces normalizedItem in
    let wordMatchCount :=
      length (List.filter
                (fun word => existsb (fun itemWord => includes itemWord word) itemWords)
                queryWords) in
    let wordMatchScore := (num wordMatchCount / num (length queryWords) * 0.6)%Q in
    let maxLength := Nat.max (length normalizedQuery) (length normalizedItem) in
    let levenshteinScore :=
      if 0 <? maxLength
      then ((num maxLength
             - num (calculateLevenshteinDistance normalizedQuery normalizedItem))
            / num maxLength * 0.4)%Q
      else 0%Q in
    Qmax wordMatchScore levenshteinScore.

Record GroceryItem := {
  id : jsstring;
  name : jsstring;
  category : jsstring;
  gang : jsstring
}.

(** The objects [{ item, score }] of [searchProducts]. *)
Record ScoredItem := { item : GroceryItem; score : Q }.

(** The callback of [allItems.map] in [searchProducts]. *)
Definition scoreItem `{Builtins} (query : jsstring) (item : GroceryItem)
  : ScoredItem :=
  let nameScore := (calculateSimilarityScore query (name item) * 0.7)%Q in
  let categoryScore := (calculateSimilarityScore query (category item) * 0.3)%Q in
  let totalScore := (nameScore + categoryScore)%Q in
  {| item := item; score := totalScore |}.

(** *** Similarity score and search, on doubles *)
Module Double.

(** The format binary64. *)
Definition prec : Z := 53.
Definition emax : Z := 1024.

(** An integer as a double; exact below 2^53. *)
Definition ofZ (z : Z) : spec_float := binary_normalize prec emax z 0 false.
Definition ofNat (n : nat) : spec_float := ofZ (Z.of_nat n).

(** [x + y], [x - y], [x * y] and [x / y]. *)
Definition add : spec_float -> spec_float -> spec_float := SFadd prec emax.
Definition sub : spec_float -> spec_float -> spec_float := SFsub prec emax.
Definition mul : spec_float -> spec_float -> spec_float := SFmul prec emax.
Definition div : spec_float -> spec_float -> spec_float := SFdiv prec emax.

(** The decimal literal [n/d] (as [0.8] is [8/10]): the double nearest to
    it, which is the correctly rounded quotient of the two integers. *)
Definition decimal (n d : Z) : spec_float := div (ofZ n) (ofZ d).

(** The number that a double holds, if it is not [NaN]. *)
Inductive Value :=
| NegInfinity
| Real (q : Q)
| PosInfinity.

Definition valueOf (x : spec_float) : option Value :=
  match x with
  | S754_nan => None
  | S754_infinity s => Some (if s then NegInfinity else PosInfinity)
  | S754_zero _ => Some (Real 0)
  | S754_finite s m e => Some (Real (inject_Z (cond_Zopp s (Zpos m)) * 2 ^ e))
  end.

Definition Value_leb (v w : Value) : bool :=
  match v, w with
  | NegInfinity, _ => true
  | _, PosInfinity => true
  | Real p, Real q => Qle_bool p q
  | _, _ => false
  end.

(** [x <= y], [x > y] and [x === y]: false when either side is [NaN]. *)
Definition leb (x y : spec_float) : bool :=
  match valueOf x, valueOf y with
  | Some v, Some w => Value_leb v w
  | _, _ => false
  end.

Definition gtb (x y : spec_float) : bool :=
  match valueOf x, valueOf y with
  | Some v, Some w => negb (Value_leb v w)
  | _, _ => false
  end.

Definition eqb (x y : spec_float) : bool := leb x y && leb y x.

(** [Math.max(x, y)]: [NaN] if either is; of the two zeros, [+0]. *)
Definition max (x y : spec_float) : spec_float :=
  if leb x y then
    if leb y x then match x with S754_zero true => y | _ => x end else y
  else if leb y x then x else S754_nan.

(** The sign of a comparator's result, as [sort] reads it: [NaN] counts
    as [+0]. *)
Definition signOf (x : spec_float) : Z :=
  match x with
  | S754_finite s _ _ | S754_infinity s => if s then (-1)%Z else 1%Z
  | S754_zero _ | S754_nan => 0%Z
  end.

Record ScoredItem := { item : GroceryItem; score : spec_float }.

Section Search.
Context `{Builtins}.

Definition calculateSimilarityScore (query item : jsstring) : spec_float :=
  let normalizedQuery := normalizeString query in
  let normalizedItem := normalizeString item in
  if str_eqb normalizedItem normalizedQuery then ofZ 1
  else if includes normalizedItem normalizedQuery then decimal 8 10
  else
    let queryWords := splitSpaces normalizedQuery in
    let itemWords := splitSpaces normalizedItem in
    let wordMatchCount :=
      length (List.filter
                (fun word => existsb (fun itemWord => includes itemWord word) itemWords)
                queryWords) in
    let wordMatchScore :=
      mul (div (ofNat wordMatchCount) (ofNat (length queryWords)))
        (decimal 6 10) in
    let maxLength := Nat.max (length normalizedQuery) (length normalizedItem) in
    let levenshteinScore :=
      if 0 <? maxLength
      then mul (div (sub (ofNat maxLength)
                       (ofNat (calculateLevenshteinDistance
                                 normalizedQuery normalizedItem)))
                  (ofNat maxLength))
             (decimal 4 10)
      else ofZ 0 in
    max wordMatchScore levenshteinScore.

(** The callback of [allItems.map] in [searchProducts]. *)
Definition scoreItem (query : jsstring) (item : GroceryItem) : ScoredItem :=
  let nameScore :=
    mul (calculateSimilarityScore query (name item)) (decimal 7 10) in
  let categoryScore :=
    mul (calculateSimilarityScore query (category item)) (decimal 3 10) in
  let totalScore := add nameScore categoryScore in
  {| item := item; score := totalScore |}.

Definition searchProducts (query : jsstring) (allItems : list GroceryItem)
  : list GroceryItem :=
  if bool_decide (trim query = []) then []
  else
    let scoredItems := List.map (scoreItem query) allItems in
    take 20
      (List.map item
         (sort (fun a b => signOf (sub (score b) (score a)))
            (List.filter (fun x => gtb (score x) (decimal 2 10)) scoredItems))).
End Search.
End Double.

(** ** The store catalog *)

(** [category -> product names], in [Object.entries] order. *)
Abbreviation Categories := (list (jsstring * list jsstring)).

(** One shelf side of a corridor: [{ positions?, categories? }]; a field
    that is present is an object, hence truthy. *)
Record SectionData := {
  positions : option (list (jsstring * Categories));
  categories : option Categories
}.

(** The data of one corridor: a flat [category -> products] object, or an
    object of shelf sides. The empty object is [Flat []] or [Sided []]. *)
Inductive CorridorData :=
| Flat (cats : Categories)
| Sided (dirs : list (jsstring * SectionData)).

Abbreviation StoreData := (list (jsstring * CorridorData)).

(** The fixed table of distances from the entrance. *)
Definition corridorDistances : list (jsstring * Z) :=
  [ (lit "Seiten M", 1%Z); (lit "Gang 1", 2%Z); (lit "Gang 2", 3%Z);
    (lit "Gang 3", 4%Z); (lit "Gang 4", 5%Z); (lit "Gang 5", 6%Z);
    (lit "Gang 6", 7%Z) ].

(** The table is a plain object: a name that is not one of its seven keys
    is looked up in [Object.prototype], and these are the names found
    there. *)
Definition objectPrototypeMembers : list jsstring :=
  [ lit "constructor"; lit "hasOwnProperty"; lit "isPrototypeOf";
    lit "propertyIsEnumerable"; lit "toLocaleString"; lit "toString";
    lit "valueOf"; lit "__proto__"; lit "__defineGetter__";
    lit "__defineSetter__"; lit "__lookupGetter__"; lit "__lookupSetter__" ].

Definition inheritedName (a : jsstring) : bool :=
  existsb (str_eqb a) objectPrototypeMembers.

(** What [corridorDistances[a]] evaluates to: the distance under a key of
    the table; for a member of [Object.prototype] the inherited function
    (the prototype itself for "__proto__"), an object; [undefined] for any
    other name. *)
Inductive TableValue :=
| Distance (d : Z)
| Inherited
| Undefined.

Definition lookupDistance (a : jsstring) : TableValue :=
  match mapGet corridorDistances a with
  | Some d => Distance d
  | None => if inheritedName a then Inherited else Undefined
  end.

(** [corridorDistances[a] || 0]: [undefined] is replaced by [0] (as a
    distance [0] would be); an inherited object is truthy and stays
    ([None]). *)
Definition distanceOrZero (a : jsstring) : option Z :=
  match lookupDistance a with
  | Distance d => Some (if (d =? 0)%Z then 0%Z else d)
  | Inherited => None
  | Undefined => Some 0%Z
  end.

(** The comparator of both corridor sorts, as [sort] reads it: the
    difference of two numbers; with an inherited object on either side the
    difference is [NaN], which [sort] reads as [+0]. When a corridor named
    like a member of [Object.prototype] stands among corridors of different
    distances the comparator is not consistent, and ECMAScript leaves the
    order of the result to the implementation; [sort] is then one such
    implementation. *)
Definition compareCorridors (a b : jsstring) : Z :=
  match distanceOrZero a, distanceOrZero b with
  | Some x, Some y => (x - y)%Z
  | _, _ => 0%Z
  end.

(** The ends of a corridor, as [currentPosition] names them and as the
    result names them. *)
Inductive Position := east | west.
Inductive Point := East | West.

Definition isEast (p : Position) : bool :=
  match p with east => true | west => false end.

(** ** The optimizer of the OptimizedShoppingPath component *)
Module ShoppingPath.

Record Location := {
  corridor : jsstring;
  direction : jsstring;
  position : jsstring;
  category : jsstring;
  distanceFromStart : TableValue
}.

Record ItemLocation := {
  il_corridor : jsstring;
  il_direction : jsstring;
  il_position : jsstring;
  side : jsstring
}.

Record PathItem := {
  name : jsstring;
  item_category : jsstring;
  location : ItemLocation
}.

Record CorridorPath := {
  cp_name : jsstring;
  entryPoint : Point;
  exitPoint : Point;
  items : list PathItem
}.

Record OptimizedPath := {
  corridors : list CorridorPath;
  notFoundItems : list jsstring
}.

(** The field [productLocations]. *)
Abbreviation ProductLocations := (list (jsstring * Location)).

Section Optimizer.
Context `{Builtins}.

(** [products.forEach(product => productLocations.set(...))] for every
    category of a [category -> products] object. *)
Definition indexCategories (corridor direction position : jsstring)
    (cats : Categories) (productLocations : ProductLocations)
  : ProductLocations :=
  fold_left (fun acc '(category, products) =>
    fold_left (fun acc product =>
      mapSet acc (toLowerCase product)
        {| corridor := corridor;
           direction := direction;
           position := position;
           category := category;
           distanceFromStart := lookupDistance corridor |})
      products acc) cats productLocations.

(** The body of the outer [forEach] of [createProductIndex]. Under
    "Seiten M" every value is taken for an array of products: a shelf
    side there has no [forEach] and the call throws ([None]). Under
    another name every value is taken for a shelf side: an array of
    products has neither [positions] nor [categories] and adds
    nothing. *)
Definition indexCorridor (productLocations : ProductLocations)
    (entry : jsstring * CorridorData) : option ProductLocations :=
  let '(corridor, corridorData) := entry in
  if str_eqb corridor (lit "Seiten M") then
    match corridorData with
    | Flat cats => Some (indexCategories corridor [] [] cats productLocations)
    | Sided [] => Some productLocations
    | Sided (_ :: _) => None
    end
  else
    match corridorData with
    | Flat _ => Some productLocations
    | Sided dirs =>
        Some (fold_left (fun acc '(direction, directionData) =>
          let acc :=
            match positions directionData with
            | Some ps =>
                fold_left (fun acc '(position, positionData) =>
                  indexCategories corridor direction position positionData acc)
                  ps acc
            | None => acc
            end in
          match categories directionData with
          | Some cats => indexCategories corridor direction [] cats acc
          | None => acc
          end) dirs productLocations)
    end.

(** The constructor: the index of a catalog, or [None] when building
    it throws. *)
Definition createProductIndex (storeData : StoreData)
  : option ProductLocations :=
  fold_left (fun acc entry =>
    match acc with
    | Some productLocations => indexCorridor productLocations entry
    | None => None
    end) storeData (Some []).

Definition findProductLocation (productLocations : ProductLocations)
    (product : jsstring) : option Location * bool :=
  let productLower := toLowerCase product in
  if mapHas productLocations productLower
  then (mapGet productLocations productLower, true)
  else
    match List.find (fun '(storedProduct, _) =>
            includes productLower storedProduct
            || includes storedProduct productLower) productLocations with
    | Some (_, location) => (Some location, true)
    | None => (None, false)
    end.

(** The callback of [items.forEach] in [organizeItemsByCorridor]. *)
Definition groupItem (corridorItems : list (jsstring * list (jsstring * Location)))
    (entry : jsstring * Location)
  : list (jsstring * list (jsstring * Location)) :=
  let '(item, location) := entry in
  let corridorItems :=
    if negb (mapHas corridorItems (corridor location))
    then mapSet corridorItems (corridor location) []
    else corridorItems in
  mapSet corridorItems (corridor location)
    (default [] (mapGet corridorItems (corridor location))
     ++ [(item, location)]).

Definition organizeItemsByCorridor (items : list (jsstring * Location))
  : list (jsstring * list (jsstring * Location)) :=
  fold_left groupItem items [].

(** [loc.position === p || !loc.position] *)
Definition nearEnd (p : jsstring) (entry : jsstring * Location) : bool :=
  str_eqb (position (snd entry)) p || str_eqb (position (snd entry)) [].

(** [x > y * 1.5] on two counts. *)
Definition moreThanOneAndAHalf (x y : nat) : bool := 3 * y <? 2 * x.

Definition determineCorridorEntryPoints
    (corridorItems : list (jsstring * list (jsstring * Location)))
  : list (jsstring * bool) :=
  let sortedCorridors := sort compareCorridors (mapKeys corridorItems) in
  fst (fold_left (fun '(entryPoints, currentPosition) corridor =>
    if str_eqb corridor (lit "Seiten M")
    then (mapSet entryPoints corridor true, currentPosition)
    else
      let items := default [] (mapGet corridorItems corridor) in
      let eastItems := length (List.filter (nearEnd (lit "E")) items) in
      let westItems := length (List.filter (nearEnd (lit "W")) items) in
      let entryPoints :=
        if moreThanOneAndAHalf eastItems westItems
        then mapSet entryPoints corridor true
        else if moreThanOneAndAHalf westItems eastItems
        then mapSet entryPoints corridor false
        else mapSet entryPoints corridor (isEast currentPosition) in
      let currentPosition :=
        if default false (mapGet entryPoints corridor) then west else east in
      (entryPoints, currentPosition))
    sortedCorridors ([], east)).

(** The comparator of the sort of a corridor's items. *)
Definition compareItems (fromEast : bool) (a b : jsstring * Location) : Z :=
  let locA := snd a in
  let locB := snd b in
  if str_ltb (category locA) (category locB) then (-1)%Z
  else if str_ltb (category locB) (category locA) then 1%Z
  else
    let aSide :=
      if fromEast then str_eqb (direction locA) (lit "N")
      else str_eqb (direction locA) (lit "S") in
    let bSide :=
      if fromEast then str_eqb (direction locB) (lit "N")
      else str_eqb (direction locB) (lit "S") in
    if Bool.eqb aSide bSide then 0%Z else if aSide then (-1)%Z else 1%Z.

(** The callback of [shoppingList.forEach] in [optimizeShoppingPath], on
    the two arrays [itemsWithLocations] and [notFoundItems]. *)
Definition locateItem (productLocations : ProductLocations)
    (arrays : list (jsstring * Location) * list jsstring) (item : jsstring)
  : list (jsstring * Location) * list jsstring :=
  let '(itemsWithLocations, notFoundItems) := arrays in
  match findProductLocation productLocations item with
  | (Some location, true) =>
      (itemsWithLocations ++ [(item, location)], notFoundItems)
  | _ => (itemsWithLocations, notFoundItems ++ [item])
  end.

Definition optimizeShoppingPath (productLocations : ProductLocations)
    (shoppingList : list jsstring) : OptimizedPath :=
  let '(itemsWithLocations, notFoundItems) :=
    fold_left (locateItem productLocations) shoppingList ([], []) in
  let corridorItems := organizeItemsByCorridor itemsWithLocations in
  let entryPoints := determineCorridorEntryPoints corridorItems in
  let sortedCorridors := sort compareCorridors (mapKeys corridorItems) in
  let optimizedCorridors :=
    List.map (fun corridor =>
      let items := default [] (mapGet corridorItems corridor) in
      let fromEast := default false (mapGet entryPoints corridor) in
      let sortedItems := sort (compareItems fromEast) items in
      {| cp_name := corridor;
         entryPoint := if fromEast then East else West;
         exitPoint := if fromEast then West else East;
         items :=
           List.map (fun '(name, location) =>
             {| name := name;
                item_category := category location;
                location :=
                  {| il_corridor := ShoppingPath.corridor location;
                     il_direction := direction location;
                     il_position := position location;
                     side := if str_eqb (direction location) (lit "N")
                             then lit "Right" else lit "Left" |} |})
             sortedItems |}) sortedCorridors in
  {| corridors := optimizedCorridors; notFoundItems := notFoundItems |}.
(** [new StoreOptimizer(storeData).optimizeShoppingPath(shoppingList)], as
    the component calls it; [None] when the constructor throws. *)
Definition optimizedPathOf (storeData : StoreData)
    (shoppingList : list jsstring) : option OptimizedPath :=
  match createProductIndex storeData with
  | Some productLocations =>
      Some (optimizeShoppingPath productLocations shoppingList)
  | None => None
  end.
End Optimizer.
End ShoppingPath.

(** ** The optimizer of the StoreLayoutVisual component *)
Module Visual.

Record Location := {
  corridor : jsstring;
  direction : jsstring;
  position : jsstring;
  category : jsstring
}.

(** The objects [{ name, entryPoint, exitPoint }] of the result. *)
Record CorridorStep := {
  name : jsstring;
  entryPoint : Point;
  exitPoint : Point
}.

Abbreviation ProductLocations := (list (jsstring * Location)).

Section Optimizer.
Context `{Builtins}.

Definition indexCategories (corridor direction position : jsstring)
    (cats : Categories) (productLocations : ProductLocations)
  : ProductLocations :=
  fold_left (fun acc '(category, products) =>
    fold_left (fun acc product =>
      mapSet acc (toLowerCase product)
        {| corridor := corridor;
           direction := direction;
           position := position;
           category := category |})
      products acc) cats productLocations.

(** [corridorData[direction]], for a shelf side; under a flat object
    the property, if there is one, is an array of products, which has
    neither [categories] nor [positions]. *)
Definition sectionOf (corridorData : CorridorData) (direction : jsstring)
  : option SectionData :=
  match corridorData with
  | Flat _ => None
  | Sided dirs => mapGet dirs direction
  end.

Definition indexCorridor (productLocations : ProductLocations)
    (entry : jsstring * CorridorData) : option ProductLocations :=
  let '(corridor, corridorData) := entry in
  if str_eqb corridor (lit "Seiten M") then
    match corridorData with
    | Flat cats => Some (indexCategories corridor [] [] cats productLocations)
    | Sided [] => Some productLocations
    | Sided (_ :: _) => None
    end
  else
    Some (fold_left (fun acc direction =>
      match sectionOf corridorData direction with
      | None => acc
      | Some sectionData =>
          let acc :=
            match categories sectionData with
            | Some cats => indexCategories corridor direction [] cats acc
            | None => acc
            end in
          match positions sectionData with
          | Some ps =>
              fold_left (fun acc '(position, cats) =>
                indexCategories corridor direction position cats acc)
                ps acc
          | None => acc
          end
      end) [lit "N"; lit "S"] productLocations).

Definition buildProductLocationMap (storeData : StoreData)
  : option ProductLocations :=
  fold_left (fun acc entry =>
    match acc with
    | Some productLocations => indexCorridor productLocations entry
    | None => None
    end) storeData (Some []).

Definition findProductLocation (productLocations : ProductLocations)
    (product : jsstring) : option Location :=
  let productLower := toLowerCase product in
  if mapHas productLocations productLower
  then mapGet productLocations productLower
  else
    match List.find (fun '(storedProduct, _) =>
            includes productLower storedProduct
            || includes storedProduct productLower) productLocations with
    | Some (_, location) => Some location
    | None => None
    end.

Definition nearEnd (p : jsstring) (entry : jsstring * Location) : bool :=
  str_eqb (position (snd entry)) p || str_eqb (position (snd entry)) [].

(** [x > y * 2] and [x > y * 1.5] on two counts. *)
Definition moreThanTwice (x y : nat) : bool := 2 * y <? x.
Definition moreThanOneAndAHalf (x y : nat) : bool := 3 * y <? 2 * x.

(** [Math.abs(x - y) <= 1] on two counts. *)
Definition withinOne (x y : nat) : bool := (x - y <=? 1) && (y - x <=? 1).

(** The body of [sortedCorridors.forEach((corridor, index) => ...)]. *)
Definition visitCorridor
    (corridorItems : list (jsstring * list (jsstring * Location)))
    (sortedCorridors : list jsstring)
    (state : list (jsstring * bool) * Position)
    (step : nat * jsstring) : list (jsstring * bool) * Position :=
  let '(entryPoints, currentPosition) := state in
  let '(index, corridor) := step in
  if str_eqb corridor (lit "Seiten M")
  then (mapSet entryPoints corridor true, west)
  else
    let items := default [] (mapGet corridorItems corridor) in
    let eastItems := length (List.filter (nearEnd (lit "E")) items) in
    let westItems := length (List.filter (nearEnd (lit "W")) items) in
    let enterFromEast :=
      if moreThanTwice eastItems westItems then true
      else if moreThanTwice westItems eastItems then false
      else
        let nextCorridor :=
          if index <? length sortedCorridors - 1
          then sortedCorridors !! (index + 1) else None in
        match nextCorridor with
        | Some next =>
            if negb (str_eqb next []) && negb (str_eqb next (lit "Seiten M"))
            then
              match mapGet corridorItems next with
              | Some nextItems =>
                  let nextEastItems :=
                    length (List.filter (nearEnd (lit "E")) nextItems) in
                  let nextWestItems :=
                    length (List.filter (nearEnd (lit "W")) nextItems) in
                  if moreThanOneAndAHalf nextEastItems nextWestItems
                  then negb (isEast currentPosition)
                  else if moreThanOneAndAHalf nextWestItems nextEastItems
                  then isEast currentPosition
                  else isEast currentPosition
              | None => isEast currentPosition
              end
            else isEast currentPosition
        | None => isEast currentPosition
        end in
    let entryPoints := mapSet entryPoints corridor enterFromEast in
    let currentPosition :=
      if withinOne eastItems westItems
      then (if enterFromEast then west else east)
      else (if enterFromEast then west else east) in
    (entryPoints, currentPosition).

Definition optimizeShoppingPath (productLocations : ProductLocations)
    (shoppingList : list jsstring) : list CorridorStep :=
  let itemsWithLocations :=
    fold_left (fun itemsWithLocations item =>
      match findProductLocation productLocations item with
      | Some location => itemsWithLocations ++ [(item, location)]
      | None => itemsWithLocations
      end) shoppingList [] in
  let corridorItems :=
    fold_left (fun corridorItems '(item, location) =>
      let corridorItems :=
        if negb (mapHas corridorItems (corridor location))
        then mapSet corridorItems (corridor location) []
        else corridorItems in
      mapSet corridorItems (corridor location)
        (default [] (mapGet corridorItems (corridor location))
         ++ [(item, location)])) itemsWithLocations [] in
  let sortedCorridors := sort compareCorridors (mapKeys corridorItems) in
  let entryPoints :=
    fst (fold_left (visitCorridor corridorItems sortedCorridors)
           (combine (seq 0 (length sortedCorridors)) sortedCorridors)
           ([], east)) in
  List.map (fun corridor =>
    {| name := corridor;
       entryPoint :=
         if default false (mapGet entryPoints corridor) then East else West;
       exitPoint :=
         if default false (mapGet entryPoints corridor) then West else East |})
    sortedCorridors.
(** [new StoreOptimizer(storeData).optimizeShoppingPath(shoppingList)], as
    [getOptimizedPath] calls it; [None] when the constructor throws. *)
Definition optimizedPathOf (storeData : StoreData)
    (shoppingList : list jsstring) : option (list CorridorStep) :=
  match buildProductLocationMap storeData with
  | Some productLocations =>
      Some (optimizeShoppingPath productLocations shoppingList)
  | None => None
  end.
End Optimizer.
End Visual.

(** ** Reference definitions, from the specification *)

(** EditDistance: the classic Levenshtein distance, by recursion on the two
    strings. Deleting the head of [a], inserting the head of [b] and
    substituting one head for the other cost 1 each; equal heads match at
    no cost. *)
Definition substCost (x y : N) : nat := if bool_decide (x = y) then 0 else 1.

Fixpoint EditDistance (a b : jsstring) : nat :=
  match a with
  | [] => length b
  | x :: a' =>
      (fix inner (b : jsstring) : nat :=
         match b with
         | [] => length a
         | y :: b' =>
             min3 (EditDistance a' b + 1)
                  (inner b' + 1)
                  (EditDistance a' b' + substCost x y)
         end) b
  end.

(** The CorridorDistance rank of a corridor: its distance in the table, and
    0 for a name that the table does not have. *)
Definition rank (a : jsstring) : Z := default 0%Z (mapGet corridorDistances a).

Section SpecScore.
Context `{Builtins}.




End SpecScore.

(** ** An instance of the builtins on Latin-1 strings *)

(** Lower case of a Latin-1 code unit: A-Z and the capital letters
    U+00C0-U+00DE (but the sign U+00D7) move by 32. *)
Definition lowerUnit (c : N) : N :=
  if ((65 <=? c) && (c <=? 90)
      || (192 <=? c) && (c <=? 222) && negb (c =? 215))%N
  then (c + 32)%N else c.

(** The canonical decompositions of the small Latin-1 letters: code unit,
    base letter, combining mark. *)
Definition latin1Decompositions : list (N * (N * N)) :=
  [ (224, (97, 768)); (225, (97, 769)); (226, (97, 770)); (227, (97, 771));
    (228, (97, 776)); (229, (97, 778)); (231, (99, 807)); (232, (101, 768));
    (233, (101, 769)); (234, (101, 770)); (235, (101, 776)); (236, (105, 768));
    (237, (105, 769)); (238, (105, 770)); (239, (105, 776)); (241, (110, 771));
    (242, (111, 768)); (243, (111, 769)); (244, (111, 770)); (245, (111, 771));
    (246, (111, 776)); (249, (117, 768)); (250, (117, 769)); (251, (117, 770));
    (252, (117, 776)); (253, (121, 769)); (255, (121, 776)) ]%N.

Fixpoint lookupUnit {V : Type} (c : N) (t : list (N * V)) : option V :=
  match t with
  | [] => None
  | (k, v) :: t' => if (k =? c)%N then Some v else lookupUnit c t'
  end.

(** Canonical decomposition of a code unit: the Latin-1 letters (a capital
    letter decomposes as its small letter does, 32 below), and the two
    spaces U+2000 and U+2001, which decompose to U+2002 and U+2003. *)
Definition decomposeUnit (c : N) : list N :=
  match lookupUnit c latin1Decompositions with
  | Some (base, mark) => [base; mark]
  | None =>
      match lookupUnit (c + 32)%N latin1Decompositions with
      | Some (base, mark) =>
          if (c =? 223)%N then [c] else [(base - 32)%N; mark]
      | None =>
          if (c =? 8192)%N then [8194%N]
          else if (c =? 8193)%N then [8195%N] else [c]
      end
  end.

(** On strings of Latin-1 code units these two functions are the builtins
    (such a string has no combining marks to reorder). *)
Definition latin1Builtins : Builtins :=
  {| toLowerCase := List.map lowerUnit;
     normalizeNFD := flat_map decomposeUnit |}.

(** ** Small catalogs *)

(** A shelf side with one flat [categories] object. *)
Definition shelf (cats : Categories) : SectionData :=
  {| positions := None; categories := Some cats |}.

(** "Gang 1" is in the distance table, "Gang 7" is not. *)
Definition catalogUnknownCorridor : StoreData :=
  [ (lit "Gang 1", Sided [(lit "N", shelf [(lit "dairy", [lit "Milk"])])]);
    (lit "Gang 7", Sided [(lit "N", shelf [(lit "bakery", [lit "Bread"])])]) ].

(** "toString" is not in the distance table either, but it is the name
    of a member of [Object.prototype]. *)
Definition catalogInheritedName : StoreData :=
  [ (lit "Gang 1", Sided [(lit "N", shelf [(lit "dairy", [lit "Milk"])])]);
    (lit "toString", Sided [(lit "N", shelf [(lit "bakery", [lit "Bread"])])]);
    (lit "Gang 2", Sided [(lit "N", shelf [(lit "eggs", [lit "Eggs"])])]) ].

(** "Seiten M" with a shelf side, as the other corridors have them. *)
Definition catalogSidedSeitenM : StoreData :=
  [ (lit "Seiten M", Sided [(lit "N", shelf [(lit "dairy", [lit "Milk"])])]) ].

(** A product whose name is the empty string, after another product. *)
Definition catalogEmptyName : StoreData :=
  [ (lit "Gang 1",
     Sided [(lit "N", shelf [(lit "dairy", [lit "Milk"]); (lit "misc", [lit ""])])]) ].

(** One product, at the east end of "Gang 1". *)
Definition catalogOneEnd : StoreData :=
  [ (lit "Gang 1",
     Sided [(lit "N",
             {| positions := Some [(lit "E", [(lit "dairy", [lit "Milk 1L"])])];
                categories := None |})]) ].

(** The index of a catalog; empty if the constructor throws. *)
Definition latin1Index (storeData : StoreData) : ShoppingPath.ProductLocations :=
  default [] (@ShoppingPath.createProductIndex latin1Builtins storeData).

(** ** Auxiliary notions of the proofs *)

(** [Edit a b n]: some sequence of deletions, insertions, substitutions
    and matches turns [a] into [b] at cost [n]. *)
Inductive Edit : jsstring -> jsstring -> nat -> Prop :=
| edit_nil : Edit [] [] 0
| edit_delete x a b n : Edit a b n -> Edit (x :: a) b (S n)
| edit_insert y a b n : Edit a b n -> Edit a (y :: b) (S n)
| edit_subst x y a b n : Edit a b n -> Edit (x :: a) (y :: b) (n + substCost x y).

(** The value that [calculateLevenshteinDistance a b] stores in
    [matrix[j][i]]. *)
Fixpoint cellValue (a b : jsstring) (i : nat) : nat -> nat :=
  match i with
  | 0 => fun j => j
  | S i' =>
      fix row (j : nat) : nat :=
        match j with
        | 0 => S i'
        | S j' =>
            min3 (cellValue a b i' (S j') + 1)
                 (row j' + 1)
                 (cellValue a b i' j'
                  + (if bool_decide (a !! i' = b !! j') then 0 else 1))
        end
  end.

(** The matrix has its full size, and [matrix[j][i]] holds its final
    value. *)
Definition matrixShape (a b : jsstring) (m : Matrix) : Prop :=
  length m = length b + 1 /\
  forall j row, m !! j = Some row -> length row = length a + 1.

Definition filledAt (a b : jsstring) (m : Matrix) (j i : nat) : Prop :=
  exists row, m !! j = Some row /\ row !! i = Some (Some (cellValue a b i j)).

(** A code unit that canonical decomposition leaves alone. *)
Definition nfdUnit `{Builtins} (c : N) : Prop := normalizeNFD [c] = [c].

(** What the proofs use of the Unicode tables: lower case leaves the
    small ASCII letters, the digits and white space as they are; the code
    units of a decomposed string decompose no further; and a string of
    small ASCII letters, digits and white space none of which decomposes
    is its own decomposition (it has no combining marks to reorder). *)
Class BuiltinsSpec `{Builtins} : Prop := {
  toLowerCase_kept s :
    Forall (fun c => isKept c = true) s -> toLowerCase s = s;
  normalizeNFD_units s : Forall nfdUnit (normalizeNFD s);
  normalizeNFD_kept s :
    Forall (fun c => isKept c = true) s -> Forall nfdUnit s ->
    normalizeNFD s = s
}.

(** A code unit that [decomposeUnit] leaves alone. *)
Definition latin1Unit (d : N) : Prop := decomposeUnit d = [d].

(** The value of a finite double. *)
Definition valueQ (s : bool) (m : positive) (e : Z) : Q :=
  inject_Z (cond_Zopp s (Zpos m)) * 2 ^ e.

(** [signed prec emax s x]: [x] is a finite number or an infinity of the
    sign [s], with its exponent not below [emin]. *)
Definition signed (prec emax : Z) (s : bool) (x : spec_float) : Prop :=
  match x with
  | S754_finite s' _ e => s' = s /\ (emin prec emax <= e)%Z
  | S754_infinity s' => s' = s
  | _ => False
  end.

(** [aboveEmin prec emax x]: the exponent of [x], if [x] is finite, is not
    below [emin]. Every result of a rounding is so. *)
Definition aboveEmin (prec emax : Z) (x : spec_float) : Prop :=
  match x with
  | S754_finite _ _ e => (emin prec emax <= e)%Z
  | _ => True
  end.

(** The scored entries above the threshold of the search: each is the
    scored entry of its item, and its total is a number. *)
Definition ranked `{Builtins} (query : jsstring) (x : Double.ScoredItem) : Prop :=
  x = Double.scoreItem query (Double.item x) /\
  Double.gtb (Double.score x) (Double.decimal 2 10) = true.

(** [x] stands before [y] in [l]. *)
Definition before {A : Type} (x y : A) (l : list A) : Prop :=
  exists l1 l2 l3, l = l1 ++ x :: l2 ++ y :: l3.

(** The entries of a shopping list with the location found for each, and
    the entries for which none is found, in the order of the list. *)
Definition located `{Builtins} (productLocations : ShoppingPath.ProductLocations)
    (shoppingList : list jsstring) : list (jsstring * ShoppingPath.Location) :=
  flat_map (fun item =>
    match fst (ShoppingPath.findProductLocation productLocations item) with
    | Some location => [(item, location)]
    | None => []
    end) shoppingList.

Definition unlocated `{Builtins} (productLocations : ShoppingPath.ProductLocations)
    (shoppingList : list jsstring) : list jsstring :=
  List.filter (fun item =>
    negb (snd (ShoppingPath.findProductLocation productLocations item)))
    shoppingList.

(** The names of the items of all the corridor visits of a path, visit
    after visit. *)
Definition visitedItems (path : ShoppingPath.OptimizedPath) : list jsstring :=
  flat_map (fun visit => List.map ShoppingPath.name (ShoppingPath.items visit))
    (ShoppingPath.corridors path).

(** The other end of a corridor. *)
Definition opposite (p : Point) : Point :=
  match p with East => West | West => East end.

(** ** The products of a catalog *)

(** The products of a [category -> products] object, each with the
    location that [createProductIndex] writes for it, in the order in
    which it writes them. *)
Definition categoryProducts (corridor direction position : jsstring)
    (cats : Categories) : list (jsstring * ShoppingPath.Location) :=
  flat_map (fun '(category, products) =>
    List.map (fun product =>
      (product,
       {| ShoppingPath.corridor := corridor;
          ShoppingPath.direction := direction;
          ShoppingPath.position := position;
          ShoppingPath.category := category;
          ShoppingPath.distanceFromStart := lookupDistance corridor |}))
      products) cats.

(** The products that [createProductIndex] reads under one corridor:
    the flat categories of "Seiten M"; under another name, for every shelf
    side, the positioned categories and then the full-width ones. *)
Definition corridorProducts (entry : jsstring * CorridorData)
  : list (jsstring * ShoppingPath.Location) :=
  let '(corridor, corridorData) := entry in
  if str_eqb corridor (lit "Seiten M") then
    match corridorData with
    | Flat cats => categoryProducts corridor [] [] cats
    | Sided _ => []
    end
  else
    match corridorData with
    | Flat _ => []
    | Sided dirs =>
        flat_map (fun '(direction, directionData) =>
          match positions directionData with
          | Some ps =>
              flat_map (fun '(position, positionData) =>
                categoryProducts corridor direction position positionData) ps
          | None => []
          end
          ++ match categories directionData with
             | Some cats => categoryProducts corridor direction [] cats
             | None => []
             end) dirs
    end.

Definition catalogProducts (storeData : StoreData)
  : list (jsstring * ShoppingPath.Location) :=
  flat_map corridorProducts storeData.

(** Writing a sequence of products into the index. *)
Definition indexProducts `{Builtins}
    (products : list (jsstring * ShoppingPath.Location))
    (productLocations : ShoppingPath.ProductLocations)
  : ShoppingPath.ProductLocations :=
  fold_left (fun acc '(product, location) =>
    mapSet acc (toLowerCase product) location) products productLocations.

(** The last of a sequence of products that has a given name in lower
    case. *)
Definition lastNamed `{Builtins} (k : jsstring)
    (products : list (jsstring * ShoppingPath.Location))
  : option (jsstring * ShoppingPath.Location) :=
  List.find (fun '(product, _) => str_eqb (toLowerCase product) k)
    (rev products).

(** The corridor entry that makes the constructor throw: "Seiten M" with
    a shelf side in it. *)
Definition throwingEntry (entry : jsstring * CorridorData) : Prop :=
  exists side sides, entry = (lit "Seiten M", Sided (side :: sides)).

(** ** The visits of a path *)

(** The item that [optimizeShoppingPath] emits for an entry of the list
    and its location. *)
Definition pathItemOf (entry : jsstring * ShoppingPath.Location)
  : ShoppingPath.PathItem :=
  let '(name, location) := entry in
  {| ShoppingPath.name := name;
     ShoppingPath.item_category := ShoppingPath.category location;
     ShoppingPath.location :=
       {| ShoppingPath.il_corridor := ShoppingPath.corridor location;
          ShoppingPath.il_direction := ShoppingPath.direction location;
          ShoppingPath.il_position := ShoppingPath.position location;
          ShoppingPath.side :=
            if str_eqb (ShoppingPath.direction location) (lit "N")
            then lit "Right" else lit "Left" |} |}.

(** The visit that it emits for a corridor, its entry side and its sorted
    items. *)
Definition visitOf (fromEast : bool) (corridor : jsstring)
    (sortedItems : list (jsstring * ShoppingPath.Location))
  : ShoppingPath.CorridorPath :=
  {| ShoppingPath.cp_name := corridor;
     ShoppingPath.entryPoint := if fromEast then East else West;
     ShoppingPath.exitPoint := if fromEast then West else East;
     ShoppingPath.items := List.map pathItemOf sortedItems |}.

(** The entry side that [determineCorridorEntryPoints] chooses for a
    corridor, given the position reached before it. *)
Definition entryChoice
    (corridorItems : list (jsstring * list (jsstring * ShoppingPath.Location)))
    (corridor : jsstring) (currentPosition : Position) : bool :=
  if str_eqb corridor (lit "Seiten M") then true
  else
    let items := default [] (mapGet corridorItems corridor) in
    let eastItems :=
      length (List.filter (ShoppingPath.nearEnd (lit "E")) items) in
    let westItems :=
      length (List.filter (ShoppingPath.nearEnd (lit "W")) items) in
    if ShoppingPath.moreThanOneAndAHalf eastItems westItems then true
    else if ShoppingPath.moreThanOneAndAHalf westItems eastItems then false
    else isEast currentPosition.

(** The position reached after a corridor. *)
Definition positionAfter (corridor : jsstring) (fromEast : bool)
    (currentPosition : Position) : Position :=
  if str_eqb corridor (lit "Seiten M") then currentPosition
  else if fromEast then west else east.

(** The order of the items of a visit: by category, and within a
    category the items of the shelf [near] first. *)
Definition itemsInOrder (near : jsstring) (a b : ShoppingPath.PathItem) : Prop :=
  str_ltb (ShoppingPath.item_category a) (ShoppingPath.item_category b) = true
  \/ (ShoppingPath.item_category a = ShoppingPath.item_category b
      /\ (ShoppingPath.il_direction (ShoppingPath.location b) = near ->
          ShoppingPath.il_direction (ShoppingPath.location a) = near)).

(** The shelf that is sorted first for an entry point: north when coming
    from the east, south when coming from the west. *)
Definition nearShelf (p : Point) : jsstring :=
  match p with East => lit "N" | West => lit "S" end.

(** One step of [determineCorridorEntryPoints]: the entry side of the
    corridor is recorded and the position moves on. *)
Definition entryStep
    (corridorItems : list (jsstring * list (jsstring * ShoppingPath.Location)))
    (state : list (jsstring * bool) * Position) (corridor : jsstring)
  : list (jsstring * bool) * Position :=
  (mapSet (fst state) corridor (entryChoice corridorItems corridor (snd state)),
   positionAfter corridor (entryChoice corridorItems corridor (snd state))
     (snd state)).

(** An item of a visit counts for the end [p] of the corridor when its
    position is [p] or when it has no position. *)
Definition itemNearEnd (p : jsstring) (it : ShoppingPath.PathItem) : bool :=
  str_eqb (ShoppingPath.il_position (ShoppingPath.location it)) p
  || str_eqb (ShoppingPath.il_position (ShoppingPath.location it)) [].

(** A location of the first optimizer, as the second one stores it. *)
Definition forgetDistance (location : ShoppingPath.Location) : Visual.Location :=
  {| Visual.corridor := ShoppingPath.corridor location;
     Visual.direction := ShoppingPath.direction location;
     Visual.position := ShoppingPath.position location;
     Visual.category := ShoppingPath.category location |}.

(** [m.has(k)], read off the keys. *)
Definition hasKey (keys : list jsstring) (k : jsstring) : bool :=
  existsb (fun k' => str_eqb k' k) keys.

(** The keys of the grouping of a sequence of corridors: every corridor
    at its first occurrence. *)
Definition firstOccurrences (corridors : list jsstring) : list jsstring :=
  fold_left (fun keys c => keys ++ (if hasKey keys c then [] else [c]))
    corridors [].

(** An entry of the first index, as an entry of the second. *)
Definition forgetEntry (e : jsstring * ShoppingPath.Location)
  : jsstring * Visual.Location :=
  (fst e, forgetDistance (snd e)).

(** ** The steps of the navigation (StoreLayoutVisual.tsx) *)

(** The objects of [getPathSteps]; the two points are absent from the
    first and the last step. *)
Record Step := {
  step_id : nat;
  title : jsstring;
  description : jsstring;
  step_location : jsstring;
  action : jsstring;
  step_entryPoint : option Point;
  step_exitPoint : option Point
}.

(** The strings "East" and "West" of a result. *)
Definition pointName (p : Point) : jsstring :=
  match p with East => lit "East" | West => lit "West" end.

Definition point_eqb (p q : Point) : bool :=
  match p, q with
  | East, East | West, West => true
  | _, _ => false
  end.

(** The arrow of the descriptions, U+2192, between two spaces. *)
Definition arrow : jsstring := lit " " ++ [8594%N] ++ lit " ".

(** The callback of [path.forEach] in [getPathSteps]: a corridor that is
    neither "Seiten M" nor a "Gang " adds no step. *)
Definition pushCorridorStep (steps : list Step) (location : Visual.CorridorStep)
  : list Step :=
  if str_eqb (Visual.name location) (lit "Seiten M") then
    steps ++ [ {| step_id := length steps;
                  title := Visual.name location;
                  description := lit "Visit side section";
                  step_location := Visual.name location;
                  action := lit "visit";
                  step_entryPoint := Some West;
                  step_exitPoint := Some West |} ]
  else if startsWith (Visual.name location) (lit "Gang ") then
    let walkingDirection :=
      if point_eqb (Visual.entryPoint location) (Visual.exitPoint location)
      then lit "visit only"
      else if point_eqb (Visual.entryPoint location) East
              && point_eqb (Visual.exitPoint location) West
      then lit "walk East" ++ arrow ++ lit "West"
      else if point_eqb (Visual.entryPoint location) West
              && point_eqb (Visual.exitPoint location) East
      then lit "walk West" ++ arrow ++ lit "East"
      else pointName (Visual.entryPoint location) ++ arrow
           ++ pointName (Visual.exitPoint location) in
    steps ++ [ {| step_id := length steps;
                  title := Visual.name location;
                  description := walkingDirection;
                  step_location := Visual.name location;
                  action :=
                    if point_eqb (Visual.entryPoint location)
                         (Visual.exitPoint location)
                    then lit "visit" else lit "traverse";
                  step_entryPoint := Some (Visual.entryPoint location);
                  step_exitPoint := Some (Visual.exitPoint location) |} ]
  else steps.

(** [getPathSteps], on the path that [getOptimizedPath] returns. *)
Definition getPathSteps (path : list Visual.CorridorStep) : list Step :=
  let steps :=
    [ {| step_id := 0;
         title := lit "Start";
         description := lit "Begin at Eingang";
         step_location := lit "Eingang";
         action := lit "enter";
         step_entryPoint := None;
         step_exitPoint := None |} ] in
  let steps := fold_left pushCorridorStep path steps in
  steps ++ [ {| step_id := length steps;
                title := lit "Checkout";
                description := lit "Proceed to Kassen";
                step_location := lit "Kassen";
                action := lit "checkout";
                step_entryPoint := None;
                step_exitPoint := None |} ].

(** The corridors for which [getPathSteps] has a step. *)
Definition hasStep (location : Visual.CorridorStep) : bool :=
  str_eqb (Visual.name location) (lit "Seiten M")
  || startsWith (Visual.name location) (lit "Gang ").

(** ** The shopping list of the main component *)

(** [String(n)] for an index or a clock reading: its decimal digits. *)
Fixpoint digitUnits (d : Decimal.uint) : jsstring :=
  match d with
  | Decimal.Nil => []
  | Decimal.D0 d => 48%N :: digitUnits d
  | Decimal.D1 d => 49%N :: digitUnits d
  | Decimal.D2 d => 50%N :: digitUnits d
  | Decimal.D3 d => 51%N :: digitUnits d
  | Decimal.D4 d => 52%N :: digitUnits d
  | Decimal.D5 d => 53%N :: digitUnits d
  | Decimal.D6 d => 54%N :: digitUnits d
  | Decimal.D7 d => 55%N :: digitUnits d
  | Decimal.D8 d => 56%N :: digitUnits d
  | Decimal.D9 d => 57%N :: digitUnits d
  end.

Definition numberToString (n : nat) : jsstring := digitUnits (Nat.to_uint n).

(** [items.forEach((itemName, index) => allItems.push(...))] for every
    category of a [category -> products] object; [prefix] is the part of
    the id before the category. *)
Definition categoryItems (prefix gangKey : jsstring) (cats : Categories)
  : list GroceryItem :=
  flat_map (fun '(categoryKey, items) =>
    List.map (fun '(index, itemName) =>
      {| id := prefix ++ categoryKey ++ lit "_" ++ numberToString index;
         name := itemName;
         category := categoryKey;
         gang := gangKey |})
      (combine (seq 0 (length items)) items)) cats.

(** [getAllGroceryItems], on the catalog [articles]: for every corridor
    the sections N and S (the categories, then the positions), then the
    arrays that the corridor holds directly, but those under the keys N and
    S. *)
Definition getAllGroceryItems (articles : StoreData) : list GroceryItem :=
  flat_map (fun '(gangKey, gangData) =>
    flat_map (fun section =>
      match gangData with
      | Flat _ => []
      | Sided dirs =>
          match mapGet dirs section with
          | None => []
          | Some sectionData =>
              match categories sectionData with
              | Some cats =>
                  categoryItems (gangKey ++ lit "_" ++ section ++ lit "_")
                    gangKey cats
              | None => []
              end
              ++ match positions sectionData with
                 | Some ps =>
                     flat_map (fun '(direction, cats) =>
                       categoryItems
                         (gangKey ++ lit "_" ++ section ++ lit "_"
                          ++ direction ++ lit "_") gangKey cats) ps
                 | None => []
                 end
          end
      end) [lit "N"; lit "S"]
    ++ match gangData with
       | Flat cats =>
           categoryItems (gangKey ++ lit "_") gangKey
             (List.filter (fun '(key, _) =>
                negb (str_eqb key (lit "N")) && negb (str_eqb key (lit "S")))
                cats)
       | Sided _ => []
       end) articles.

(** An entry of the shopping list; [completed] is optional, [createdAt] is
    a reading of the clock. *)
Record ShoppingItem := {
  item_id : jsstring;
  text : jsstring;
  completed : option bool;
  createdAt : nat
}.

Record FavoriteItem := {
  fav_id : jsstring;
  fav_name : jsstring;
  fav_category : jsstring;
  fav_gang : jsstring
}.

(** [item.completed], as a condition. *)
Definition isCompleted (it : ShoppingItem) : bool := default false (completed it).

(** The state of [App] that the list operations read and write. *)
Record AppState := {
  items : list ShoppingItem;
  favorites : list FavoriteItem;
  newItem : jsstring;
  editingId : option jsstring;
  editingText : jsstring;
  showSuggestions : bool
}.

Section App.
Context `{Builtins}.

(** The suggestions shown under the input: the search results that are
    not in the list yet, five at most. *)
Definition suggestionsFor (articles : StoreData) (st : AppState)
  : list GroceryItem :=
  if 0 <? length (trim (newItem st)) then
    let allGroceryItems := getAllGroceryItems articles in
    take 5
      (List.filter (fun item =>
         negb (existsb (fun existingItem =>
                 str_eqb (toLowerCase (text existingItem))
                   (toLowerCase (name item))) (items st)))
         (Double.searchProducts (newItem st) allGroceryItems))
  else [].

(** [addItem]; [now] is [Date.now()] and [date] is [new Date()]. The
    second component says whether the alert is shown. *)
Definition addItem (articles : StoreData) (now date : nat) (st : AppState)
  : AppState * bool :=
  if negb (bool_decide (trim (newItem st) = [])) then
    let availableItems := getAllGroceryItems articles in
    match List.find (fun item =>
            str_eqb (toLowerCase (name item))
              (toLowerCase (trim (newItem st)))) availableItems with
    | Some matchingItem =>
        let item := {| item_id := numberToString now;
                       text := name matchingItem;
                       completed := Some false;
                       createdAt := date |} in
        ({| items := item :: items st;
            favorites := favorites st;
            newItem := [];
            editingId := editingId st;
            editingText := editingText st;
            showSuggestions := false |}, false)
    | None => (st, true)
    end
  else (st, false).
End App.

Definition addToFavorites (item : GroceryItem) (st : AppState) : AppState :=
  let favoriteItem := {| fav_id := id item;
                         fav_name := name item;
                         fav_category := category item;
                         fav_gang := gang item |} in
  if negb (existsb (fun fav => str_eqb (fav_id fav) (id item)) (favorites st))
  then {| items := items st;
          favorites := favorites st ++ [favoriteItem];
          newItem := newItem st;
          editingId := editingId st;
          editingText := editingText st;
          showSuggestions := showSuggestions st |}
  else st.

Definition removeFromFavorites (itemId : jsstring) (st : AppState) : AppState :=
  {| items := items st;
     favorites :=
       List.filter (fun fav => negb (str_eqb (fav_id fav) itemId)) (favorites st);
     newItem := newItem st;
     editingId := editingId st;
     editingText := editingText st;
     showSuggestions := showSuggestions st |}.

(** The update of [toggleItem]: [!item.completed] of a flag that is
    absent is [true]. *)
Definition toggleItem (itemId : jsstring) (l : list ShoppingItem)
  : list ShoppingItem :=
  List.map (fun item =>
    if str_eqb (item_id item) itemId
    then {| item_id := item_id item;
            text := text item;
            completed := Some (negb (isCompleted item));
            createdAt := createdAt item |}
    else item) l.

(** The update of [deleteItem]. *)
Definition deleteItem (itemId : jsstring) (l : list ShoppingItem)
  : list ShoppingItem :=
  List.filter (fun item => negb (str_eqb (item_id item) itemId)) l.

(** The update of [clearCompleted]. *)
Definition clearCompleted (l : list ShoppingItem) : list ShoppingItem :=
  List.filter (fun item => negb (isCompleted item)) l.

(** [saveEdit]: a blank text, or no item under edit, changes nothing. *)
Definition saveEdit (st : AppState) : AppState :=
  match editingId st with
  | Some editing =>
      if negb (bool_decide (trim (editingText st) = []))
         && negb (str_eqb editing [])
      then {| items :=
                List.map (fun item =>
                  if str_eqb (item_id item) editing
                  then {| item_id := item_id item;
                          text := trim (editingText st);
                          completed := completed item;
                          createdAt := createdAt item |}
                  else item) (items st);
              favorites := favorites st;
              newItem := newItem st;
              editingId := None;
              editingText := [];
              showSuggestions := showSuggestions st |}
      else st
  | None => st
  end.

(** A catalog of the shape the application is written for: "Seiten M"
    holds its categories directly, every other corridor holds shelf
    sides. *)
Definition storeShape (storeData : StoreData) : Prop :=
  Forall (fun entry =>
            match snd entry with
            | Flat _ => fst entry = lit "Seiten M"
            | Sided _ => fst entry <> lit "Seiten M"
            end) storeData.

(** ** A small state of the main component *)

(** "Milk" is on the list and "Bread" is a favorite; "bread" is typed in
    the input. *)
Definition exampleGrocery : GroceryItem :=
  {| id := lit "Gang 7_N_bakery_0";
     name := lit "Bread";
     category := lit "bakery";
     gang := lit "Gang 7" |}.

Definition exampleState : AppState :=
  {| items := [ {| item_id := lit "1700000000000";
                   text := lit "Milk";
                   completed := Some false;
                   createdAt := 0 |} ];
     favorites := [ {| fav_id := lit "Gang 7_N_bakery_0";
                       fav_name := lit "Bread";
                       fav_category := lit "bakery";
                       fav_gang := lit "Gang 7" |} ];
     newItem := lit " bread";
     editingId := None;
     editingText := [];
     showSuggestions := true |}.

(** * Edit distance *)

Lemma EditDistance_nil_r a : EditDistance a [] = length a.
Proof. destruct a; reflexivity. Qed.

Lemma EditDistance_cons x y a b :
  EditDistance (x :: a) (y :: b) =
  min3 (EditDistance a (y :: b) + 1) (EditDistance (x :: a) b + 1)
       (EditDistance a b + substCost x y).
Proof. reflexivity. Qed.

Lemma Edit_EditDistance a b : Edit a b (EditDistance a b).
Proof.
  revert b. induction a as [|x a IHa]; intros b.
  - induction b as [|y b IHb]; simpl; [constructor | now apply edit_insert].
  - induction b as [|y b IHb].
    + rewrite EditDistance_nil_r. simpl. apply edit_delete.
      specialize (IHa []). now rewrite EditDistance_nil_r in IHa.
    + rewrite EditDistance_cons. unfold min3.
      destruct (Nat.min_spec (EditDistance a (y :: b) + 1)
                  (Nat.min (EditDistance (x :: a) b + 1)
                     (EditDistance a b + substCost x y))) as [[_ ->]|[_ ->]].
      * rewrite Nat.add_1_r. apply edit_delete, IHa.
      * destruct (Nat.min_spec (EditDistance (x :: a) b + 1)
                    (EditDistance a b + substCost x y)) as [[_ ->]|[_ ->]].
        -- rewrite Nat.add_1_r. apply edit_insert, IHb.
        -- apply edit_subst, IHa.
Qed.

Lemma Edit_lower_bound a b n : Edit a b n -> EditDistance a b <= n.
Proof.
  induction 1 as [|x a b n _ IH|y a b n _ IH|x y a b n _ IH].
  - simpl. lia.
  - destruct b as [|y b].
    + rewrite EditDistance_nil_r in *. simpl. lia.
    + rewrite EditDistance_cons. unfold min3. lia.
  - destruct a as [|x a].
    + simpl in *. lia.
    + rewrite EditDistance_cons. unfold min3. lia.
  - rewrite EditDistance_cons. unfold min3. lia.
Qed.

Lemma Edit_snoc_delete x a b n : Edit a b n -> Edit (a ++ [x]) b (S n).
Proof.
  induction 1; simpl.
  - apply edit_delete, edit_nil.
  - now apply edit_delete.
  - now apply edit_insert.
  - apply (edit_subst _ _ _ _ (S n)). assumption.
Qed.

Lemma Edit_snoc_insert y a b n : Edit a b n -> Edit a (b ++ [y]) (S n).
Proof.
  induction 1; simpl.
  - apply edit_insert, edit_nil.
  - now apply edit_delete.
  - now apply edit_insert.
  - apply (edit_subst _ _ _ _ (S n)). assumption.
Qed.

Lemma Edit_snoc_subst x y a b n :
  Edit a b n -> Edit (a ++ [x]) (b ++ [y]) (n + substCost x y).
Proof.
  induction 1 as [|x' a b n _ IH|y' a b n _ IH|x' y' a b n _ IH]; simpl.
  - apply (edit_subst x y [] [] 0), edit_nil.
  - apply (edit_delete _ _ _ (n + substCost x y)), IH.
  - apply (edit_insert _ _ _ (n + substCost x y)), IH.
  - replace (n + substCost x' y' + substCost x y)
      with (n + substCost x y + substCost x' y') by lia.
    apply edit_subst, IH.
Qed.

Lemma Edit_rev a b n : Edit a b n -> Edit (rev a) (rev b) n.
Proof.
  induction 1; simpl.
  - constructor.
  - now apply Edit_snoc_delete.
  - now apply Edit_snoc_insert.
  - now apply Edit_snoc_subst.
Qed.

Lemma EditDistance_rev a b : EditDistance (rev a) (rev b) = EditDistance a b.
Proof.
  apply Nat.le_antisymm.
  - apply Edit_lower_bound, Edit_rev, Edit_EditDistance.
  - rewrite <- (rev_involutive a), <- (rev_involutive b) at 1.
    apply Edit_lower_bound, Edit_rev, Edit_EditDistance.
Qed.

(** The reference is the distance of the textbooks: dropping a character
    of either string changes it by at most 1, so that equal heads can
    always be matched. *)
Lemma EditDistance_delete_le x a b : EditDistance (x :: a) b <= EditDistance a b + 1.
Proof.
  destruct b as [|y b].
  - rewrite !EditDistance_nil_r. simpl. lia.
  - rewrite EditDistance_cons. unfold min3. lia.
Qed.

Lemma EditDistance_insert_le y a b : EditDistance a (y :: b) <= EditDistance a b + 1.
Proof.
  destruct a as [|x a].
  - simpl. lia.
  - rewrite EditDistance_cons. unfold min3. lia.
Qed.

Lemma EditDistance_tail_r y a b : EditDistance a b <= EditDistance a (y :: b) + 1.
Proof.
  pose proof (Edit_EditDistance a (y :: b)) as He.
  remember (y :: b) as b' eqn:Hb. remember (EditDistance a b') as n eqn:Hn.
  clear Hn. revert y b Hb.
  induction He as [|x a b' n _ IH|y' a b' n He _|x y' a b' n He _];
    intros y b Hb.
  - discriminate.
  - pose proof (IH y b Hb). pose proof (EditDistance_delete_le x a b). lia.
  - injection Hb as -> ->. apply Edit_lower_bound in He. lia.
  - injection Hb as -> ->. apply Edit_lower_bound in He.
    pose proof (EditDistance_delete_le x a b). lia.
Qed.

Lemma EditDistance_tail_l x a b : EditDistance a b <= EditDistance (x :: a) b + 1.
Proof.
  pose proof (Edit_EditDistance (x :: a) b) as He.
  remember (x :: a) as a' eqn:Ha. remember (EditDistance a' b) as n eqn:Hn.
  clear Hn. revert x a Ha.
  induction He as [|x' a' b n He _|y a' b n _ IH|x' y a' b n He _];
    intros x a Ha.
  - discriminate.
  - injection Ha as -> ->. apply Edit_lower_bound in He. lia.
  - pose proof (IH x a Ha). pose proof (EditDistance_insert_le y a b). lia.
  - injection Ha as -> ->. apply Edit_lower_bound in He.
    pose proof (EditDistance_insert_le y a b). lia.
Qed.

Lemma EditDistance_match x a b : EditDistance (x :: a) (x :: b) = EditDistance a b.
Proof.
  rewrite EditDistance_cons. unfold min3, substCost.
  rewrite bool_decide_eq_true_2 by reflexivity.
  pose proof (EditDistance_tail_r x a b).
  pose proof (EditDistance_tail_l x a b). lia.
Qed.

(** The cells of the matrix are the distances between prefixes. *)
Lemma cellValue_0_r a b i : cellValue a b i 0 = i.
Proof. destruct i; reflexivity. Qed.

Lemma cellValue_S a b i j :
  cellValue a b (S i) (S j) =
  min3 (cellValue a b i (S j) + 1) (cellValue a b (S i) j + 1)
       (cellValue a b i j + (if bool_decide (a !! i = b !! j) then 0 else 1)).
Proof. reflexivity. Qed.

Lemma cellValue_prefixes a b i j :
  i <= length a -> j <= length b ->
  cellValue a b i j = EditDistance (rev (take i a)) (rev (take j b)).
Proof.
  revert j. induction i as [|i IHi]; intros j Hi Hj.
  - rewrite take_0. simpl. now rewrite length_rev, length_take, Nat.min_l.
  - induction j as [|j IHj].
    + rewrite cellValue_0_r, take_0. simpl rev at 2.
      now rewrite EditDistance_nil_r, length_rev, length_take, Nat.min_l.
    + destruct (lookup_lt_is_Some_2 a i) as [x Hx]; [lia|].
      destruct (lookup_lt_is_Some_2 b j) as [y Hy]; [lia|].
      assert (Ha : rev (take (S i) a) = x :: rev (take i a))
        by (rewrite (take_S_r a i x Hx), rev_unit; reflexivity).
      assert (Hb : rev (take (S j) b) = y :: rev (take j b))
        by (rewrite (take_S_r b j y Hy), rev_unit; reflexivity).
      rewrite cellValue_S, IHj, !IHi by lia.
      rewrite Ha, Hb, EditDistance_cons, Hx, Hy. unfold substCost.
      destruct (decide (x = y)) as [->|Hne].
      * now rewrite !bool_decide_eq_true_2.
      * rewrite !bool_decide_eq_false_2; congruence.
Qed.

(** Writing one cell. *)
Lemma mset_shape a b m j i v : matrixShape a b m -> matrixShape a b (mset m j i v).
Proof.
  intros [Hlen Hrows]. split.
  - unfold mset. now rewrite length_alter.
  - intros j' row. unfold mset. rewrite list_lookup_alter.
    destruct (decide (j = j')) as [<-|_]; [|apply Hrows].
    destruct (m !! j) as [r|] eqn:Hr; simpl; [|discriminate].
    intros [= <-]. rewrite length_insert. eauto.
Qed.

Lemma mset_filled a b m j i v j' i' :
  matrixShape a b m -> j <= length b -> i <= length a ->
  v = cellValue a b i j ->
  filledAt a b m j' i' \/ (j' = j /\ i' = i) ->
  filledAt a b (mset m j i v) j' i'.
Proof.
  intros [Hlen Hrows] Hj Hi -> Hcase. unfold filledAt, mset.
  destruct (lookup_lt_is_Some_2 m j) as [r Hr]; [lia|].
  pose proof (Hrows _ _ Hr) as Hrlen.
  destruct (decide (j' = j)) as [->|Hjne].
  - exists (<[i := Some (cellValue a b i j)]> r). split.
    + now rewrite list_lookup_alter, decide_True, Hr.
    + destruct (decide (i' = i)) as [->|Hine].
      * apply list_lookup_insert_eq. lia.
      * rewrite list_lookup_insert_ne by congruence.
        destruct Hcase as [(row & Hrow & Hcell)|[_ ?]]; [|contradiction].
        congruence.
  - destruct Hcase as [(row & Hrow & Hcell)|[? _]]; [|contradiction].
    exists row. split; [|assumption].
    now rewrite list_lookup_alter_ne.
Qed.

Lemma mget_filled a b m j i : filledAt a b m j i -> mget m j i = cellValue a b i j.
Proof. intros (row & Hrow & Hcell). unfold mget. now rewrite Hrow, Hcell. Qed.

(** The rule of a counting loop. *)
Lemma forUpTo_invariant {St : Type} (P : nat -> St -> Prop) from to body (s : St) :
  from <= to + 1 ->
  P from s ->
  (forall k s, from <= k <= to -> P k s -> P (k + 1) (body s k)) ->
  P (to + 1) (forUpTo from to body s).
Proof.
  unfold forUpTo. intros Hle Hinit Hstep.
  remember (to + 1 - from) as n eqn:Hn.
  replace (to + 1) with (from + n) by lia.
  assert (Hbound : from + n <= to + 1) by lia. clear Hn Hle.
  revert from s Hinit Hstep Hbound.
  induction n as [|n IH]; intros from s Hinit Hstep Hbound; simpl.
  - now rewrite Nat.add_0_r.
  - replace (from + S n) with (S from + n) by lia.
    apply IH; [|intros; apply Hstep; [lia|assumption]|lia].
    replace (S from) with (from + 1) by lia. apply Hstep; [lia|assumption].
Qed.

Lemma initial_matrix_shape a b :
  matrixShape a b (replicate (length b + 1) (replicate (length a + 1) None)).
Proof.
  split.
  - apply length_replicate.
  - intros j row Hrow. apply lookup_replicate in Hrow as [-> _].
    apply length_replicate.
Qed.

(** The inner loop fills row [j] from left to right. *)
Lemma fill_row a b j m :
  1 <= j <= length b ->
  matrixShape a b m ->
  (forall j' i, j' <= length b -> i <= length a -> j' < j \/ i = 0 ->
                filledAt a b m j' i) ->
  let m' :=
    forUpTo 1 (length a) (fun m i =>
      let substitutionCost :=
        if bool_decide (a !! (i - 1) = b !! (j - 1)) then 0 else 1 in
      mset m j i
        (min3 (mget m j (i - 1) + 1)
              (mget m (j - 1) i + 1)
              (mget m (j - 1) (i - 1) + substitutionCost))) m in
  matrixShape a b m' /\
  (forall j' i, j' <= length b -> i <= length a -> j' < j + 1 \/ i = 0 ->
                filledAt a b m' j' i).
Proof.
  intros Hj Hshape Hfilled m'. subst m'.
  match goal with |- context [forUpTo 1 _ ?body m] => set (f := body) end.
  pose proof (forUpTo_invariant
    (fun k m => matrixShape a b m /\
       forall j' i, j' <= length b -> i <= length a ->
                    j' < j \/ i = 0 \/ (j' = j /\ i < k) -> filledAt a b m j' i)
    1 (length a) f m) as Hloop.
  destruct Hloop as [Hshape' Hfilled'].
  - lia.
  - split; [assumption|]. intros j' i Hj' Hi Hcase. apply Hfilled; lia.
  - intros k s Hk [Hs Hf]. split; [now apply mset_shape|].
    intros j' i Hj' Hi Hcase. unfold f.
    apply mset_filled; [assumption|lia|lia| |].
    + destruct k as [|k]; [lia|]. destruct j as [|j]; [lia|].
      rewrite !(mget_filled a b) by (apply Hf; lia).
      rewrite cellValue_S. simpl. now rewrite !Nat.sub_0_r.
    + destruct (decide (j' = j /\ i = k)); [now right|].
      left. apply Hf; lia.
  - split; [assumption|]. intros j' i Hj' Hi Hcase. apply Hfilled'; lia.
Qed.

Lemma calculateLevenshteinDistance_cellValue a b :
  length a <> 0 -> length b <> 0 ->
  calculateLevenshteinDistance a b = cellValue a b (length a) (length b).
Proof.
  intros Ha Hb. unfold calculateLevenshteinDistance.
  apply Nat.eqb_neq in Ha as Ha', Hb as Hb'. rewrite Ha', Hb'. clear Ha' Hb'.
  set (m0 := replicate (length b + 1) (replicate (length a + 1) None)).
  set (m1 := forUpTo 0 (length a) _ m0).
  set (m2 := forUpTo 0 (length b) _ m1).
  set (m3 := forUpTo 1 (length b) _ m2).
  assert (H1 : matrixShape a b m1 /\
               forall i, i < length a + 1 -> filledAt a b m1 0 i).
  { apply (forUpTo_invariant
      (fun k m => matrixShape a b m /\ forall i, i < k -> filledAt a b m 0 i)).
    - lia.
    - split; [apply initial_matrix_shape|]. intros i Hi. lia.
    - intros k s Hk [Hs Hf]. split; [now apply mset_shape|].
      intros i Hi. apply mset_filled; [assumption|lia|lia| |].
      + now rewrite cellValue_0_r.
      + destruct (decide (i = k)); [now right|]. left. apply Hf. lia. }
  destruct H1 as [Hs1 Hf1].
  assert (H2 : matrixShape a b m2 /\
               (forall i, i <= length a -> filledAt a b m2 0 i) /\
               forall j, j < length b + 1 -> filledAt a b m2 j 0).
  { apply (forUpTo_invariant
      (fun k m => matrixShape a b m /\
         (forall i, i <= length a -> filledAt a b m 0 i) /\
         forall j, j < k -> filledAt a b m j 0)).
    - lia.
    - split; [assumption|]. split; [intros; apply Hf1; lia|]. intros j Hj. lia.
    - intros k s Hk (Hs & Hrow & Hcol). split; [now apply mset_shape|]. split.
      + intros i Hi. apply mset_filled; [assumption|lia|lia|reflexivity|].
        left. now apply Hrow.
      + intros j Hj. apply mset_filled; [assumption|lia|lia|reflexivity|].
        destruct (decide (j = k)); [now right|]. left. apply Hcol. lia. }
  destruct H2 as (Hs2 & Hrow2 & Hcol2).
  assert (H3 : matrixShape a b m3 /\
               forall j i, j <= length b -> i <= length a ->
                           j < length b + 1 \/ i = 0 -> filledAt a b m3 j i).
  { apply (forUpTo_invariant
      (fun k m => matrixShape a b m /\
         forall j i, j <= length b -> i <= length a ->
                     j < k \/ i = 0 -> filledAt a b m j i)).
    - lia.
    - split; [assumption|]. intros j i Hj Hi [Hlt| ->].
      + replace j with 0 by lia. now apply Hrow2.
      + apply Hcol2. lia.
    - intros k s Hk [Hs Hf]. now apply fill_row. }
  apply mget_filled, H3; lia.
Qed.

(** The matrix computation is the edit distance of the specification. *)
Lemma calculateLevenshteinDistance_correct a b :
  calculateLevenshteinDistance a b = EditDistance a b.
Proof.
  destruct (decide (length a = 0)) as [Ha|Ha].
  { unfold calculateLevenshteinDistance. rewrite Ha. simpl.
    apply nil_length_inv in Ha. now subst. }
  destruct (decide (length b = 0)) as [Hb|Hb].
  { unfold calculateLevenshteinDistance. rewrite Hb.
    apply Nat.eqb_neq in Ha as ->. simpl.
    apply nil_length_inv in Hb. subst. now rewrite EditDistance_nil_r. }
  rewrite calculateLevenshteinDistance_cellValue by assumption.
  rewrite cellValue_prefixes, !firstn_all by lia.
  apply EditDistance_rev.
Qed.

(** * Normalization *)

(** Tests on code units, read as propositions. *)
Ltac units_to_Prop H :=
  repeat first
    [ rewrite Bool.orb_true_iff in H
    | rewrite Bool.andb_true_iff in H
    | rewrite Bool.negb_true_iff in H
    | rewrite Bool.orb_false_iff in H
    | rewrite Bool.andb_false_iff in H
    | rewrite N.leb_le in H
    | rewrite N.leb_gt in H
    | rewrite N.eqb_eq in H
    | rewrite N.eqb_neq in H ].

Lemma isKept_not_mark c : isKept c = true -> isCombiningMark c = false.
Proof.
  intros Hk. destruct (isCombiningMark c) eqn:Hm; [exfalso|reflexivity].
  unfold isKept, isSpace, isCombiningMark in *.
  units_to_Prop Hk. units_to_Prop Hm.
  lia.
Qed.

Lemma filter_all {A} (p : A -> bool) l :
  Forall (fun x => p x = true) l -> List.filter p l = l.
Proof.
  induction 1 as [|x l Hx _ IH]; simpl; [reflexivity|].
  now rewrite Hx, IH.
Qed.

Lemma filter_Forall {A} (p : A -> bool) l :
  Forall (fun x => p x = true) (List.filter p l).
Proof. apply List.Forall_forall. intros x Hx. now apply filter_In in Hx. Qed.

Lemma filter_preserves_Forall {A} (P : A -> Prop) (p : A -> bool) l :
  Forall P l -> Forall P (List.filter p l).
Proof.
  rewrite !List.Forall_forall. intros Hl x Hx. apply filter_In in Hx.
  apply Hl, Hx.
Qed.

Section Normalization.
Context `{BuiltinsSpec}.

Lemma normalizeString_kept s :
  Forall (fun c => isKept c = true) (normalizeString s).
Proof. apply filter_Forall. Qed.

Lemma normalizeString_units s : Forall nfdUnit (normalizeString s).
Proof.
  unfold normalizeString.
  do 2 apply filter_preserves_Forall. apply normalizeNFD_units.
Qed.

Lemma normalizeString_fixes_kept s :
  Forall (fun c => isKept c = true) s -> Forall nfdUnit s ->
  normalizeString s = s.
Proof.
  intros Hk Hu. unfold normalizeString.
  rewrite toLowerCase_kept, normalizeNFD_kept by assumption.
  rewrite (filter_all (fun c => negb (isCombiningMark c))).
  - now apply filter_all.
  - eapply Forall_impl; [exact Hk|]. intros c Hc. simpl.
    now rewrite isKept_not_mark.
Qed.
End Normalization.

(** C8. Normalization is idempotent: normalizing (lower case, canonical
    decomposition, removal of the combining marks, removal of every
    character but the small letters, digits and white space) a string that
    is already normalized changes nothing. *)
Theorem normalizeString_idempotent `{BuiltinsSpec} (s : jsstring) :
  normalizeString (normalizeString s) = normalizeString s.
Proof.
  apply normalizeString_fixes_kept.
  - apply normalizeString_kept.
  - apply normalizeString_units.
Qed.

(** The Latin-1 instance has the three properties. *)
Lemma lowerUnit_kept c : isKept c = true -> lowerUnit c = c.
Proof.
  intros Hk. unfold lowerUnit.
  match goal with |- (if ?t then _ else _) = _ => destruct t eqn:Hup end;
    [exfalso|reflexivity].
  unfold isKept, isSpace in Hk. units_to_Prop Hk. units_to_Prop Hup. lia.
Qed.

Lemma lookupUnit_In {V} c (t : list (N * V)) v :
  lookupUnit c t = Some v -> In (c, v) t.
Proof.
  induction t as [|[k w] t IH]; simpl; [discriminate|].
  destruct (N.eqb_spec k c) as [->|_].
  - intros [= ->]. now left.
  - intros Hv. right. now apply IH.
Qed.

Lemma latin1Decompositions_units :
  Forall (fun '(_, (base, mark)) =>
            latin1Unit base /\ latin1Unit mark /\ latin1Unit (base - 32))
         latin1Decompositions.
Proof. repeat (constructor; [now vm_compute|]). constructor. Qed.

Lemma decomposeUnit_units c : Forall latin1Unit (decomposeUnit c).
Proof.
  pose proof latin1Decompositions_units as Htable.
  rewrite List.Forall_forall in Htable.
  unfold decomposeUnit.
  destruct (lookupUnit c latin1Decompositions) as [[base mark]|] eqn:Hc.
  { apply lookupUnit_In, Htable in Hc as (Hb & Hm & _).
    repeat constructor; assumption. }
  destruct (lookupUnit (c + 32) latin1Decompositions) as [[base mark]|] eqn:Hc'.
  { destruct (N.eqb_spec c 223) as [->|_].
    - repeat constructor.
    - apply lookupUnit_In, Htable in Hc' as (_ & Hm & Hb).
      repeat constructor; assumption. }
  destruct (N.eqb_spec c 8192) as [->|H0]; [repeat constructor|].
  destruct (N.eqb_spec c 8193) as [->|H1]; [repeat constructor|].
  repeat constructor. unfold latin1Unit, decomposeUnit. rewrite Hc, Hc'.
  apply N.eqb_neq in H0 as ->. now apply N.eqb_neq in H1 as ->.
Qed.

Lemma latin1BuiltinsSpec : @BuiltinsSpec latin1Builtins.
Proof.
  split; simpl.
  - induction 1 as [|c s Hc _ IH]; simpl; [reflexivity|].
    rewrite IH. f_equal. now apply lowerUnit_kept.
  - intros s. induction s as [|c s IH]; simpl; [constructor|].
    apply Forall_app. split; [|assumption].
    eapply Forall_impl; [apply decomposeUnit_units|].
    intros d Hd. unfold nfdUnit. simpl. rewrite app_nil_r. exact Hd.
  - intros s _. induction 1 as [|c s Hc _ IH]; simpl; [reflexivity|].
    unfold nfdUnit in Hc. simpl in Hc. rewrite app_nil_r in Hc.
    now rewrite Hc, IH.
Qed.

(** "Café!" normalizes to "cafe". *)
Example normalizeString_cafe :
  @normalizeString latin1Builtins [67; 97; 102; 233; 33]%N = lit "cafe".
Proof. reflexivity. Qed.

Lemma normalizeString_idempotent_witness :
  @normalizeString latin1Builtins
    (@normalizeString latin1Builtins [67; 97; 102; 233; 33]%N)
  = @normalizeString latin1Builtins [67; 97; 102; 233; 33]%N.
Proof.
  exact (@normalizeString_idempotent latin1Builtins latin1BuiltinsSpec
           [67; 97; 102; 233; 33]%N).
Defined.

(** C7. The matrix computation of [calculateLevenshteinDistance] is the
    classic Levenshtein distance: it equals the recursive reference
    [EditDistance], in which a deletion, an insertion and a substitution
    cost 1 each and equal characters match at no cost. *)
Theorem calculateLevenshteinDistance_is_EditDistance (a b : jsstring) :
  calculateLevenshteinDistance a b = EditDistance a b.
Proof. apply calculateLevenshteinDistance_correct. Qed.

(** * Sorting *)

Section SortFacts.
Context {A : Type} (cmp : A -> A -> Z).

Lemma sortInsert_Permutation x l : sortInsert cmp x l ≡ₚ x :: l.
Proof.
  induction l as [|y l IH]; simpl; [reflexivity|].
  destruct (cmp x y <=? 0)%Z; [reflexivity|].
  rewrite IH. apply perm_swap.
Qed.

Lemma sort_Permutation l : sort cmp l ≡ₚ l.
Proof.
  induction l as [|x l IH]; simpl; [reflexivity|].
  now rewrite sortInsert_Permutation, IH.
Qed.

(** Sortedness, for a comparator that decides a total preorder. *)
Context (R : A -> A -> Prop).
Hypothesis R_trans : forall x y z, R x y -> R y z -> R x z.
Hypothesis cmp_le : forall x y, (cmp x y <=? 0)%Z = true -> R x y.
Hypothesis cmp_gt : forall x y, (cmp x y <=? 0)%Z = false -> R y x.

Lemma sortInsert_sorted x l :
  StronglySorted R l -> StronglySorted R (sortInsert cmp x l).
Proof.
  induction 1 as [|y l Hl IH Hy]; simpl.
  - repeat constructor.
  - destruct (cmp x y <=? 0)%Z eqn:Hxy.
    + constructor; [now constructor|].
      constructor; [now apply cmp_le|].
      eapply Forall_impl; [exact Hy|]. intros z Hz.
      eapply R_trans; [apply cmp_le, Hxy|exact Hz].
    + constructor; [assumption|].
      rewrite sortInsert_Permutation. constructor; [now apply cmp_gt|assumption].
Qed.

Lemma sort_sorted l : StronglySorted R (sort cmp l).
Proof.
  induction l as [|x l IH]; simpl; [constructor|].
  now apply sortInsert_sorted.
Qed.
End SortFacts.

(** The result depends on the comparator only through the pairs of
    entries of the list. *)
Lemma sortInsert_ext_in {A} (cmp cmp' : A -> A -> Z) x l :
  (forall y, In y l -> cmp x y = cmp' x y) ->
  sortInsert cmp x l = sortInsert cmp' x l.
Proof.
  induction l as [|y l IH]; simpl; intros Hc; [reflexivity|].
  rewrite (Hc y) by now left.
  destruct (cmp' x y <=? 0)%Z; [reflexivity|].
  f_equal. apply IH. intros z Hz. apply Hc. now right.
Qed.

Lemma sort_ext_in {A} (cmp cmp' : A -> A -> Z) l :
  (forall x y, In x l -> In y l -> cmp x y = cmp' x y) ->
  sort cmp l = sort cmp' l.
Proof.
  induction l as [|x l IH]; simpl; intros Hc; [reflexivity|].
  fold (sort cmp l) (sort cmp' l).
  rewrite IH by (intros y z Hy Hz; apply Hc; now right).
  apply sortInsert_ext_in. intros y Hy. apply Hc; [now left|].
  right. exact (Permutation_in _ (sort_Permutation cmp' l) Hy).
Qed.

(** Sortedness and stability for a comparator that decides a total
    preorder on the entries that have a property [P]. Stability: the
    entries that a test [p] selects keep their order, when the comparator
    never puts one of them after another. *)
Section SortOn.
Context {A : Type} (cmp : A -> A -> Z) (P : A -> Prop) (R : A -> A -> Prop).
Hypothesis R_trans : forall x y z, R x y -> R y z -> R x z.
Hypothesis cmp_le : forall x y, P x -> P y -> (cmp x y <=? 0)%Z = true -> R x y.
Hypothesis cmp_gt : forall x y, P x -> P y -> (cmp x y <=? 0)%Z = false -> R y x.

Lemma sort_on l : Forall P l -> Forall P (sort cmp l).
Proof. intros Hl. now rewrite sort_Permutation. Qed.

Lemma sortInsert_sorted_on x l :
  P x -> Forall P l -> StronglySorted R l -> StronglySorted R (sortInsert cmp x l).
Proof.
  intros Hx HP Hl. induction Hl as [|y l Hl IH Hy]; simpl.
  - repeat constructor.
  - apply Forall_cons in HP as [HPy HP].
    destruct (cmp x y <=? 0)%Z eqn:Hxy.
    + constructor; [now constructor|].
      constructor; [now apply cmp_le|].
      eapply Forall_impl; [exact Hy|]. intros z Hz.
      eapply R_trans; [apply cmp_le; eassumption|exact Hz].
    + constructor; [now apply IH|].
      rewrite sortInsert_Permutation. constructor; [now apply cmp_gt|assumption].
Qed.

Lemma sort_sorted_on l : Forall P l -> StronglySorted R (sort cmp l).
Proof.
  induction l as [|x l IH]; simpl; intros Hl; [constructor|].
  apply Forall_cons in Hl as [Hx Hl].
  apply sortInsert_sorted_on; [assumption|now apply sort_on|now apply IH].
Qed.

Lemma sortInsert_filter_on (p : A -> bool) x l :
  (forall y, In y l -> p x = true -> p y = true -> (cmp x y <=? 0)%Z = true) ->
  List.filter p (sortInsert cmp x l) = List.filter p (x :: l).
Proof.
  intros Hp. induction l as [|y l IH]; simpl; [reflexivity|].
  destruct (cmp x y <=? 0)%Z eqn:Hxy; [reflexivity|].
  simpl in *. rewrite IH by (intros z Hz; apply Hp; now right).
  destruct (p x) eqn:Hx, (p y) eqn:Hy; try reflexivity.
  rewrite Hp in Hxy by (reflexivity || assumption || now left). discriminate.
Qed.

Lemma sort_filter_stable_on (p : A -> bool) l :
  (forall x y, In x l -> In y l -> p x = true -> p y = true ->
               (cmp x y <=? 0)%Z = true) ->
  List.filter p (sort cmp l) = List.filter p l.
Proof.
  induction l as [|x l IH]; simpl; intros Hp; [reflexivity|].
  rewrite sortInsert_filter_on.
  - simpl. rewrite IH; [reflexivity|].
    intros y z Hy Hz. apply Hp; now right.
  - intros y Hy. apply Hp; [now left|].
    right. exact (Permutation_in _ (sort_Permutation cmp l) Hy).
Qed.
End SortOn.

(** * Scores *)


(** * Doubles *)

(** ** Rounding *)

Section Rounding.
Variables prec emax : Z.
Hypothesis prec_pos : (0 < prec)%Z.
Local Open Scope Z_scope.

Lemma digits2_pos_bound m : 2 ^ (Zpos (digits2_pos m) - 1) <= Zpos m.
Proof.
  induction m as [m IH|m IH|]; cbn [digits2_pos]; rewrite ?Pos2Z.inj_succ.
  - replace (Z.succ (Zpos (digits2_pos m)) - 1)
      with (Z.succ (Zpos (digits2_pos m) - 1)) by lia.
    rewrite Z.pow_succ_r by lia. lia.
  - replace (Z.succ (Zpos (digits2_pos m)) - 1)
      with (Z.succ (Zpos (digits2_pos m) - 1)) by lia.
    rewrite Z.pow_succ_r by lia. lia.
  - simpl. lia.
Qed.

(** A shift by one bit halves the mantissa. *)
Lemma shr_m_shr_1 r : 0 <= shr_m r -> shr_m (shr_1 r) = shr_m r / 2.
Proof.
  destruct r as [m rr ss]. cbn [shr_m]. intros Hm.
  rewrite <- Z.div2_div.
  destruct m as [|[p|p|]|p]; try reflexivity. lia.
Qed.

Lemma shr_m_iter p r :
  0 <= shr_m r -> shr_m (SpecFloat.iter_pos shr_1 p r) = shr_m r / 2 ^ Zpos p.
Proof.
  revert r. induction p as [p IH|p IH|]; intros r Hr; cbn [SpecFloat.iter_pos].
  - assert (H1 : 0 <= shr_m (shr_1 r))
      by (rewrite shr_m_shr_1 by assumption; apply Z.div_pos; lia).
    assert (H2 : 0 <= shr_m (SpecFloat.iter_pos shr_1 p (shr_1 r)))
      by (rewrite IH by assumption; apply Z.div_pos; lia).
    rewrite IH, IH, shr_m_shr_1 by assumption.
    rewrite !Z.div_div by lia. f_equal.
    rewrite Pos2Z.inj_xI, Z.add_1_r, Z.pow_succ_r, Z.pow_twice_r by lia. ring.
  - assert (H2 : 0 <= shr_m (SpecFloat.iter_pos shr_1 p r))
      by (rewrite IH by assumption; apply Z.div_pos; lia).
    rewrite IH, IH by assumption.
    rewrite !Z.div_div by lia. f_equal.
    change (Zpos p~0) with (2 * Zpos p). rewrite Z.pow_twice_r. ring.
  - now apply shr_m_shr_1.
Qed.

Lemma shr_m_of_loc m l : shr_m (shr_record_of_loc m l) = m.
Proof. destruct l as [|[]]; reflexivity. Qed.

Lemma fexp_emin x : emin prec emax <= fexp prec emax x.
Proof. unfold fexp. lia. Qed.

(** The exponent after a shift is never below [emin]. *)
Lemma shr_fexp_exponent m e l :
  emin prec emax <= snd (shr_fexp prec emax m e l).
Proof.
  unfold shr_fexp, shr.
  pose proof (fexp_emin (Zdigits2 m + e)) as Hf.
  destruct (fexp prec emax (Zdigits2 m + e) - e) eqn:Hn; simpl; lia.
Qed.

(** A positive mantissa at an exponent that is not below [emin] is not
    shifted out. *)
Lemma shr_fexp_pos m e l :
  emin prec emax <= e ->
  0 < shr_m (fst (shr_fexp prec emax (Zpos m) e l)).
Proof.
  intros He. unfold shr_fexp, shr, fexp. cbn [Zdigits2].
  destruct (Z.max (Zpos (digits2_pos m) + e - prec) (emin prec emax) - e)
    as [|p|p] eqn:Hn; cbn [fst]; rewrite ?shr_m_of_loc; try lia.
  rewrite shr_m_iter by (rewrite shr_m_of_loc; lia).
  rewrite shr_m_of_loc.
  apply Z.div_str_pos. split; [lia|].
  eapply Z.le_trans; [|apply digits2_pos_bound].
  apply Z.pow_le_mono_r; lia.
Qed.

Lemma round_nearest_even_pos m l : 0 < m -> 0 < round_nearest_even m l.
Proof.
  intros Hm. destruct l as [|[]]; simpl; try lia.
  destruct (Z.even m); lia.
Qed.

(** Rounding never gives zero or [NaN] for a mantissa that is not zero, at
    an exponent that is not below [emin]. *)
Lemma binary_round_aux_signed s m e l :
  emin prec emax <= e -> signed prec emax s (binary_round_aux prec emax s (Zpos m) e l).
Proof.
  intros He. unfold binary_round_aux.
  pose proof (shr_fexp_pos m e l He) as H1.
  pose proof (shr_fexp_exponent (Zpos m) e l) as E1.
  destruct (shr_fexp prec emax (Zpos m) e l) as [mrs' e'].
  cbn [fst snd] in H1, E1.
  apply (round_nearest_even_pos _ (loc_of_shr_record mrs')) in H1.
  destruct (round_nearest_even (shr_m mrs') (loc_of_shr_record mrs'))
    as [|r|r]; try lia.
  pose proof (shr_fexp_pos r e' loc_Exact E1) as H2.
  pose proof (shr_fexp_exponent (Zpos r) e' loc_Exact) as E2.
  destruct (shr_fexp prec emax (Zpos r) e' loc_Exact) as [mrs'' e''].
  cbn [fst snd] in H2, E2.
  destruct (shr_m mrs'') as [|m''|m'']; try lia.
  destruct (e'' <=? emax - prec); simpl; auto.
Qed.

Lemma binary_round_signed s m e :
  emin prec emax <= e -> signed prec emax s (binary_round prec emax s m e).
Proof.
  intros He. unfold binary_round, shl_align.
  pose proof (fexp_emin (Zpos (digits2_pos m) + e)) as Hf.
  destruct (fexp prec emax (Zpos (digits2_pos m) + e) - e);
    apply binary_round_aux_signed; lia.
Qed.

Lemma binary_round_aux_aboveEmin s m e l :
  aboveEmin prec emax (binary_round_aux prec emax s m e l).
Proof.
  unfold binary_round_aux.
  destruct (shr_fexp prec emax m e l) as [mrs' e'].
  pose proof (shr_fexp_exponent
                (round_nearest_even (shr_m mrs') (loc_of_shr_record mrs'))
                e' loc_Exact) as E2.
  destruct (shr_fexp prec emax _ e' loc_Exact) as [mrs'' e''].
  cbn [snd] in E2.
  destruct (shr_m mrs''); simpl; auto.
  destruct (e'' <=? emax - prec); simpl; auto.
Qed.

Lemma binary_normalize_aboveEmin m e szero :
  aboveEmin prec emax (binary_normalize prec emax m e szero).
Proof.
  destruct m; simpl; auto; unfold binary_round;
    destruct (shl_align _ _ _); apply binary_round_aux_aboveEmin.
Qed.

Lemma SFmul_aboveEmin x y : aboveEmin prec emax (SFmul prec emax x y).
Proof.
  destruct x, y; simpl; auto. apply binary_round_aux_aboveEmin.
Qed.

Lemma SFadd_aboveEmin x y :
  aboveEmin prec emax x -> aboveEmin prec emax y -> aboveEmin prec emax (SFadd prec emax x y).
Proof.
  intros Hx Hy.
  destruct x as [sx|sx| |sx mx ex], y as [sy|sy| |sy my ey];
    try (destruct sx, sy; simpl; now auto); try (simpl; now auto).
  apply binary_normalize_aboveEmin.
Qed.
End Rounding.

(** ** The value of a double *)

Section Align.
Local Open Scope Z_scope.

Lemma iter_xO m d : Zpos (Pos.iter xO m d) = Zpos m * 2 ^ Zpos d.
Proof.
  induction d as [|d IH] using Pos.peano_ind.
  - simpl. lia.
  - rewrite Pos.iter_succ, Pos2Z.inj_xO, IH, Pos2Z.inj_succ, Z.pow_succ_r by lia.
    ring.
Qed.

(** Writing a mantissa at a smaller exponent is exact. *)
Lemma shl_align_value m e ez :
  ez <= e -> Zpos (fst (shl_align m e ez)) = Zpos m * 2 ^ (e - ez).
Proof.
  intros He. unfold shl_align.
  destruct (ez - e) as [|d|d] eqn:Hd; cbn [fst]; try lia.
  - replace (e - ez) with 0 by lia. lia.
  - rewrite iter_xO. f_equal. f_equal. lia.
Qed.
End Align.

Lemma two_power_pos e : (0 < 2 ^ e)%Q.
Proof. now apply Qpower_0_lt. Qed.

Lemma aligned_value s m e ez :
  (ez <= e)%Z ->
  (valueQ s m e
   == inject_Z (cond_Zopp s (Zpos (fst (shl_align m e ez)))) * 2 ^ ez)%Q.
Proof.
  intros He. unfold valueQ. rewrite shl_align_value by assumption.
  assert (E : cond_Zopp s (Zpos m * 2 ^ (e - ez))%Z
              = (cond_Zopp s (Zpos m) * 2 ^ (e - ez))%Z)
    by (destruct s; simpl; lia).
  rewrite E, inject_Z_mult, Zpower_Qpower by lia.
  change (inject_Z 2) with 2%Q.
  rewrite <- Qmult_assoc, <- Qpower_plus by discriminate.
  now replace (e - ez + ez)%Z with e by lia.
Qed.

Lemma valueQ_pos m e : (0 < valueQ false m e)%Q.
Proof.
  unfold valueQ. apply Qmult_lt_0_compat; [reflexivity|apply two_power_pos].
Qed.

Lemma valueQ_neg m e : (valueQ true m e < 0)%Q.
Proof.
  pose proof (valueQ_pos m e) as Hp.
  assert (E : (valueQ true m e == - valueQ false m e)%Q).
  { unfold valueQ, cond_Zopp. rewrite inject_Z_opp.
    generalize (2 ^ e)%Q, (inject_Z (Zpos m)). intros p q. ring. }
  rewrite E. lra.
Qed.

Lemma Qle_bool_false x y : Qle_bool x y = false <-> (y < x)%Q.
Proof.
  rewrite <- Bool.not_true_iff_false, Qle_bool_iff.
  split; [apply Qnot_le_lt|apply Qlt_not_le].
Qed.

(** ** Comparisons *)

Lemma Value_leb_trans u v w :
  Double.Value_leb u v = true -> Double.Value_leb v w = true ->
  Double.Value_leb u w = true.
Proof.
  destruct u, v, w; simpl; try congruence.
  rewrite !Qle_bool_iff. apply Qle_trans.
Qed.

Lemma Value_leb_total v w :
  Double.Value_leb v w = false -> Double.Value_leb w v = true.
Proof.
  destruct v, w; simpl; try congruence.
  rewrite Qle_bool_false, Qle_bool_iff. apply Qlt_le_weak.
Qed.

Lemma gtb_valued x y :
  Double.gtb x y = true -> Double.valueOf x <> None /\ Double.valueOf y <> None.
Proof.
  unfold Double.gtb.
  destruct (Double.valueOf x), (Double.valueOf y); intros; split; congruence.
Qed.

Lemma leb_trans x y z :
  Double.leb x y = true -> Double.leb y z = true -> Double.leb x z = true.
Proof.
  unfold Double.leb.
  destruct (Double.valueOf x), (Double.valueOf y), (Double.valueOf z);
    try congruence.
  apply Value_leb_trans.
Qed.

Lemma leb_total x y :
  Double.valueOf x <> None -> Double.valueOf y <> None ->
  Double.leb x y = false -> Double.leb y x = true.
Proof.
  unfold Double.leb.
  destruct (Double.valueOf x), (Double.valueOf y); try congruence.
  intros _ _. apply Value_leb_total.
Qed.

(** [x <= y] excludes [x > y]. *)
Lemma leb_not_gtb x y : Double.leb x y = true -> Double.gtb x y = false.
Proof.
  unfold Double.leb, Double.gtb.
  destruct (Double.valueOf x), (Double.valueOf y); try congruence.
  now intros ->.
Qed.

(** What is not above a threshold is not above what is above it. *)
Lemma gtb_below x r t :
  Double.gtb r t = true -> Double.gtb x t = false -> Double.gtb x r = false.
Proof.
  unfold Double.gtb.
  destruct (Double.valueOf x) as [vx|], (Double.valueOf r) as [vr|],
    (Double.valueOf t) as [vt|]; try congruence.
  rewrite Bool.negb_true_iff, !Bool.negb_false_iff. intros Hr Hx.
  apply Value_leb_total in Hr. eapply Value_leb_trans; eassumption.
Qed.

(** Equal doubles compare alike. *)
Lemma eqb_leb x y : Double.eqb x y = true -> Double.leb x y = true /\ Double.leb y x = true.
Proof. unfold Double.eqb. now rewrite Bool.andb_true_iff. Qed.

Lemma eqb_gtb x v t : Double.eqb x v = true -> Double.gtb x t = Double.gtb v t.
Proof.
  intros Heq. apply eqb_leb in Heq as [Hxv Hvx]. revert Hxv Hvx.
  unfold Double.leb, Double.gtb.
  destruct (Double.valueOf x) as [vx|], (Double.valueOf v) as [vv|],
    (Double.valueOf t) as [vt|]; try congruence.
  intros Hxv Hvx. f_equal.
  destruct (Double.Value_leb vv vt) eqn:Hv.
  - eapply Value_leb_trans; eassumption.
  - destruct (Double.Value_leb vx vt) eqn:Hx; [|reflexivity].
    assert (Hvt : Double.Value_leb vv vt = true)
      by (eapply Value_leb_trans; eassumption).
    congruence.
Qed.

(** ** The sign of a difference *)

Lemma sub_sign_finite sx mx ex sy my ey :
  (emin Double.prec Double.emax <= ex)%Z ->
  (emin Double.prec Double.emax <= ey)%Z ->
  (Double.signOf (Double.sub (S754_finite sy my ey) (S754_finite sx mx ex)) <=? 0)%Z
  = Qle_bool (valueQ sy my ey) (valueQ sx mx ex).
Proof.
  intros Hx Hy. unfold Double.sub, SFsub.
  pose proof (aligned_value sy my ey (Z.min ey ex) ltac:(lia)) as Vy.
  pose proof (aligned_value sx mx ex (Z.min ey ex) ltac:(lia)) as Vx.
  pose proof (two_power_pos (Z.min ey ex)) as H2.
  set (Y := cond_Zopp sy (Zpos (fst (shl_align my ey (Z.min ey ex))))) in *.
  set (X := cond_Zopp sx (Zpos (fst (shl_align mx ex (Z.min ey ex))))) in *.
  assert (He : (emin Double.prec Double.emax <= Z.min ey ex)%Z) by lia.
  destruct (Y - X)%Z as [|d|d] eqn:Hd; cbn [binary_normalize].
  - simpl. symmetry. apply Qle_bool_iff. rewrite Vy, Vx.
    replace Y with X by lia. apply Qle_refl.
  - pose proof (binary_round_signed Double.prec Double.emax eq_refl false d _ He)
      as Hs.
    destruct (binary_round Double.prec Double.emax false d (Z.min ey ex));
      simpl in Hs; try contradiction.
    + subst s. simpl. symmetry. apply Qle_bool_false. rewrite Vy, Vx.
      apply Qmult_lt_compat_r; [assumption|]. rewrite <- Zlt_Qlt. lia.
    + destruct Hs as [-> _]. simpl. symmetry. apply Qle_bool_false.
      rewrite Vy, Vx.
      apply Qmult_lt_compat_r; [assumption|]. rewrite <- Zlt_Qlt. lia.
  - pose proof (binary_round_signed Double.prec Double.emax eq_refl true d _ He)
      as Hs.
    destruct (binary_round Double.prec Double.emax true d (Z.min ey ex));
      simpl in Hs; try contradiction.
    + subst s. simpl. symmetry. apply Qle_bool_iff. rewrite Vy, Vx.
      apply Qmult_le_compat_r; [|now apply Qlt_le_weak]. rewrite <- Zle_Qle. lia.
    + destruct Hs as [-> _]. simpl. symmetry. apply Qle_bool_iff.
      rewrite Vy, Vx.
      apply Qmult_le_compat_r; [|now apply Qlt_le_weak]. rewrite <- Zle_Qle. lia.
Qed.

(** The sign of [y - x], as [sort] reads it, says whether [y <= x], for
    two doubles that are not [NaN]. *)
Lemma sub_sign x y :
  aboveEmin Double.prec Double.emax x -> aboveEmin Double.prec Double.emax y ->
  Double.valueOf x <> None -> Double.valueOf y <> None ->
  (Double.signOf (Double.sub y x) <=? 0)%Z = Double.leb y x.
Proof.
  intros Ax Ay Nx Ny.
  destruct x as [sx|sx| |sx mx ex], y as [sy|sy| |sy my ey];
    try (simpl in Nx, Ny; congruence);
    try (destruct sx, sy; reflexivity).
  - unfold Double.leb, Double.valueOf, Double.Value_leb. fold (valueQ sy my ey).
    pose proof (valueQ_pos my ey) as Hp. pose proof (valueQ_neg my ey) as Hn.
    destruct sx, sy; simpl; symmetry;
      (apply Qle_bool_iff; lra) || (apply Qle_bool_false; lra).
  - unfold Double.leb, Double.valueOf, Double.Value_leb. fold (valueQ sx mx ex).
    pose proof (valueQ_pos mx ex) as Hp. pose proof (valueQ_neg mx ex) as Hn.
    destruct sx, sy; simpl; symmetry;
      (apply Qle_bool_iff; lra) || (apply Qle_bool_false; lra).
  - now apply sub_sign_finite.
Qed.

(** * Search *)

Section Search.
Context `{Builtins}.

Lemma map_item_scoreItem query l :
  List.map Double.item (List.map (Double.scoreItem query) l) = l.
Proof.
  induction l as [|e l IH]; simpl; [reflexivity|]. now rewrite IH.
Qed.

Lemma filter_of_map {A B} (f : A -> B) (p : B -> bool) l :
  List.filter p (List.map f l) = List.map f (List.filter (fun x => p (f x)) l).
Proof.
  induction l as [|x l IH]; simpl; [reflexivity|].
  destruct (p (f x)); simpl; now rewrite IH.
Qed.

Lemma filter_filter_implied {A} (p t : A -> bool) l :
  (forall x, p x = true -> t x = true) ->
  List.filter p (List.filter t l) = List.filter p l.
Proof.
  intros Hpt. induction l as [|x l IH]; simpl; [reflexivity|].
  destruct (t x) eqn:Ht; simpl; rewrite IH; [reflexivity|].
  destruct (p x) eqn:Hp; [|reflexivity].
  apply Hpt in Hp. congruence.
Qed.

Lemma filter_filter_excluded {A} (p t : A -> bool) l :
  (forall x, p x = true -> t x = false) ->
  List.filter p (List.filter t l) = [].
Proof.
  intros Hpt. induction l as [|x l IH]; simpl; [reflexivity|].
  destruct (t x) eqn:Ht; simpl; [|assumption].
  destruct (p x) eqn:Hp; [|assumption].
  apply Hpt in Hp. congruence.
Qed.

Lemma map_sorted {A B} (f : A -> B) (R : A -> A -> Prop) (R' : B -> B -> Prop) l :
  (forall x y, In x l -> In y l -> R x y -> R' (f x) (f y)) ->
  StronglySorted R l -> StronglySorted R' (List.map f l).
Proof.
  intros Hf Hl. induction Hl as [|x l Hl IH Hx]; simpl; [constructor|].
  constructor.
  - apply IH. intros y z Hy Hz. apply Hf; now right.
  - apply List.Forall_map, List.Forall_forall. intros y Hy.
    rewrite List.Forall_forall in Hx.
    apply Hf; [now left|now right|now apply Hx].
Qed.

(** The total of an entry is the sum of two products: its exponent is not
    below [emin]. *)
Lemma score_aboveEmin query e :
  aboveEmin Double.prec Double.emax (Double.score (Double.scoreItem query e)).
Proof.
  unfold Double.scoreItem, Double.add. cbn [Double.score].
  apply SFadd_aboveEmin; apply SFmul_aboveEmin.
Qed.

Lemma filtered_ranked query allItems :
  Forall (ranked query)
    (List.filter (fun x => Double.gtb (Double.score x) (Double.decimal 2 10))
       (List.map (Double.scoreItem query) allItems)).
Proof.
  apply List.Forall_forall. intros x Hx.
  apply filter_In in Hx as [Hx Hgt]. split; [|assumption].
  apply in_map_iff in Hx as (e & <- & _). reflexivity.
Qed.

(** On such entries the comparator of the sort decides the order of the
    totals. *)
Lemma compare_scores query x y :
  ranked query x -> ranked query y ->
  (Double.signOf (Double.sub (Double.score y) (Double.score x)) <=? 0)%Z
  = Double.leb (Double.score y) (Double.score x).
Proof.
  intros [Ex Hx] [Ey Hy].
  apply sub_sign.
  - rewrite Ex. apply score_aboveEmin.
  - rewrite Ey. apply score_aboveEmin.
  - now apply gtb_valued in Hx.
  - now apply gtb_valued in Hy.
Qed.

Lemma sorted_by_score query l :
  Forall (ranked query) l ->
  StronglySorted
    (fun x y => Double.leb (Double.score y) (Double.score x) = true)
    (sort (fun a b => Double.signOf (Double.sub (Double.score b) (Double.score a))) l).
Proof.
  apply (sort_sorted_on _ (ranked query)).
  - intros x y z Hxy Hyz. eapply leb_trans; eassumption.
  - intros x y Hx Hy Hle. now rewrite <- (compare_scores query x y).
  - intros x y Hx Hy Hgt. rewrite (compare_scores query x y) in Hgt by assumption.
    destruct Hx as [_ Hx], Hy as [_ Hy].
    apply gtb_valued in Hx as [Hx _], Hy as [Hy _].
    now apply leb_total.
Qed.

(** The result of a search for a query that is not blank: the first 20 of
    the entries above the threshold, taken in non-increasing order of
    total. *)
Lemma searchProducts_shape query allItems :
  trim query <> [] ->
  let total := fun e => Double.score (Double.scoreItem query e) in
  exists best,
    Double.searchProducts query allItems = take 20 best /\
    best ≡ₚ List.filter (fun e => Double.gtb (total e) (Double.decimal 2 10))
              allItems /\
    StronglySorted (fun e1 e2 => Double.leb (total e2) (total e1) = true) best.
Proof.
  intros Hq total. unfold Double.searchProducts.
  rewrite bool_decide_eq_false_2 by assumption.
  set (X := List.map (Double.scoreItem query) allItems).
  set (F := List.filter
              (fun x => Double.gtb (Double.score x) (Double.decimal 2 10)) X).
  set (cmp := fun a b =>
                Double.signOf (Double.sub (Double.score b) (Double.score a))).
  pose proof (filtered_ranked query allItems) as HF. fold X F in HF.
  exists (List.map Double.item (sort cmp F)). split; [reflexivity|]. split.
  - rewrite (sort_Permutation cmp F). unfold F, X.
    rewrite <- (map_item_scoreItem query allItems) at 2.
    rewrite (filter_of_map Double.item
               (fun e => Double.gtb (total e) (Double.decimal 2 10))).
    erewrite filter_ext_in; [reflexivity|].
    intros x Hx. apply in_map_iff in Hx as (e & <- & _). reflexivity.
  - eapply map_sorted; [|apply (sorted_by_score query F HF)].
    intros x y Hx Hy Hle.
    pose proof (sort_on cmp (ranked query) F HF) as HS.
    rewrite List.Forall_forall in HS.
    destruct (HS x Hx) as [Ex _], (HS y Hy) as [Ey _].
    unfold total. now rewrite <- Ex, <- Ey.
Qed.
End Search.

(** C6. The search returns only entries whose combined score is above
    0.2, in non-increasing order of combined score, entries of equal score
    in their order of the catalog (the returned entries of one score are
    the first of the catalog's entries of that score), and at most 20 of
    them. The scores are the doubles that the code computes, compared as
    the code compares them. *)
Theorem searchProducts_threshold_order_cap `{Builtins}
    (query : jsstring) (allItems : list GroceryItem) :
  let result := Double.searchProducts query allItems in
  let total := fun e => Double.score (Double.scoreItem query e) in
  Forall (fun e => Double.gtb (total e) (Double.decimal 2 10) = true) result /\
  StronglySorted (fun e1 e2 => Double.leb (total e2) (total e1) = true) result /\
  (forall v, exists rest,
     List.filter (fun e => Double.eqb (total e) v) allItems
     = List.filter (fun e => Double.eqb (total e) v) result ++ rest) /\
  length result <= 20.
Proof.
  intros result total. subst result.
  destruct (decide (trim query = [])) as [Hblank|Hq].
  { unfold Double.searchProducts. rewrite bool_decide_eq_true_2 by assumption.
    repeat split; [constructor|constructor| |simpl; lia].
    intros v. eexists. reflexivity. }
  unfold Double.searchProducts. rewrite bool_decide_eq_false_2 by assumption.
  set (X := List.map (Double.scoreItem query) allItems).
  set (F := List.filter
              (fun x => Double.gtb (Double.score x) (Double.decimal 2 10)) X).
  set (cmp := fun a b =>
                Double.signOf (Double.sub (Double.score b) (Double.score a))).
  set (S := sort cmp F).
  pose proof (filtered_ranked query allItems) as HF. fold X F in HF.
  assert (HS : forall x, In x S -> ranked query x).
  { apply List.Forall_forall. now apply sort_on. }
  assert (Hsorted : StronglySorted
            (fun x y => Double.leb (Double.score y) (Double.score x) = true) S)
    by exact (sorted_by_score query F HF).
  assert (Htotal : forall x, In x S -> total (Double.item x) = Double.score x).
  { intros x Hx. apply HS in Hx as [Hx _]. unfold total. now rewrite <- Hx. }
  set (L := List.map Double.item S).
  assert (HL : StronglySorted
                 (fun e1 e2 => Double.leb (total e2) (total e1) = true) L).
  { eapply map_sorted; [|exact Hsorted]. simpl. intros x y Hx Hy Hle.
    now rewrite !Htotal. }
  rewrite <- (take_drop 20 L) in HL.
  split; [|split; [now apply StronglySorted_app_1_l in HL|split]].
  - apply List.Forall_forall. intros e He.
    assert (HeL : In e L).
    { rewrite <- (take_drop 20 L). apply in_or_app. now left. }
    apply in_map_iff in HeL as (x & <- & Hx).
    rewrite Htotal by assumption. now apply HS.
  - intros v.
    set (p' := fun e => Double.eqb (total e) v).
    set (p := fun x => Double.eqb (Double.score x) v).
    assert (HpL : List.filter p' L = List.map Double.item (List.filter p F)).
    { unfold L. rewrite filter_of_map. f_equal.
      rewrite <- (sort_filter_stable_on cmp p F).
      - apply filter_ext_in. intros x Hx. unfold p', p. now rewrite Htotal.
      - intros x y Hx Hy Hpx Hpy.
        rewrite List.Forall_forall in HF.
        unfold cmp. rewrite (compare_scores query x y) by auto.
        apply eqb_leb in Hpx as [_ Hvx], Hpy as [Hyv _].
        eapply leb_trans; eassumption. }
    assert (Hsplit : List.filter p' L
                     = List.filter p' (take 20 L) ++ List.filter p' (drop 20 L))
      by now rewrite <- List.filter_app, take_drop.
    destruct (Double.gtb v (Double.decimal 2 10)) eqn:Hv.
    + exists (List.filter p' (drop 20 L)).
      rewrite <- Hsplit, HpL. unfold F.
      rewrite filter_filter_implied.
      * rewrite (filter_ext_in p (fun x => p' (Double.item x)) X).
        -- unfold X. rewrite <- (filter_of_map Double.item p').
           now rewrite map_item_scoreItem.
        -- intros x Hx. apply in_map_iff in Hx as (e & <- & _). reflexivity.
      * intros x Hx. now rewrite (eqb_gtb _ v).
    + exists (List.filter p' allItems).
      unfold F in HpL. rewrite filter_filter_excluded in HpL.
      * rewrite HpL in Hsplit. symmetry in Hsplit.
        apply app_eq_nil in Hsplit as [-> _]. reflexivity.
      * intros x Hx. now rewrite (eqb_gtb _ v).
  - rewrite length_take. lia.
Qed.

(** * Maps *)

Lemma str_eqb_refl a : str_eqb a a = true.
Proof. now apply bool_decide_eq_true_2. Qed.

Lemma str_eqb_eq a b : str_eqb a b = true <-> a = b.
Proof. apply bool_decide_eq_true. Qed.

Lemma mapGet_In {V} (m : list (jsstring * V)) k v :
  mapGet m k = Some v -> In (k, v) m.
Proof.
  induction m as [|[k' v'] m IH]; simpl; [discriminate|].
  destruct (str_eqb k' k) eqn:Hk.
  - apply str_eqb_eq in Hk as ->. intros [= ->]. now left.
  - intros Hv. right. now apply IH.
Qed.

Lemma mapGet_None {V} (m : list (jsstring * V)) k :
  mapGet m k = None <-> ~ In k (mapKeys m).
Proof.
  induction m as [|[k' v'] m IH]; simpl; [tauto|].
  destruct (str_eqb k' k) eqn:Hk.
  - apply str_eqb_eq in Hk. split; [discriminate|]. intros Hn. exfalso. tauto.
  - rewrite IH. apply Bool.not_true_iff_false in Hk.
    rewrite str_eqb_eq in Hk. tauto.
Qed.

Lemma flat_map_eq_in {A B} (f g : A -> list B) l :
  (forall a, In a l -> f a = g a) -> flat_map f l = flat_map g l.
Proof.
  induction l as [|a l IH]; simpl; [reflexivity|]. intros Hfg.
  rewrite Hfg by now left. f_equal. apply IH. intros; apply Hfg; now right.
Qed.

Lemma flat_map_perm_in {A B} (f g : A -> list B) l :
  (forall a, In a l -> f a ≡ₚ g a) -> flat_map f l ≡ₚ flat_map g l.
Proof.
  induction l as [|a l IH]; simpl; [reflexivity|]. intros Hfg.
  apply Permutation_app; [apply Hfg; now left|].
  apply IH. intros; apply Hfg; now right.
Qed.

Lemma flat_map_of_map {A B C} (f : B -> list C) (g : A -> B) l :
  flat_map f (List.map g l) = flat_map (fun a => f (g a)) l.
Proof. induction l as [|a l IH]; simpl; [reflexivity|]. now rewrite IH. Qed.

Lemma map_of_flat_map {A B C} (f : B -> C) (g : A -> list B) l :
  List.map f (flat_map g l) = flat_map (fun a => List.map f (g a)) l.
Proof.
  induction l as [|a l IH]; simpl; [reflexivity|].
  now rewrite List.map_app, IH.
Qed.

(** Reading every key of a map gives every value once. *)
Lemma flat_map_mapGet {V B} (h : V -> list B) (d : V) (m : list (jsstring * V)) :
  List.NoDup (mapKeys m) ->
  flat_map (fun k => h (default d (mapGet m k))) (mapKeys m)
  = flat_map (fun kv => h (snd kv)) m.
Proof.
  induction m as [|[k v] m IH]; simpl; [reflexivity|].
  intros Hnd. apply List.NoDup_cons_iff in Hnd as [Hk Hnd].
  rewrite str_eqb_refl. simpl. f_equal. rewrite <- IH by assumption.
  apply flat_map_eq_in. intros k' Hk'.
  destruct (str_eqb k k') eqn:Heq; [|reflexivity].
  apply str_eqb_eq in Heq as ->. contradiction.
Qed.

(** * The path optimizer *)

Section PathFacts.
Import ShoppingPath.
Context `{Builtins}.

(** A lookup finds a location, or nothing. *)
Lemma findProductLocation_cases productLocations x :
  findProductLocation productLocations x = (None, false) \/
  exists location, findProductLocation productLocations x = (Some location, true).
Proof.
  unfold findProductLocation, mapHas.
  destruct (mapGet productLocations (toLowerCase x)) as [location|].
  - right. now exists location.
  - destruct (List.find _ productLocations) as [[k location]|].
    + right. now exists location.
    + now left.
Qed.

(** The first loop splits the list. *)
Lemma locateItem_fold productLocations shoppingList found notFound :
  fold_left (locateItem productLocations) shoppingList (found, notFound)
  = (found ++ located productLocations shoppingList,
     notFound ++ unlocated productLocations shoppingList).
Proof.
  revert found notFound.
  induction shoppingList as [|x l IH]; intros found notFound.
  - simpl. now rewrite !app_nil_r.
  - unfold located, unlocated. cbn [fold_left flat_map List.filter].
    fold (located productLocations l) (unlocated productLocations l).
    unfold locateItem at 2.
    destruct (findProductLocation_cases productLocations x) as [E|[loc E]];
      rewrite E, IH; simpl; now rewrite <- !app_assoc.
Qed.

Lemma located_unlocated_Permutation productLocations shoppingList :
  shoppingList ≡ₚ
  List.map fst (located productLocations shoppingList)
  ++ unlocated productLocations shoppingList.
Proof.
  induction shoppingList as [|x l IH]; [reflexivity|].
  unfold located, unlocated. cbn [flat_map List.filter].
  fold (located productLocations l) (unlocated productLocations l).
  destruct (findProductLocation_cases productLocations x) as [E|[loc E]];
    rewrite E; simpl.
  - rewrite <- Permutation_middle. now constructor.
  - now constructor.
Qed.

(** Grouping: one more item in the bucket of its corridor. *)
Lemma groupItem_nil it loc : groupItem [] (it, loc) = [(corridor loc, [(it, loc)])].
Proof. unfold groupItem, mapHas. simpl. now rewrite str_eqb_refl. Qed.

Lemma groupItem_cons k v m it loc :
  groupItem ((k, v) :: m) (it, loc)
  = if str_eqb k (corridor loc) then (k, v ++ [(it, loc)]) :: m
    else (k, v) :: groupItem m (it, loc).
Proof.
  unfold groupItem, mapHas. simpl.
  destruct (str_eqb k (corridor loc)) eqn:Hk; simpl.
  - now rewrite Hk.
  - destruct (mapGet m (corridor loc)); simpl; now rewrite Hk.
Qed.

Lemma groupItem_flat m x : flat_map snd (groupItem m x) ≡ₚ flat_map snd m ++ [x].
Proof.
  destruct x as [it loc].
  induction m as [|[k v] m IH].
  - now rewrite groupItem_nil.
  - rewrite groupItem_cons. destruct (str_eqb k (corridor loc)); simpl.
    + rewrite <- !app_assoc. apply Permutation_app_head, Permutation_app_comm.
    + rewrite IH. now rewrite app_assoc.
Qed.

Lemma groupItem_keys_incl m it loc k :
  In k (mapKeys (groupItem m (it, loc))) -> In k (mapKeys m) \/ k = corridor loc.
Proof.
  induction m as [|[k' v] m IH].
  - rewrite groupItem_nil. simpl. intros [<-|Hfalse]; [now right|destruct Hfalse].
  - rewrite groupItem_cons. destruct (str_eqb k' (corridor loc)); simpl.
    + tauto.
    + intros [<-|Hk]; [tauto|]. apply IH in Hk. tauto.
Qed.

Lemma groupItem_NoDup m x :
  List.NoDup (mapKeys m) -> List.NoDup (mapKeys (groupItem m x)).
Proof.
  destruct x as [it loc].
  induction m as [|[k v] m IH]; intros Hnd.
  - rewrite groupItem_nil. simpl. repeat constructor. tauto.
  - rewrite groupItem_cons. destruct (str_eqb k (corridor loc)) eqn:Hk.
    + exact Hnd.
    + simpl in *. apply List.NoDup_cons_iff in Hnd as [Hin Hnd].
      constructor; [|now apply IH].
      intros Hin'. apply groupItem_keys_incl in Hin' as [Hm| ->]; [tauto|].
      now rewrite str_eqb_refl in Hk.
Qed.

Lemma organizeItemsByCorridor_spec items :
  List.NoDup (mapKeys (organizeItemsByCorridor items)) /\
  flat_map snd (organizeItemsByCorridor items) ≡ₚ items.
Proof.
  unfold organizeItemsByCorridor.
  assert (Hgen : forall m,
    List.NoDup (mapKeys m) ->
    List.NoDup (mapKeys (fold_left groupItem items m)) /\
    flat_map snd (fold_left groupItem items m) ≡ₚ flat_map snd m ++ items).
  { induction items as [|x l IH]; intros m Hm; simpl.
    - now rewrite app_nil_r.
    - destruct (IH (groupItem m x)) as [Hnd Hperm]; [now apply groupItem_NoDup|].
      split; [assumption|].
      rewrite Hperm, groupItem_flat. now rewrite <- app_assoc. }
  apply (Hgen []). constructor.
Qed.
End PathFacts.

Section PathStructure.
Import ShoppingPath.
Context `{Builtins}.

(** The shape of the result: one visit for each key of the grouping, in
    sorted order; each visit carries its bucket, reordered, and leaves at
    the end opposite to its entry. *)
Lemma optimizeShoppingPath_structure productLocations shoppingList :
  let corridorItems :=
    organizeItemsByCorridor (located productLocations shoppingList) in
  exists visit : jsstring -> CorridorPath,
    (forall k, cp_name (visit k) = k) /\
    (forall k, exitPoint (visit k) = opposite (entryPoint (visit k))) /\
    (forall k, List.map name (items (visit k))
               ≡ₚ List.map fst (default [] (mapGet corridorItems k))) /\
    corridors (optimizeShoppingPath productLocations shoppingList)
    = List.map visit (sort compareCorridors (mapKeys corridorItems)) /\
    notFoundItems (optimizeShoppingPath productLocations shoppingList)
    = unlocated productLocations shoppingList.
Proof.
  intros corridorItems. unfold optimizeShoppingPath.
  rewrite locateItem_fold. cbn [app]. fold corridorItems.
  match goal with
  | |- context [List.map ?f (sort compareCorridors _)] => exists f
  end.
  repeat split.
  - intros k. simpl. now destruct (default false _).
  - intros k. simpl. rewrite List.map_map.
    rewrite <- (sort_Permutation
                  (compareItems (default false
                     (mapGet (determineCorridorEntryPoints corridorItems) k)))
                  (default [] (mapGet corridorItems k))) at 2.
    erewrite List.map_ext; [reflexivity|]. now intros [a b].
Qed.

Lemma rank_known k r :
  mapGet corridorDistances k = Some r -> rank k = r /\ (0 < r)%Z.
Proof.
  intros Hk. unfold rank. rewrite Hk. split; [reflexivity|].
  assert (Hpos : Forall (fun kr => (0 < snd kr)%Z) corridorDistances)
    by (repeat constructor).
  rewrite List.Forall_forall in Hpos.
  now apply mapGet_In, Hpos in Hk.
Qed.

Lemma rank_unknown k : mapGet corridorDistances k = None -> rank k = 0%Z.
Proof. intros Hk. unfold rank. now rewrite Hk. Qed.

(** For a name that is not inherited, [corridorDistances[a] || 0] is the
    rank. *)
Lemma distanceOrZero_plain a :
  inheritedName a = false -> distanceOrZero a = Some (rank a).
Proof.
  intros Ha. unfold distanceOrZero, lookupDistance.
  destruct (mapGet corridorDistances a) as [d|] eqn:Hd.
  - apply rank_known in Hd as [-> Hpos].
    destruct (Z.eqb_spec d 0); [lia|reflexivity].
  - rewrite Ha, (rank_unknown a Hd). reflexivity.
Qed.

(** The names of the table are not inherited. *)
Lemma known_not_inherited k :
  mapGet corridorDistances k <> None -> inheritedName k = false.
Proof.
  intros Hk. destruct (mapGet corridorDistances k) as [r|] eqn:Hr; [|congruence].
  apply mapGet_In in Hr.
  assert (Hkeys : Forall (fun kr => inheritedName (fst kr) = false)
                    corridorDistances) by (repeat constructor).
  rewrite List.Forall_forall in Hkeys. exact (Hkeys _ Hr).
Qed.

(** Without inherited names the corridor sort is a sort by rank. *)
Lemma compareCorridors_sorted l :
  Forall (fun a => inheritedName a = false) l ->
  StronglySorted (fun a b => (rank a <= rank b)%Z) (sort compareCorridors l).
Proof.
  intros Hl. rewrite List.Forall_forall in Hl.
  rewrite (sort_ext_in compareCorridors (fun a b => (rank a - rank b)%Z)).
  - apply sort_sorted.
    + intros x y z. lia.
    + intros x y Hle. apply Z.leb_le in Hle. lia.
    + intros x y Hgt. apply Z.leb_gt in Hgt. lia.
  - intros x y Hx Hy. unfold compareCorridors.
    now rewrite !distanceOrZero_plain by auto.
Qed.

(** In a list sorted by a key, an entry of smaller key stands before an
    entry of larger key. *)
Lemma sorted_before {A} (f : A -> Z) x y l :
  StronglySorted (fun a b => (f a <= f b)%Z) l ->
  In x l -> In y l -> (f x < f y)%Z -> before x y l.
Proof.
  intros Hl Hx Hy Hlt.
  apply in_split in Hy as (l1 & l3 & ->).
  apply in_app_or in Hx as [Hx|[->|Hx]].
  - apply in_split in Hx as (a & b & ->).
    exists a, b, l3. now rewrite <- app_assoc.
  - lia.
  - apply StronglySorted_app_1_r, StronglySorted_inv in Hl as [_ Hl].
    rewrite List.Forall_forall in Hl. apply Hl in Hx. lia.
Qed.
End PathStructure.

(** When no corridor of the path is named like a member of
    [Object.prototype], the corridors are in non-decreasing order of
    rank. *)
Lemma corridor_names_sorted `{Builtins}
    (productLocations : ShoppingPath.ProductLocations)
    (shoppingList : list jsstring) :
  let names :=
    List.map ShoppingPath.cp_name
      (ShoppingPath.corridors
         (ShoppingPath.optimizeShoppingPath productLocations shoppingList)) in
  Forall (fun a => inheritedName a = false) names ->
  StronglySorted (fun a b => (rank a <= rank b)%Z) names.
Proof.
  intros names Hplain. subst names.
  destruct (optimizeShoppingPath_structure productLocations shoppingList)
    as (visit & Hname & _ & _ & Hc & _).
  rewrite Hc, List.map_map in Hplain |- *.
  rewrite (List.map_ext _ (fun k => k) Hname), List.map_id in Hplain |- *.
  apply compareCorridors_sorted.
  rewrite List.Forall_forall in Hplain |- *. intros a Ha. apply Hplain.
  exact (Permutation_in _ (Permutation_sym (sort_Permutation _ _)) Ha).
Qed.

(** C1. The code means to sort the corridors by distance, a name that the
    table does not have counting as 0 ([|| 0]), and so it does for
    "Gang 7", which comes before "Gang 1". But "toString" is not in the
    table either, and there the lookup finds the inherited method, the
    comparator gives [NaN], and the corridors are not put in order: with
    "eggs" in "Gang 2", "bread" in "toString" and "milk" in "Gang 1" the
    path visits "Gang 2", "toString", "Gang 1", as the shopping list has
    them, so that "Gang 2", of rank 3, comes before "Gang 1", of rank 2,
    and no rank of "toString" would put the three in non-decreasing order;
    with "milk" and "bread" alone it visits "Gang 1" before "toString". *)
Theorem inherited_name_breaks_rank_order :
  let names := fun storeData shoppingList =>
    option_map (fun path =>
                  List.map ShoppingPath.cp_name (ShoppingPath.corridors path))
      (@ShoppingPath.optimizedPathOf latin1Builtins storeData shoppingList) in
  names catalogInheritedName [lit "eggs"; lit "bread"; lit "milk"]
  = Some [lit "Gang 2"; lit "toString"; lit "Gang 1"] /\
  mapGet corridorDistances (lit "Gang 2") = Some 3%Z /\
  mapGet corridorDistances (lit "Gang 1") = Some 2%Z /\
  names catalogInheritedName [lit "milk"; lit "bread"]
  = Some [lit "Gang 1"; lit "toString"] /\
  mapGet corridorDistances (lit "toString") = None /\
  lookupDistance (lit "toString") = Inherited /\
  names catalogUnknownCorridor [lit "milk"; lit "bread"]
  = Some [lit "Gang 7"; lit "Gang 1"] /\
  lookupDistance (lit "Gang 7") = Undefined.
Proof. repeat split. Qed.

(** C4, as the code has it. When the path visits a corridor whose name the
    distance table does not have and a corridor whose name it has, and no
    corridor of the path is named like a member of [Object.prototype], the
    corridor of unknown name comes before the corridor of known name: an
    unknown name ranks 0, below every rank of the table. *)
Theorem unknown_corridor_before_known `{Builtins}
    (productLocations : ShoppingPath.ProductLocations)
    (shoppingList : list jsstring) (unknown known : jsstring) :
  let names :=
    List.map ShoppingPath.cp_name
      (ShoppingPath.corridors
         (ShoppingPath.optimizeShoppingPath productLocations shoppingList)) in
  In unknown names -> In known names ->
  Forall (fun a => inheritedName a = false) names ->
  mapGet corridorDistances unknown = None ->
  mapGet corridorDistances known <> None ->
  before unknown known names.
Proof.
  intros names Hu Hk Hplain Hunknown Hknown.
  apply (sorted_before rank); try assumption.
  - now apply corridor_names_sorted.
  - rewrite (rank_unknown unknown) by assumption.
    destruct (mapGet corridorDistances known) as [r|] eqn:Hr; [|congruence].
    apply rank_known in Hr as [-> Hpos]. exact Hpos.
Qed.

Section Coverage.
Import ShoppingPath.
Context `{Builtins}.

Lemma located_found productLocations shoppingList :
  Forall (fun x => snd (findProductLocation productLocations x) = true)
    (List.map fst (located productLocations shoppingList)).
Proof.
  induction shoppingList as [|x l IH]; [constructor|].
  unfold located. cbn [flat_map]. fold (located productLocations l).
  destruct (findProductLocation_cases productLocations x) as [E|[loc E]];
    rewrite E; simpl; [assumption|].
  constructor; [now rewrite E|assumption].
Qed.

Lemma unlocated_not_found productLocations shoppingList :
  Forall (fun x => snd (findProductLocation productLocations x) = false)
    (unlocated productLocations shoppingList).
Proof.
  eapply Forall_impl; [apply filter_Forall|].
  intros x Hx. simpl in Hx. now apply Bool.negb_true_iff in Hx.
Qed.

(** The visits hold the located entries, each once. *)
Lemma visitedItems_located productLocations shoppingList :
  visitedItems (optimizeShoppingPath productLocations shoppingList)
  ≡ₚ List.map fst (located productLocations shoppingList).
Proof.
  destruct (optimizeShoppingPath_structure productLocations shoppingList)
    as (visit & _ & _ & Hitems & Hc & _).
  destruct (organizeItemsByCorridor_spec (located productLocations shoppingList))
    as [Hnd Hflat].
  unfold visitedItems. rewrite Hc, flat_map_of_map.
  rewrite (flat_map_perm_in _ _ _ (fun k _ => Hitems k)).
  rewrite (sort_Permutation compareCorridors).
  rewrite (flat_map_mapGet (List.map fst)) by assumption.
  rewrite <- map_of_flat_map. now apply Permutation_map.
Qed.
End Coverage.

(** C2. Whatever the catalog, every entry of the shopping list, counted
    with its repetitions, is in the result exactly once: the items of the
    visits together with the items not found are a permutation of the
    list; an entry is in a visit only if a location was found for it, and
    among the items not found only if none was; and no corridor has two
    visits. *)
Theorem shopping_list_coverage `{Builtins}
    (productLocations : ShoppingPath.ProductLocations)
    (shoppingList : list jsstring) :
  let path := ShoppingPath.optimizeShoppingPath productLocations shoppingList in
  shoppingList ≡ₚ visitedItems path ++ ShoppingPath.notFoundItems path /\
  Forall (fun x =>
            snd (ShoppingPath.findProductLocation productLocations x) = true)
    (visitedItems path) /\
  Forall (fun x =>
            snd (ShoppingPath.findProductLocation productLocations x) = false)
    (ShoppingPath.notFoundItems path) /\
  List.NoDup (List.map ShoppingPath.cp_name (ShoppingPath.corridors path)).
Proof.
  intros path. subst path.
  pose proof (visitedItems_located productLocations shoppingList) as Hvisited.
  destruct (optimizeShoppingPath_structure productLocations shoppingList)
    as (visit & Hname & _ & _ & Hc & Hnf).
  destruct (organizeItemsByCorridor_spec
              (located productLocations shoppingList)) as [Hnd _].
  repeat split.
  - rewrite Hvisited, Hnf. apply located_unlocated_Permutation.
  - rewrite Hvisited. apply located_found.
  - rewrite Hnf. apply unlocated_not_found.
  - rewrite Hc, List.map_map.
    rewrite (List.map_ext _ (fun k => k) Hname), List.map_id.
    eapply Permutation_NoDup; [|exact Hnd].
    symmetry. apply sort_Permutation.
Qed.

(** The claim C4 as the specification states it fails: with "milk" in
    "Gang 1" and "bread" in "Gang 7", which the distance table does not
    have, the path visits "Gang 7" first; the corridor of known name does
    not stand before it. *)
Lemma unknown_corridor_sorts_first :
  option_map (fun path =>
                List.map ShoppingPath.cp_name (ShoppingPath.corridors path))
    (@ShoppingPath.optimizedPathOf latin1Builtins catalogUnknownCorridor
       [lit "milk"; lit "bread"])
  = Some [lit "Gang 7"; lit "Gang 1"] /\
  mapGet corridorDistances (lit "Gang 7") = None /\
  mapGet corridorDistances (lit "Gang 1") = Some 2%Z /\
  ~ before (lit "Gang 1") (lit "Gang 7") [lit "Gang 7"; lit "Gang 1"].
Proof.
  repeat split; try reflexivity.
  intros (l1 & l2 & l3 & E).
  destruct l1 as [|a [|b l1]]; simpl in E.
  - vm_compute in E. discriminate.
  - destruct l2; vm_compute in E; discriminate.
  - destruct l1; vm_compute in E; discriminate.
Qed.

Lemma unknown_corridor_before_known_witness :
  let names :=
    List.map ShoppingPath.cp_name
      (ShoppingPath.corridors
         (@ShoppingPath.optimizeShoppingPath latin1Builtins
            (latin1Index catalogUnknownCorridor) [lit "milk"; lit "bread"])) in
  In (lit "Gang 7") names /\ In (lit "Gang 1") names /\
  Forall (fun a => inheritedName a = false) names /\
  mapGet corridorDistances (lit "Gang 7") = None /\
  mapGet corridorDistances (lit "Gang 1") <> None /\
  before (lit "Gang 7") (lit "Gang 1") names.
Proof.
  assert (H7 : In (lit "Gang 7")
                 (List.map ShoppingPath.cp_name
                    (ShoppingPath.corridors
                       (@ShoppingPath.optimizeShoppingPath latin1Builtins
                          (latin1Index catalogUnknownCorridor)
                          [lit "milk"; lit "bread"]))))
    by (vm_compute; auto).
  assert (H1 : In (lit "Gang 1")
                 (List.map ShoppingPath.cp_name
                    (ShoppingPath.corridors
                       (@ShoppingPath.optimizeShoppingPath latin1Builtins
                          (latin1Index catalogUnknownCorridor)
                          [lit "milk"; lit "bread"]))))
    by (vm_compute; auto).
  assert (Hp : Forall (fun a => inheritedName a = false)
                 (List.map ShoppingPath.cp_name
                    (ShoppingPath.corridors
                       (@ShoppingPath.optimizeShoppingPath latin1Builtins
                          (latin1Index catalogUnknownCorridor)
                          [lit "milk"; lit "bread"]))))
    by (vm_compute; repeat constructor).
  assert (Hu : mapGet corridorDistances (lit "Gang 7") = None) by reflexivity.
  assert (Hk : mapGet corridorDistances (lit "Gang 1") <> None)
    by (vm_compute; discriminate).
  repeat split; try assumption.
  exact (@unknown_corridor_before_known latin1Builtins
           (latin1Index catalogUnknownCorridor) [lit "milk"; lit "bread"]
           (lit "Gang 7") (lit "Gang 1") H7 H1 Hp Hu Hk).
Defined.

(** C10, as the code has it. When the index is not empty, an entry whose
    lower case is the empty string always gets a location: the location
    stored under the empty name when the index has that name (the exact
    match comes first), else the location of the first product of the
    index, of whose name the empty string is a substring. Such an entry is
    never among the items not found. *)
Theorem empty_entry_is_located `{Builtins}
    (productLocations : ShoppingPath.ProductLocations) (entry : jsstring) :
  productLocations <> [] ->
  toLowerCase entry = [] ->
  (exists first rest,
     productLocations = first :: rest /\
     ShoppingPath.findProductLocation productLocations entry
     = (Some (default (snd first) (mapGet productLocations [])), true)) /\
  forall shoppingList,
    ~ In entry
        (ShoppingPath.notFoundItems
           (ShoppingPath.optimizeShoppingPath productLocations shoppingList)).
Proof.
  intros Hne Hlower.
  destruct productLocations as [|[k location] rest]; [congruence|].
  assert (Hfind :
    ShoppingPath.findProductLocation ((k, location) :: rest) entry
    = (Some (default location (mapGet ((k, location) :: rest) [])), true)).
  { unfold ShoppingPath.findProductLocation, mapHas. rewrite Hlower.
    destruct (mapGet ((k, location) :: rest) []) as [l|] eqn:Hget.
    - reflexivity.
    - simpl. destruct k; reflexivity. }
  split.
  - exists (k, location), rest. split; [reflexivity|exact Hfind].
  - intros shoppingList Hin.
    destruct (optimizeShoppingPath_structure ((k, location) :: rest) shoppingList)
      as (_ & _ & _ & _ & _ & Hnf).
    rewrite Hnf in Hin. apply filter_In in Hin as [_ Hnot].
    rewrite Hfind in Hnot. discriminate.
Qed.

(** The claim C10 as stated fails when the index has the empty name, but
    not first: the entry gets the location stored under the empty name,
    not that of the first product. *)
Lemma empty_entry_exact_match_first :
  let dairy := {| ShoppingPath.corridor := lit "Gang 1";
                  ShoppingPath.direction := lit "N";
                  ShoppingPath.position := [];
                  ShoppingPath.category := lit "dairy";
                  ShoppingPath.distanceFromStart := Distance 2 |} in
  let misc := {| ShoppingPath.corridor := lit "Gang 1";
                 ShoppingPath.direction := lit "N";
                 ShoppingPath.position := [];
                 ShoppingPath.category := lit "misc";
                 ShoppingPath.distanceFromStart := Distance 2 |} in
  @ShoppingPath.createProductIndex latin1Builtins catalogEmptyName
  = Some [(lit "milk", dairy); ([], misc)] /\
  @toLowerCase latin1Builtins [] = [] /\
  @ShoppingPath.findProductLocation latin1Builtins
    [(lit "milk", dairy); ([], misc)] []
  = (Some misc, true) /\
  misc <> dairy.
Proof. repeat split; try reflexivity. intros E. vm_compute in E. discriminate. Qed.

Lemma empty_entry_is_located_witness :
  latin1Index catalogEmptyName <> [] /\
  @toLowerCase latin1Builtins [] = [] /\
  (exists first rest,
     latin1Index catalogEmptyName = first :: rest /\
     @ShoppingPath.findProductLocation latin1Builtins
       (latin1Index catalogEmptyName) []
     = (Some (default (snd first) (mapGet (latin1Index catalogEmptyName) [])),
        true)) /\
  forall shoppingList,
    ~ In []
        (ShoppingPath.notFoundItems
           (@ShoppingPath.optimizeShoppingPath latin1Builtins
              (latin1Index catalogEmptyName) shoppingList)).
Proof.
  assert (Hne : latin1Index catalogEmptyName <> [])
    by (vm_compute; discriminate).
  assert (Hlower : @toLowerCase latin1Builtins [] = []) by reflexivity.
  split; [exact Hne|]. split; [exact Hlower|].
  exact (@empty_entry_is_located latin1Builtins
           (latin1Index catalogEmptyName) [] Hne Hlower).
Defined.

(** * Entry and exit points *)

(** Both optimizers give every visit the exit opposite to its entry. *)
Lemma ShoppingPath_exit_opposite `{Builtins}
    (productLocations : ShoppingPath.ProductLocations)
    (shoppingList : list jsstring) :
  Forall (fun visit =>
            ShoppingPath.exitPoint visit = opposite (ShoppingPath.entryPoint visit))
    (ShoppingPath.corridors
       (ShoppingPath.optimizeShoppingPath productLocations shoppingList)).
Proof.
  destruct (optimizeShoppingPath_structure productLocations shoppingList)
    as (visit & _ & Hexit & _ & -> & _).
  apply List.Forall_map, List.Forall_forall. intros k _. apply Hexit.
Qed.

Lemma Visual_exit_opposite `{Builtins}
    (productLocations : Visual.ProductLocations) (shoppingList : list jsstring) :
  Forall (fun step => Visual.exitPoint step = opposite (Visual.entryPoint step))
    (Visual.optimizeShoppingPath productLocations shoppingList).
Proof.
  unfold Visual.optimizeShoppingPath.
  apply List.Forall_map, List.Forall_forall. intros k _. simpl.
  now destruct (default false _).
Qed.

(** C3, at an input where the code and the claim part. The one item of
    the list is at the east end of "Gang 1": all the items of the visit are
    at one end. Both optimizers enter from the east and leave on the west:
    the exit is not the entry. *)
Theorem one_end_visit_exits_opposite :
  option_map
    (List.map (fun visit =>
       (ShoppingPath.cp_name visit,
        List.map (fun it => ShoppingPath.il_position (ShoppingPath.location it))
          (ShoppingPath.items visit),
        ShoppingPath.entryPoint visit,
        ShoppingPath.exitPoint visit)))
    (option_map ShoppingPath.corridors
       (@ShoppingPath.optimizedPathOf latin1Builtins catalogOneEnd
          [lit "milk 1l"]))
  = Some [(lit "Gang 1", [lit "E"], East, West)] /\
  @Visual.optimizedPathOf latin1Builtins catalogOneEnd [lit "milk 1l"]
  = Some [ {| Visual.name := lit "Gang 1";
              Visual.entryPoint := East;
              Visual.exitPoint := West |} ].
Proof. split; reflexivity. Qed.

(** * The scenarios of the specification *)

(** One corridor "Gang 1" with the product "Milk 1L": the entry "milk 1l"
    is matched there and nothing is left over. *)
Example scenario_one_match :
  let catalog :=
    [ (lit "Gang 1", Sided [(lit "N", shelf [(lit "milk", [lit "Milk 1L"])])]) ] in
  option_map (fun path =>
                (List.map (fun visit =>
                             (ShoppingPath.cp_name visit,
                              List.map ShoppingPath.name (ShoppingPath.items visit)))
                   (ShoppingPath.corridors path),
                 ShoppingPath.notFoundItems path))
    (@ShoppingPath.optimizedPathOf latin1Builtins catalog [lit "milk 1l"])
  = Some ([(lit "Gang 1", [lit "milk 1l"])], []).
Proof. reflexivity. Qed.

(** An entry that matches no product is the only item not found. *)
Example scenario_no_match :
  @ShoppingPath.optimizedPathOf latin1Builtins catalogOneEnd
    [lit "nonexistent item xyz"]
  = Some {| ShoppingPath.corridors := [];
            ShoppingPath.notFoundItems := [lit "nonexistent item xyz"] |}.
Proof. reflexivity. Qed.

(** "Gang 1" is visited before "Gang 2", whichever entry comes first. *)
Example scenario_two_corridors :
  let catalog :=
    [ (lit "Gang 2", Sided [(lit "S", shelf [(lit "bakery", [lit "Bread"])])]);
      (lit "Gang 1", Sided [(lit "N", shelf [(lit "dairy", [lit "Milk"])])]) ] in
  let names list :=
    option_map (fun path =>
                  List.map ShoppingPath.cp_name (ShoppingPath.corridors path))
      (@ShoppingPath.optimizedPathOf latin1Builtins catalog list) in
  names [lit "bread"; lit "milk"] = Some [lit "Gang 1"; lit "Gang 2"] /\
  names [lit "milk"; lit "bread"] = Some [lit "Gang 1"; lit "Gang 2"].
Proof. split; reflexivity. Qed.

(** The query "cafe" matches the entry "Café" exactly. *)
Example scenario_diacritics :
  (@calculateSimilarityScore latin1Builtins (lit "cafe") [67; 97; 102; 233]%N
   == 1)%Q.
Proof. reflexivity. Qed.

(** A search: "milk" finds the two milks, the exact name first, and not
    the bread. *)
Example search_milk :
  let entry n c :=
    {| id := lit n; name := lit n; category := lit c; gang := lit "Gang 1" |} in
  List.map name
    (@Double.searchProducts latin1Builtins (lit "milk")
       [entry "Bread" "bakery"; entry "Oat milk" "dairy"; entry "Milk" "dairy"])
  = [lit "Milk"; lit "Oat milk"].
Proof. vm_compute. reflexivity. Qed.

(** The decimal literals of the search, as doubles. *)
Example decimal_literals :
  Double.decimal 2 10 = S754_finite false 7205759403792794 (-55) /\
  Double.decimal 3 10 = S754_finite false 5404319552844595 (-54) /\
  Double.decimal 4 10 = S754_finite false 7205759403792794 (-54) /\
  Double.decimal 6 10 = S754_finite false 5404319552844595 (-53) /\
  Double.decimal 7 10 = S754_finite false 6305039478318694 (-53) /\
  Double.decimal 8 10 = S754_finite false 7205759403792794 (-53) /\
  Double.ofZ 1 = S754_finite false 4503599627370496 (-52) /\
  Double.ofZ 0 = S754_zero false.
Proof. vm_compute. repeat split. Qed.

(** Doubles break a tie of the exact scores. For the query "a bc" the
    names "xa" (one of the two words found: 1/2 * 0.6) and "a bd" (edit
    distance 1 of 4: 3/4 * 0.4) both score 3/10 in exact arithmetic, and
    both entries total 21/100. In doubles [3/4 * 0.4] is the double above
    [1/2 * 0.6], and the search returns "a bd" first, against the order of
    the catalog. *)
Example search_tie_in_exact_arithmetic :
  let entry n :=
    {| id := lit n; name := lit n; category := lit "zz"; gang := lit "Gang 1" |} in
  (score (@scoreItem latin1Builtins (lit "a bc") (entry "xa")) == 21 # 100)%Q /\
  (score (@scoreItem latin1Builtins (lit "a bc") (entry "a bd")) == 21 # 100)%Q /\
  Double.score (@Double.scoreItem latin1Builtins (lit "a bc") (entry "xa"))
  = S754_finite false 7566047373982433 (-55) /\
  Double.score (@Double.scoreItem latin1Builtins (lit "a bc") (entry "a bd"))
  = S754_finite false 7566047373982434 (-55) /\
  List.map name
    (@Double.searchProducts latin1Builtins (lit "a bc") [entry "xa"; entry "a bd"])
  = [lit "a bd"; lit "xa"].
Proof. vm_compute. repeat split. Qed.

(** * The string utilities on examples *)

Example distance_kitten_sitting :
  calculateLevenshteinDistance (lit "kitten") (lit "sitting") = 3.
Proof. reflexivity. Qed.

Example split_spaces :
  splitSpaces (lit " a  b ") = [[]; lit "a"; lit "b"; []]
  /\ splitSpaces [] = [[]].
Proof. split; reflexivity. Qed.

Example trim_spaces : trim (lit "  oat milk ") = lit "oat milk".
Proof. reflexivity. Qed.

(** * More on the edit distance *)

Lemma substCost_sym x y : substCost x y = substCost y x.
Proof.
  unfold substCost. destruct (decide (x = y)) as [->|Hne]; [reflexivity|].
  rewrite !bool_decide_eq_false_2; congruence.
Qed.

Lemma substCost_triangle x y z : substCost x z <= substCost x y + substCost y z.
Proof.
  unfold substCost.
  destruct (decide (x = y)) as [->|Hxy]; [lia|].
  rewrite (bool_decide_eq_false_2 (x = y)) by assumption.
  destruct (bool_decide (x = z)); lia.
Qed.

Lemma Edit_sym a b n : Edit a b n -> Edit b a n.
Proof.
  induction 1.
  - constructor.
  - now apply edit_insert.
  - now apply edit_delete.
  - rewrite substCost_sym. now apply edit_subst.
Qed.

Lemma EditDistance_sym a b : EditDistance a b = EditDistance b a.
Proof.
  apply Nat.le_antisymm; apply Edit_lower_bound, Edit_sym, Edit_EditDistance.
Qed.

Lemma EditDistance_refl a : EditDistance a a = 0.
Proof.
  induction a as [|x a IH]; [reflexivity|]. now rewrite EditDistance_match.
Qed.

Lemma EditDistance_zero a b : EditDistance a b = 0 -> a = b.
Proof.
  revert b. induction a as [|x a IH]; intros [|y b] Hz.
  - reflexivity.
  - simpl in Hz. discriminate.
  - rewrite EditDistance_nil_r in Hz. simpl in Hz. discriminate.
  - rewrite EditDistance_cons in Hz. unfold min3, substCost in Hz.
    destruct (decide (x = y)) as [->|Hne].
    + f_equal. apply IH. lia.
    + rewrite bool_decide_eq_false_2 in Hz by assumption. lia.
Qed.

Lemma Edit_lengths a b n :
  Edit a b n -> length a <= length b + n /\ length b <= length a + n.
Proof. induction 1; simpl; lia. Qed.

Lemma EditDistance_upper a b :
  EditDistance a b <= Nat.max (length a) (length b).
Proof.
  revert b. induction a as [|x a IH]; intros [|y b].
  - simpl. lia.
  - simpl. lia.
  - rewrite EditDistance_nil_r. lia.
  - rewrite EditDistance_cons. unfold min3, substCost.
    specialize (IH b). simpl length. destruct (bool_decide (x = y)); lia.
Qed.

Lemma Edit_compose a b n :
  Edit a b n -> forall c m, Edit b c m -> EditDistance a c <= n + m.
Proof.
  induction 1 as [|x a b n _ IH|y a b n _ IH|x y a b n _ IH]; intros c m Hbc.
  - apply Edit_lower_bound in Hbc. lia.
  - pose proof (IH c m Hbc). pose proof (EditDistance_delete_le x a c). lia.
  - remember (y :: b) as b' eqn:Hb. revert y b Hb IH.
    induction Hbc as [|y' b' c m Hbc IHbc|z b' c m Hbc IHbc|y' z b' c m Hbc IHbc];
      intros y b Hb IH.
    + discriminate.
    + injection Hb as -> ->. pose proof (IH c m Hbc). lia.
    + pose proof (IHbc y b Hb IH).
      pose proof (EditDistance_insert_le z a c). lia.
    + injection Hb as -> ->. pose proof (IH c m Hbc).
      pose proof (EditDistance_insert_le z a c). lia.
  - remember (y :: b) as b' eqn:Hb. revert y b Hb IH.
    induction Hbc as [|y' b' c m Hbc IHbc|z b' c m Hbc IHbc|y' z b' c m Hbc IHbc];
      intros y b Hb IH.
    + discriminate.
    + injection Hb as -> ->. pose proof (IH c m Hbc).
      pose proof (EditDistance_delete_le x a c). lia.
    + pose proof (IHbc y b Hb IH).
      pose proof (EditDistance_insert_le z (x :: a) c). lia.
    + injection Hb as -> ->. pose proof (IH c m Hbc).
      pose proof (substCost_triangle x y z).
      rewrite EditDistance_cons. unfold min3. lia.
Qed.

(** X1. The computed distance is 0 exactly when the two strings are the
    same. *)
Theorem calculateLevenshteinDistance_zero_iff (a b : jsstring) :
  calculateLevenshteinDistance a b = 0 <-> a = b.
Proof.
  rewrite calculateLevenshteinDistance_correct. split.
  - apply EditDistance_zero.
  - intros ->. apply EditDistance_refl.
Qed.

(** X2. The computed distance does not depend on the order of its two
    arguments. *)
Theorem calculateLevenshteinDistance_symmetric (a b : jsstring) :
  calculateLevenshteinDistance a b = calculateLevenshteinDistance b a.
Proof.
  rewrite !calculateLevenshteinDistance_correct. apply EditDistance_sym.
Qed.

(** X3. The computed distance is at least the difference of the two
    lengths and at most the larger length. *)
Theorem calculateLevenshteinDistance_bounds (a b : jsstring) :
  length a - length b <= calculateLevenshteinDistance a b /\
  length b - length a <= calculateLevenshteinDistance a b /\
  calculateLevenshteinDistance a b <= Nat.max (length a) (length b).
Proof.
  rewrite calculateLevenshteinDistance_correct.
  pose proof (Edit_lengths _ _ _ (Edit_EditDistance a b)).
  pose proof (EditDistance_upper a b). lia.
Qed.

(** X4. The computed distance satisfies the triangle inequality. *)
Theorem calculateLevenshteinDistance_triangle (a b c : jsstring) :
  calculateLevenshteinDistance a c
  <= calculateLevenshteinDistance a b + calculateLevenshteinDistance b c.
Proof.
  rewrite !calculateLevenshteinDistance_correct.
  apply (Edit_compose a b _ (Edit_EditDistance a b) c _ (Edit_EditDistance b c)).
Qed.

(** * The range of the scores *)







Section ScoreRange.
Context `{Builtins}.

End ScoreRange.



(** * More on the search *)

Lemma dropSpaces_all s :
  Forall (fun c => isSpace c = true) s -> dropSpaces s = [].
Proof. induction 1 as [|c s Hc _ IH]; simpl; [reflexivity|]. now rewrite Hc. Qed.

Lemma filter_partition_Permutation {A} (p : A -> bool) l :
  l ≡ₚ List.filter p l ++ List.filter (fun x => negb (p x)) l.
Proof.
  induction l as [|x l IH]; simpl; [reflexivity|].
  destruct (p x); simpl.
  - now constructor.
  - rewrite <- Permutation_middle. now constructor.
Qed.

(** X7. The search returns entries of the catalog, none more often than
    the catalog has it, and the best of them: no entry that is left out
    scores higher than an entry that is returned (the scores being the
    doubles that the code computes). *)
Theorem searchProducts_returns_the_best `{Builtins}
    (query : jsstring) (allItems : list GroceryItem) :
  let total := fun e => Double.score (Double.scoreItem query e) in
  exists rest,
    allItems ≡ₚ Double.searchProducts query allItems ++ rest /\
    Forall (fun r => Forall (fun e => Double.gtb (total e) (total r) = false) rest)
      (Double.searchProducts query allItems).
Proof.
  intros total.
  destruct (decide (trim query = [])) as [Hblank|Hq].
  { unfold Double.searchProducts. rewrite bool_decide_eq_true_2 by assumption.
    exists allItems. split; [reflexivity|constructor]. }
  destruct (searchProducts_shape query allItems Hq)
    as (best & -> & Hperm & Hsorted).
  exists (drop 20 best
          ++ List.filter
               (fun e => negb (Double.gtb (total e) (Double.decimal 2 10)))
               allItems).
  split.
  - rewrite app_assoc, take_drop, Hperm. apply filter_partition_Permutation.
  - rewrite <- (take_drop 20 best) in Hsorted.
    apply List.Forall_forall. intros r Hr.
    apply Forall_app. split; apply List.Forall_forall; intros e He.
    + apply leb_not_gtb.
      apply (StronglySorted_app_1_elem_of _ _ _ r e Hsorted);
        now apply list_elem_of_In.
    + apply filter_In in He as [_ He]. apply Bool.negb_true_iff in He.
      assert (Hin : In r (List.filter
                            (fun e => Double.gtb (total e) (Double.decimal 2 10))
                            allItems)).
      { eapply Permutation_in; [exact Hperm|].
        rewrite <- (take_drop 20 best). apply in_or_app. now left. }
      apply filter_In in Hin as [_ Hgt].
      exact (gtb_below _ _ _ Hgt He).
Qed.

(** X8. When the search returns fewer than 20 entries for a query that is
    not blank, it has dropped nothing above the threshold: the result is a
    rearrangement of all the entries whose score, the double that the code
    computes, is more than 0.2. *)
Theorem searchProducts_complete_below_cap `{Builtins}
    (query : jsstring) (allItems : list GroceryItem) :
  trim query <> [] ->
  length (Double.searchProducts query allItems) < 20 ->
  Double.searchProducts query allItems
  ≡ₚ List.filter
       (fun e => Double.gtb (Double.score (Double.scoreItem query e))
                   (Double.decimal 2 10))
       allItems.
Proof.
  intros Hq Hlen.
  destruct (searchProducts_shape query allItems Hq)
    as (best & Hres & Hperm & _).
  rewrite Hres in Hlen |- *. rewrite length_take in Hlen.
  rewrite take_ge by lia. exact Hperm.
Qed.

(** X9. A query of white space only (or the empty query) finds nothing,
    whatever the catalog. *)
Theorem searchProducts_blank_query `{Builtins}
    (query : jsstring) (allItems : list GroceryItem) :
  Forall (fun c => isSpace c = true) query ->
  Double.searchProducts query allItems = [].
Proof.
  intros Hblank. unfold Double.searchProducts, trim.
  rewrite (dropSpaces_all query Hblank). reflexivity.
Qed.

(** * The product index *)

Lemma mapGet_mapSet {V} (m : list (jsstring * V)) k v k' :
  mapGet (mapSet m k v) k' = if str_eqb k k' then Some v else mapGet m k'.
Proof.
  induction m as [|[k0 v0] m IH]; simpl.
  - reflexivity.
  - destruct (str_eqb k0 k) eqn:Hk; simpl.
    + apply str_eqb_eq in Hk as ->. now destruct (str_eqb k k').
    + destruct (str_eqb k0 k') eqn:Hk'; [|exact IH].
      apply str_eqb_eq in Hk'. subst k'.
      destruct (str_eqb k k0) eqn:E; [|reflexivity].
      apply str_eqb_eq in E. subst k0. now rewrite str_eqb_refl in Hk.
Qed.

Lemma mapSet_keys_incl {V} (m : list (jsstring * V)) k v k' :
  In k' (mapKeys (mapSet m k v)) <-> In k' (mapKeys m) \/ k' = k.
Proof.
  induction m as [|[k0 v0] m IH]; simpl.
  - intuition congruence.
  - destruct (str_eqb k0 k) eqn:Hk; simpl.
    + apply str_eqb_eq in Hk as ->. intuition congruence.
    + rewrite IH. tauto.
Qed.

Lemma mapSet_NoDup {V} (m : list (jsstring * V)) k v :
  List.NoDup (mapKeys m) -> List.NoDup (mapKeys (mapSet m k v)).
Proof.
  induction m as [|[k0 v0] m IH]; simpl; intros Hnd.
  - repeat constructor. tauto.
  - destruct (str_eqb k0 k) eqn:Hk; [exact Hnd|]. simpl.
    apply List.NoDup_cons_iff in Hnd as [Hin Hnd].
    constructor; [|now apply IH].
    intros Hin'. apply mapSet_keys_incl in Hin' as [Hm| ->]; [tauto|].
    now rewrite str_eqb_refl in Hk.
Qed.

Lemma find_of_app {A} (p : A -> bool) l1 l2 :
  List.find p (l1 ++ l2)
  = match List.find p l1 with Some x => Some x | None => List.find p l2 end.
Proof.
  induction l1 as [|x l1 IH]; simpl; [reflexivity|]. now destruct (p x).
Qed.

Section ProductIndex.
Import ShoppingPath.
Context `{Builtins}.

Lemma indexProducts_app l1 l2 m :
  indexProducts (l1 ++ l2) m = indexProducts l2 (indexProducts l1 m).
Proof. apply fold_left_app. Qed.

Lemma indexCategories_products corridor direction position cats m :
  indexCategories corridor direction position cats m
  = indexProducts (categoryProducts corridor direction position cats) m.
Proof.
  unfold indexCategories, categoryProducts. revert m.
  induction cats as [|[category products] cats IH]; intros m; [reflexivity|].
  cbn [fold_left flat_map]. rewrite indexProducts_app, IH. f_equal.
  clear IH. revert m. induction products as [|p products IHp]; intros m;
    [reflexivity|]. simpl. apply IHp.
Qed.

Lemma indexCorridor_products m entry m' :
  indexCorridor m entry = Some m' ->
  m' = indexProducts (corridorProducts entry) m.
Proof.
  destruct entry as [corridor data]. unfold indexCorridor, corridorProducts.
  destruct (str_eqb corridor (lit "Seiten M")).
  - destruct data as [cats|[|side sides]]; intros [= <-];
      [apply indexCategories_products|reflexivity].
  - destruct data as [cats|dirs]; intros [= <-]; [reflexivity|].
    revert m. induction dirs as [|[direction dd] dirs IH]; intros m;
      [reflexivity|].
    cbn [fold_left flat_map]. rewrite IH, !indexProducts_app. f_equal.
    assert (Hps : forall ps m0,
      fold_left (fun acc '(position, positionData) =>
        indexCategories corridor direction position positionData acc) ps m0
      = indexProducts
          (flat_map (fun '(position, positionData) =>
             categoryProducts corridor direction position positionData) ps) m0).
    { induction ps as [|[position pd] ps IHps]; intros m0; [reflexivity|].
      cbn [fold_left flat_map].
      now rewrite IHps, indexProducts_app, indexCategories_products. }
    destruct (positions dd) as [ps|], (categories dd) as [cats|];
      rewrite ?Hps, ?indexCategories_products; reflexivity.
Qed.

Lemma createProductIndex_fold storeData start :
  fold_left (fun acc entry =>
    match acc with
    | Some productLocations => indexCorridor productLocations entry
    | None => None
    end) storeData None = None
  /\ (forall idx,
        fold_left (fun acc entry =>
          match acc with
          | Some productLocations => indexCorridor productLocations entry
          | None => None
          end) storeData (Some start) = Some idx ->
        idx = indexProducts (catalogProducts storeData) start).
Proof.
  split.
  - induction storeData as [|entry sd IH]; [reflexivity|exact IH].
  - revert start. induction storeData as [|entry sd IH]; intros start idx.
    + simpl. now intros [= <-].
    + cbn [fold_left]. destruct (indexCorridor start entry) as [m'|] eqn:Hm.
      * intros Hidx. apply IH in Hidx. apply indexCorridor_products in Hm.
        subst. unfold catalogProducts. cbn [flat_map].
        now rewrite indexProducts_app.
      * intros Hidx. exfalso. revert Hidx. clear.
        induction sd as [|e sd IHsd]; [discriminate|exact IHsd].
Qed.

Lemma createProductIndex_products storeData idx :
  createProductIndex storeData = Some idx ->
  idx = indexProducts (catalogProducts storeData) [].
Proof. apply createProductIndex_fold. Qed.

(** Reading the index: the last product written under a name. *)
Lemma indexProducts_get products m k :
  mapGet (indexProducts products m) k
  = match lastNamed k products with
    | Some (_, location) => Some location
    | None => mapGet m k
    end.
Proof.
  unfold lastNamed. revert m.
  induction products as [|[p loc] products IH]; intros m; [reflexivity|].
  change (indexProducts ((p, loc) :: products) m)
    with (indexProducts products (mapSet m (toLowerCase p) loc)).
  rewrite IH. simpl rev. rewrite find_of_app.
  destruct (List.find _ (rev products)) as [[p' loc']|]; [reflexivity|].
  simpl. rewrite mapGet_mapSet. now destruct (str_eqb (toLowerCase p) k).
Qed.

Lemma indexProducts_NoDup products m :
  List.NoDup (mapKeys m) -> List.NoDup (mapKeys (indexProducts products m)).
Proof.
  revert m. induction products as [|[p loc] products IH]; intros m Hm;
    [assumption|].
  apply IH. now apply mapSet_NoDup.
Qed.

Lemma indexProducts_keys products m k :
  In k (mapKeys (indexProducts products m))
  <-> In k (mapKeys m) \/ In k (List.map (fun pl => toLowerCase (fst pl)) products).
Proof.
  revert m. induction products as [|[p loc] products IH]; intros m.
  - simpl. tauto.
  - change (indexProducts ((p, loc) :: products) m)
      with (indexProducts products (mapSet m (toLowerCase p) loc)).
    rewrite IH, mapSet_keys_incl. simpl. intuition congruence.
Qed.

Lemma lastNamed_Some k products p loc :
  lastNamed k products = Some (p, loc) ->
  In (p, loc) products /\ toLowerCase p = k.
Proof.
  unfold lastNamed. intros Hfind. apply find_some in Hfind as [Hin Hk].
  apply in_rev in Hin. split; [assumption|]. now apply str_eqb_eq.
Qed.

Lemma lastNamed_In k products p loc :
  In (p, loc) products -> toLowerCase p = k ->
  exists p' loc', lastNamed k products = Some (p', loc').
Proof.
  intros Hin Hk. unfold lastNamed.
  destruct (List.find _ (rev products)) as [[p' loc']|] eqn:Hfind;
    [now exists p', loc'|].
  exfalso. apply in_rev in Hin.
  apply (find_none _ _ Hfind) in Hin. simpl in Hin.
  apply str_eqb_eq in Hk. congruence.
Qed.
End ProductIndex.

Section IndexTheorems.
Import ShoppingPath.
Context `{Builtins}.

Lemma indexCorridor_None m entry :
  indexCorridor m entry = None <-> throwingEntry entry.
Proof.
  destruct entry as [corridor data]. unfold indexCorridor, throwingEntry.
  destruct (str_eqb corridor (lit "Seiten M")) eqn:Hc.
  - apply str_eqb_eq in Hc as ->.
    destruct data as [cats|[|side sides]].
    + split; [discriminate|]. intros (side & sides & [=]).
    + split; [discriminate|]. intros (side & sides & [=]).
    + split; [|reflexivity]. intros _. now exists side, sides.
  - split.
    + destruct data; discriminate.
    + intros (side & sides & [= -> _]). now rewrite str_eqb_refl in Hc.
Qed.

Lemma createProductIndex_fold_None storeData start :
  fold_left (fun acc entry =>
    match acc with
    | Some productLocations => indexCorridor productLocations entry
    | None => None
    end) storeData (Some start) = None
  <-> Exists throwingEntry storeData.
Proof.
  revert start. induction storeData as [|entry sd IH]; intros start.
  - simpl. split; [discriminate|]. intros Hex. inversion Hex.
  - cbn [fold_left]. destruct (indexCorridor start entry) as [m'|] eqn:Hm.
    + rewrite IH. split; [now right|]. intros Hex.
      apply Exists_cons in Hex as [Hthrow|Hex]; [|assumption].
      apply (indexCorridor_None start) in Hthrow. congruence.
    + split; [|intros _; apply createProductIndex_fold; exact []].
      intros _. left. now apply (indexCorridor_None start).
Qed.
End IndexTheorems.

(** X10. Building the index of a catalog fails exactly when the catalog
    has "Seiten M" with a shelf side in it (the constructor takes every
    value under "Seiten M" for an array of products); any other catalog is
    indexed. *)
Theorem createProductIndex_throws_iff `{Builtins} (storeData : StoreData) :
  ShoppingPath.createProductIndex storeData = None
  <-> Exists throwingEntry storeData.
Proof. apply createProductIndex_fold_None. Qed.

(** C9, as the code has it. For a catalog in which "Seiten M" holds no
    shelf side the optimizer is built, and the empty shopping list is
    optimized to a path with no corridor and no item that is not found. *)
Theorem empty_list_on_indexed_catalog `{Builtins} (storeData : StoreData) :
  ~ Exists throwingEntry storeData ->
  ShoppingPath.optimizedPathOf storeData []
  = Some {| ShoppingPath.corridors := []; ShoppingPath.notFoundItems := [] |}.
Proof.
  intros Hshape. unfold ShoppingPath.optimizedPathOf.
  destruct (ShoppingPath.createProductIndex storeData) as [idx|] eqn:Hidx;
    [reflexivity|].
  apply createProductIndex_fold_None in Hidx. contradiction.
Qed.

(** The claim C9 as stated fails: on a catalog whose "Seiten M" has a
    shelf side the constructor throws, and the empty shopping list is not
    optimized at all. *)
Lemma empty_list_on_sided_SeitenM :
  @ShoppingPath.optimizedPathOf latin1Builtins catalogSidedSeitenM [] = None /\
  Exists throwingEntry catalogSidedSeitenM.
Proof.
  split; [reflexivity|]. left. now eexists _, _.
Qed.

Lemma empty_list_on_indexed_catalog_witness :
  ~ Exists throwingEntry catalogUnknownCorridor /\
  @ShoppingPath.optimizedPathOf latin1Builtins catalogUnknownCorridor []
  = Some {| ShoppingPath.corridors := []; ShoppingPath.notFoundItems := [] |}.
Proof.
  assert (Hshape : ~ Exists throwingEntry catalogUnknownCorridor).
  { intros Hex. apply List.Exists_exists in Hex as (entry & Hin & side & sides & ->).
    destruct Hin as [E|[E|[]]]; vm_compute in E; discriminate. }
  split; [exact Hshape|].
  exact (@empty_list_on_indexed_catalog latin1Builtins catalogUnknownCorridor
           Hshape).
Defined.

(** X11. In the index of a catalog no name occurs twice, and the location
    stored under a name is the location of the last product of the catalog
    that has this name in lower case; a name that no product has is not in
    the index. *)
Theorem createProductIndex_lookup `{Builtins}
    (storeData : StoreData) (idx : ShoppingPath.ProductLocations) :
  ShoppingPath.createProductIndex storeData = Some idx ->
  List.NoDup (mapKeys idx) /\
  forall k,
    mapGet idx k = option_map snd (lastNamed k (catalogProducts storeData)).
Proof.
  intros Hidx. apply createProductIndex_products in Hidx as ->. split.
  - apply indexProducts_NoDup. constructor.
  - intros k. rewrite indexProducts_get.
    now destruct (lastNamed k (catalogProducts storeData)) as [[p loc]|].
Qed.

(** X12. Every product of an indexed catalog is found by its own name,
    whatever the case of its letters: the lookup gives the location of a
    product of the catalog with the same name in lower case (its own
    location, if no other product has that name), and the product is never
    among the items not found. *)
Theorem catalog_products_are_found `{Builtins}
    (storeData : StoreData) (idx : ShoppingPath.ProductLocations)
    (product : jsstring) (location : ShoppingPath.Location) :
  ShoppingPath.createProductIndex storeData = Some idx ->
  In (product, location) (catalogProducts storeData) ->
  (exists product' location',
     ShoppingPath.findProductLocation idx product = (Some location', true) /\
     In (product', location') (catalogProducts storeData) /\
     toLowerCase product' = toLowerCase product /\
     ((forall p l, In (p, l) (catalogProducts storeData) ->
                   toLowerCase p = toLowerCase product -> l = location) ->
      location' = location)) /\
  forall shoppingList,
    ~ In product
        (ShoppingPath.notFoundItems
           (ShoppingPath.optimizeShoppingPath idx shoppingList)).
Proof.
  intros Hidx Hin.
  destruct (createProductIndex_lookup storeData idx Hidx) as [_ Hget].
  destruct (lastNamed_In (toLowerCase product) _ _ _ Hin eq_refl)
    as (p' & loc' & Hlast).
  assert (Hfind : ShoppingPath.findProductLocation idx product = (Some loc', true)).
  { unfold ShoppingPath.findProductLocation, mapHas.
    now rewrite Hget, Hlast. }
  apply lastNamed_Some in Hlast as [Hin' Hlow].
  split.
  - exists p', loc'. repeat split; try assumption.
    intros Huniq. now apply (Huniq p' loc').
  - intros shoppingList Hnf.
    destruct (optimizeShoppingPath_structure idx shoppingList)
      as (_ & _ & _ & _ & _ & Hnot).
    rewrite Hnot in Hnf. apply filter_In in Hnf as [_ Hnf].
    rewrite Hfind in Hnf. discriminate.
Qed.

(** * Grouping by corridor *)

Section Grouping.
Import ShoppingPath.
Context `{Builtins}.

Lemma groupItem_get m it loc k :
  mapGet (groupItem m (it, loc)) k
  = if str_eqb (corridor loc) k
    then Some (default [] (mapGet m k) ++ [(it, loc)])
    else mapGet m k.
Proof.
  induction m as [|[k0 v0] m IH].
  - rewrite groupItem_nil. simpl. now destruct (str_eqb (corridor loc) k).
  - rewrite groupItem_cons.
    destruct (str_eqb k0 (corridor loc)) eqn:Hc; cbn [mapGet].
    + apply str_eqb_eq in Hc. subst k0.
      now destruct (str_eqb (corridor loc) k).
    + rewrite IH. destruct (str_eqb k0 k) eqn:Hk; [|reflexivity].
      apply str_eqb_eq in Hk. subst k0.
      destruct (str_eqb (corridor loc) k) eqn:E; [|reflexivity].
      apply str_eqb_eq in E. subst k. now rewrite str_eqb_refl in Hc.
Qed.

Lemma organize_fold_get items m k :
  mapGet (fold_left groupItem items m) k
  = match mapGet m k,
          List.filter (fun e => str_eqb (corridor (snd e)) k) items with
    | None, [] => None
    | bucket, more => Some (default [] bucket ++ more)
    end.
Proof.
  revert m. induction items as [|[it loc] items IH]; intros m.
  - simpl. destruct (mapGet m k); simpl; [now rewrite app_nil_r|reflexivity].
  - cbn [fold_left List.filter snd]. rewrite IH, groupItem_get.
    destruct (str_eqb (corridor loc) k); [|reflexivity].
    destruct (mapGet m k); simpl; [|reflexivity].
    now rewrite <- app_assoc.
Qed.
End Grouping.

(** X13. Grouping keeps, for every corridor, exactly the items of that
    corridor in the order of the list; a corridor without items has no
    bucket, and no corridor has two. *)
Theorem organizeItemsByCorridor_buckets
    (items : list (jsstring * ShoppingPath.Location)) (k : jsstring) :
  List.NoDup (mapKeys (ShoppingPath.organizeItemsByCorridor items)) /\
  mapGet (ShoppingPath.organizeItemsByCorridor items) k
  = match List.filter
            (fun e => str_eqb (ShoppingPath.corridor (snd e)) k) items with
    | [] => None
    | bucket => Some bucket
    end.
Proof.
  split.
  - apply organizeItemsByCorridor_spec.
  - unfold ShoppingPath.organizeItemsByCorridor.
    rewrite organize_fold_get. simpl.
    now destruct (List.filter _ items).
Qed.

(** * The order of strings *)

Lemma str_ltb_irrefl a : str_ltb a a = false.
Proof.
  induction a as [|c a IH]; simpl; [reflexivity|].
  now rewrite N.ltb_irrefl, N.eqb_refl, IH.
Qed.

Lemma str_ltb_trans a b c :
  str_ltb a b = true -> str_ltb b c = true -> str_ltb a c = true.
Proof.
  revert b c. induction a as [|x a IH]; intros [|y b] [|z c]; simpl;
    try discriminate; try reflexivity.
  intros Hab Hbc.
  apply Bool.orb_true_iff in Hab as [Hab|Hab], Hbc as [Hbc|Hbc];
    apply Bool.orb_true_iff.
  - left. apply N.ltb_lt in Hab, Hbc. apply N.ltb_lt. lia.
  - apply Bool.andb_true_iff in Hbc as [Hyz _]. apply N.eqb_eq in Hyz as ->.
    now left.
  - apply Bool.andb_true_iff in Hab as [Hxy _]. apply N.eqb_eq in Hxy as ->.
    now left.
  - apply Bool.andb_true_iff in Hab as [Hxy Hab], Hbc as [Hyz Hbc].
    apply N.eqb_eq in Hxy as ->. right.
    rewrite Hyz. simpl. now apply (IH b c).
Qed.

Lemma str_ltb_asym a b : str_ltb a b = true -> str_ltb b a = false.
Proof.
  intros Hab. destruct (str_ltb b a) eqn:Hba; [|reflexivity].
  pose proof (str_ltb_trans _ _ _ Hab Hba) as Haa.
  now rewrite str_ltb_irrefl in Haa.
Qed.

Lemma str_ltb_total a b :
  str_ltb a b = false -> str_ltb b a = false -> a = b.
Proof.
  revert b. induction a as [|x a IH]; intros [|y b]; simpl;
    try discriminate; try reflexivity.
  intros Hab Hba.
  apply Bool.orb_false_iff in Hab as [Hxy Hab], Hba as [Hyx Hba].
  apply N.ltb_ge in Hxy, Hyx. assert (x = y) by lia. subst y.
  rewrite N.eqb_refl in Hab, Hba. simpl in Hab, Hba.
  f_equal. now apply IH.
Qed.

(** * The visits of the path *)

Lemma filter_length_Permutation {A} (p : A -> bool) l l' :
  l ≡ₚ l' -> length (List.filter p l) = length (List.filter p l').
Proof.
  induction 1 as [|x l l' _ IH|x y l|l l' l'' _ IH1 _ IH2]; simpl.
  - reflexivity.
  - destruct (p x); simpl; now rewrite IH.
  - destruct (p x), (p y); reflexivity.
  - now rewrite IH1.
Qed.

Lemma fold_left_pointwise {A B} (f g : A -> B -> A) l a :
  (forall a b, f a b = g a b) -> fold_left f l a = fold_left g l a.
Proof.
  intros Hfg. revert a. induction l as [|b l IH]; intros a; simpl;
    [reflexivity|]. now rewrite Hfg, IH.
Qed.

Section Visits.
Import ShoppingPath.
Context `{Builtins}.

(** The visits, spelled out. *)
Lemma optimizeShoppingPath_visits productLocations shoppingList :
  let corridorItems :=
    organizeItemsByCorridor (located productLocations shoppingList) in
  let entryPoints := determineCorridorEntryPoints corridorItems in
  corridors (optimizeShoppingPath productLocations shoppingList)
  = List.map (fun k =>
      visitOf (default false (mapGet entryPoints k)) k
        (sort (compareItems (default false (mapGet entryPoints k)))
           (default [] (mapGet corridorItems k))))
      (sort compareCorridors (mapKeys corridorItems)).
Proof.
  intros corridorItems entryPoints. unfold optimizeShoppingPath.
  rewrite locateItem_fold. reflexivity.
Qed.

(** The entry points, as a fold of [entryStep]. *)
Lemma determineCorridorEntryPoints_fold corridorItems :
  determineCorridorEntryPoints corridorItems
  = fst (fold_left (entryStep corridorItems)
           (sort compareCorridors (mapKeys corridorItems)) ([], east)).
Proof.
  unfold determineCorridorEntryPoints. f_equal.
  apply fold_left_pointwise. intros [entryPoints currentPosition] corridor.
  unfold entryStep, entryChoice, positionAfter. simpl.
  destruct (str_eqb corridor (lit "Seiten M")); [reflexivity|].
  destruct (moreThanOneAndAHalf _ _); [|destruct (moreThanOneAndAHalf _ _)];
    now rewrite mapGet_mapSet, str_eqb_refl.
Qed.

Lemma entryStep_fold_other corridorItems l state k :
  ~ In k l ->
  mapGet (fst (fold_left (entryStep corridorItems) l state)) k
  = mapGet (fst state) k.
Proof.
  revert state. induction l as [|c l IH]; intros state Hk; [reflexivity|].
  cbn [fold_left]. rewrite IH by (simpl in Hk; tauto).
  unfold entryStep. cbn [fst]. rewrite mapGet_mapSet.
  destruct (str_eqb c k) eqn:E; [|reflexivity].
  apply str_eqb_eq in E. subst c. simpl in Hk. tauto.
Qed.

(** The corridor after [before] gets the choice made at the position that
    [before] leads to. *)
Lemma entryStep_fold_at corridorItems before k after state :
  ~ In k after ->
  mapGet (fst (fold_left (entryStep corridorItems) (before ++ k :: after) state)) k
  = Some (entryChoice corridorItems k
            (snd (fold_left (entryStep corridorItems) before state))).
Proof.
  intros Hk. rewrite fold_left_app. cbn [fold_left].
  rewrite entryStep_fold_other by assumption.
  unfold entryStep at 1. cbn [fst]. now rewrite mapGet_mapSet, str_eqb_refl.
Qed.
End Visits.

Section VisitTheorems.
Import ShoppingPath.
Context `{Builtins}.

(** Every visit of a path is the visit of a corridor that has a bucket,
    with an entry side chosen at some position. *)
Lemma visit_of_path productLocations shoppingList v :
  In v (corridors (optimizeShoppingPath productLocations shoppingList)) ->
  exists k bucket currentPosition,
    let corridorItems :=
      organizeItemsByCorridor (located productLocations shoppingList) in
    let fromEast := entryChoice corridorItems k currentPosition in
    v = visitOf fromEast k (sort (compareItems fromEast) bucket) /\
    mapGet corridorItems k = Some bucket /\
    bucket = List.filter (fun e => str_eqb (corridor (snd e)) k)
               (located productLocations shoppingList) /\
    bucket <> [].
Proof.
  intros Hv. rewrite optimizeShoppingPath_visits in Hv.
  apply in_map_iff in Hv as (k & <- & Hk).
  set (corridorItems :=
         organizeItemsByCorridor (located productLocations shoppingList)) in *.
  destruct (organizeItemsByCorridor_buckets
              (located productLocations shoppingList) k) as [Hnd Hget].
  fold corridorItems in Hnd, Hget.
  assert (Hkeys : List.NoDup (sort compareCorridors (mapKeys corridorItems))).
  { eapply Permutation_NoDup; [|exact Hnd]. symmetry. apply sort_Permutation. }
  assert (Hin : In k (mapKeys corridorItems)).
  { eapply Permutation_in; [apply sort_Permutation|exact Hk]. }
  destruct (mapGet corridorItems k) as [bucket|] eqn:Hbucket;
    [|now apply mapGet_None in Hbucket].
  apply in_split in Hk as (before & after & Hsplit).
  assert (Hafter : ~ In k after).
  { rewrite Hsplit in Hkeys. apply NoDup_remove_2 in Hkeys.
    intros Hin'. apply Hkeys, in_or_app. now right. }
  exists k, bucket,
    (snd (fold_left (entryStep corridorItems) before ([], east))).
  cbn zeta.
  rewrite determineCorridorEntryPoints_fold, Hsplit.
  rewrite (entryStep_fold_at corridorItems before k after _ Hafter).
  simpl default.
  destruct (List.filter _ (located productLocations shoppingList)) as [|e l]
    eqn:Hfilter; [discriminate|].
  injection Hget as Hb. subst bucket. repeat split; [exact Hbucket|discriminate].
Qed.

(** The comparator of the items decides their order. *)
Lemma compareItems_order (fromEast : bool) :
  let near := if fromEast then lit "N" else lit "S" in
  let R := fun a b : jsstring * Location =>
             itemsInOrder near (pathItemOf a) (pathItemOf b) in
  (forall a b c, R a b -> R b c -> R a c) /\
  (forall a b, (compareItems fromEast a b <=? 0)%Z = true -> R a b) /\
  (forall a b, (compareItems fromEast a b <=? 0)%Z = false -> R b a).
Proof.
  intros near R. subst R. unfold itemsInOrder.
  repeat split.
  - intros [na la] [nb lb] [nc lc]. simpl.
    intros [Hab|[Hab Hsab]] [Hbc|[Hbc Hsbc]].
    + left. eapply str_ltb_trans; eassumption.
    + left. now rewrite <- Hbc.
    + left. now rewrite Hab.
    + right. split; [congruence|tauto].
  - intros [na la] [nb lb]. unfold compareItems. simpl.
    destruct (str_ltb (category la) (category lb)) eqn:Hab; [now left|].
    destruct (str_ltb (category lb) (category la)) eqn:Hba; [discriminate|].
    intros Hcmp. right. split; [now apply str_ltb_total|].
    subst near. destruct fromEast; intros Hb; apply str_eqb_eq in Hb;
      rewrite Hb in Hcmp;
      match type of Hcmp with
      | context [str_eqb ?d ?n] =>
          destruct (str_eqb d n) eqn:Ha; [now apply str_eqb_eq|discriminate]
      end.
  - intros [na la] [nb lb]. unfold compareItems. simpl.
    destruct (str_ltb (category la) (category lb)) eqn:Hab; [discriminate|].
    destruct (str_ltb (category lb) (category la)) eqn:Hba; [now left|].
    intros Hcmp. right. split; [symmetry; now apply str_ltb_total|].
    subst near. destruct fromEast; intros Ha; apply str_eqb_eq in Ha;
      rewrite Ha in Hcmp;
      match type of Hcmp with
      | context [str_eqb ?d ?n] =>
          destruct (str_eqb d n) eqn:Hb; [now apply str_eqb_eq|discriminate]
      end.
Qed.

Lemma itemNearEnd_pathItemOf p x : itemNearEnd p (pathItemOf x) = nearEnd p x.
Proof. now destruct x. Qed.

Lemma visitOf_count p fromEast k cmp bucket :
  length (List.filter (itemNearEnd p) (items (visitOf fromEast k (sort cmp bucket))))
  = length (List.filter (nearEnd p) bucket).
Proof.
  simpl. rewrite filter_of_map, List.length_map.
  rewrite (filter_ext _ _ (itemNearEnd_pathItemOf p)).
  apply filter_length_Permutation, sort_Permutation.
Qed.
End VisitTheorems.

(** X14. A path has no empty visit, and every item of a visit is
    located in the corridor of the visit. *)
Theorem visits_hold_items_of_their_corridor `{Builtins}
    (productLocations : ShoppingPath.ProductLocations)
    (shoppingList : list jsstring) :
  Forall (fun v =>
            ShoppingPath.items v <> [] /\
            Forall (fun it =>
                      ShoppingPath.il_corridor (ShoppingPath.location it)
                      = ShoppingPath.cp_name v)
              (ShoppingPath.items v))
    (ShoppingPath.corridors
       (ShoppingPath.optimizeShoppingPath productLocations shoppingList)).
Proof.
  apply List.Forall_forall. intros v Hv.
  apply visit_of_path in Hv as (k & bucket & cp & -> & _ & Hbucket & Hne).
  cbn [visitOf ShoppingPath.items ShoppingPath.cp_name]. split.
  - intros Hnil. apply map_eq_nil in Hnil.
    assert (Hlen : length bucket = 0).
    { erewrite <- Permutation_length; [|apply sort_Permutation].
      now rewrite Hnil. }
    destruct bucket; [congruence|discriminate].
  - apply List.Forall_map, List.Forall_forall. intros [n l] Hin.
    apply (Permutation_in _ (sort_Permutation _ _)) in Hin.
    rewrite Hbucket in Hin. apply filter_In in Hin as [_ Hk].
    now apply str_eqb_eq in Hk.
Qed.

(** X15. The items of a visit are in order of category (strings in the
    order of their code units); within a category the items of the north
    shelf come first when the corridor is entered from the east, those of
    the south shelf when it is entered from the west. *)
Theorem visit_items_in_order `{Builtins}
    (productLocations : ShoppingPath.ProductLocations)
    (shoppingList : list jsstring) :
  Forall (fun v =>
            StronglySorted (itemsInOrder (nearShelf (ShoppingPath.entryPoint v)))
              (ShoppingPath.items v))
    (ShoppingPath.corridors
       (ShoppingPath.optimizeShoppingPath productLocations shoppingList)).
Proof.
  apply List.Forall_forall. intros v Hv.
  apply visit_of_path in Hv as (k & bucket & cp & -> & _).
  set (fromEast := entryChoice _ k cp).
  cbn [visitOf ShoppingPath.items ShoppingPath.entryPoint].
  destruct (compareItems_order fromEast) as (Htrans & Hle & Hgt).
  replace (nearShelf (if fromEast then East else West))
    with (if fromEast then lit "N" else lit "S") by now destruct fromEast.
  eapply map_sorted; [|apply (sort_sorted _ _ Htrans Hle Hgt)].
  intros x y _ _ Hxy. exact Hxy.
Qed.

(** X16. "Seiten M" is always entered from the east. Another corridor
    is entered from the east when more than one and a half times as many
    of its items count for the east end as for the west end, and from the
    west in the opposite case. *)
Theorem entry_point_rule `{Builtins}
    (productLocations : ShoppingPath.ProductLocations)
    (shoppingList : list jsstring) :
  Forall (fun v =>
            let eastItems :=
              length (List.filter (itemNearEnd (lit "E")) (ShoppingPath.items v)) in
            let westItems :=
              length (List.filter (itemNearEnd (lit "W")) (ShoppingPath.items v)) in
            (ShoppingPath.cp_name v = lit "Seiten M" ->
             ShoppingPath.entryPoint v = East) /\
            (ShoppingPath.cp_name v <> lit "Seiten M" ->
             3 * westItems < 2 * eastItems ->
             ShoppingPath.entryPoint v = East) /\
            (ShoppingPath.cp_name v <> lit "Seiten M" ->
             3 * eastItems < 2 * westItems ->
             ShoppingPath.entryPoint v = West))
    (ShoppingPath.corridors
       (ShoppingPath.optimizeShoppingPath productLocations shoppingList)).
Proof.
  apply List.Forall_forall. intros v Hv.
  apply visit_of_path in Hv as (k & bucket & cp & -> & Hget & _).
  cbn zeta. rewrite !visitOf_count.
  cbn [visitOf ShoppingPath.cp_name ShoppingPath.entryPoint].
  unfold entryChoice. rewrite Hget. simpl default.
  unfold ShoppingPath.moreThanOneAndAHalf.
  destruct (str_eqb k (lit "Seiten M")) eqn:Hk.
  - apply str_eqb_eq in Hk. repeat split; congruence.
  - repeat split; try (intros E; subst k; now rewrite str_eqb_refl in Hk).
    + intros _ Heast. apply Nat.ltb_lt in Heast. now rewrite Heast.
    + intros _ Hwest.
      destruct (Nat.ltb_spec (3 * length (List.filter (ShoppingPath.nearEnd (lit "W")) bucket))
                  (2 * length (List.filter (ShoppingPath.nearEnd (lit "E")) bucket)));
        [lia|].
      apply Nat.ltb_lt in Hwest. now rewrite Hwest.
Qed.

(** X17. The items not found are the entries of the shopping list for
    which no location is found, in the order of the list and with their
    repetitions. *)
Theorem notFoundItems_in_list_order `{Builtins}
    (productLocations : ShoppingPath.ProductLocations)
    (shoppingList : list jsstring) :
  ShoppingPath.notFoundItems
    (ShoppingPath.optimizeShoppingPath productLocations shoppingList)
  = List.filter
      (fun entry =>
         negb (snd (ShoppingPath.findProductLocation productLocations entry)))
      shoppingList.
Proof.
  now destruct (optimizeShoppingPath_structure productLocations shoppingList)
    as (_ & _ & _ & _ & _ & ->).
Qed.

Lemma str_eqb_neq a b : a <> b -> str_eqb a b = false.
Proof. intros Hne. now apply bool_decide_eq_false_2. Qed.

Section Serpentine.
Import ShoppingPath.
Context `{Builtins}.

Lemma map_eq_two {A B} (f : A -> B) l pre v1 v2 post :
  List.map f l = pre ++ v1 :: v2 :: post ->
  exists l1 k1 k2 l2, l = l1 ++ k1 :: k2 :: l2 /\ f k1 = v1 /\ f k2 = v2.
Proof.
  intros Hmap. apply map_eq_app in Hmap as (l1 & l' & -> & _ & Hl').
  apply map_eq_cons in Hl' as (k1 & l'' & -> & Hk1 & Hl'').
  apply map_eq_cons in Hl'' as (k2 & l2 & -> & Hk2 & _).
  now exists l1, k1, k2, l2.
Qed.

Lemma entry_after_corridor productLocations shoppingList pre v1 v2 post :
  corridors (optimizeShoppingPath productLocations shoppingList)
  = pre ++ v1 :: v2 :: post ->
  exists k1 k2 currentPosition,
    let corridorItems :=
      organizeItemsByCorridor (located productLocations shoppingList) in
    let first := entryChoice corridorItems k1 currentPosition in
    let second :=
      entryChoice corridorItems k2 (positionAfter k1 first currentPosition) in
    v1 = visitOf first k1
           (sort (compareItems first) (default [] (mapGet corridorItems k1))) /\
    v2 = visitOf second k2
           (sort (compareItems second) (default [] (mapGet corridorItems k2))).
Proof.
  intros Hc. rewrite optimizeShoppingPath_visits in Hc.
  apply map_eq_two in Hc as (l1 & k1 & k2 & l2 & Hsplit & <- & <-).
  set (corridorItems :=
         organizeItemsByCorridor (located productLocations shoppingList)) in *.
  assert (Hkeys : List.NoDup (sort compareCorridors (mapKeys corridorItems))).
  { eapply Permutation_NoDup; [symmetry; apply sort_Permutation|].
    apply organizeItemsByCorridor_spec. }
  rewrite Hsplit in Hkeys.
  assert (H1 : ~ In k1 (k2 :: l2)).
  { apply NoDup_remove_2 in Hkeys. intros Hin. apply Hkeys, in_or_app. now right. }
  assert (H2 : ~ In k2 l2).
  { apply NoDup_app_remove_l in Hkeys. apply List.NoDup_cons_iff in Hkeys as [_ Hk].
    now apply List.NoDup_cons_iff in Hk as [Hk _]. }
  exists k1, k2, (snd (fold_left (entryStep corridorItems) l1 ([], east))).
  cbn zeta. rewrite determineCorridorEntryPoints_fold, Hsplit.
  rewrite (entryStep_fold_at corridorItems l1 k1 (k2 :: l2) _ H1).
  replace (l1 ++ k1 :: k2 :: l2) with ((l1 ++ [k1]) ++ k2 :: l2)
    by now rewrite <- app_assoc.
  rewrite (entryStep_fold_at corridorItems (l1 ++ [k1]) k2 l2 _ H2).
  rewrite fold_left_app. split; reflexivity.
Qed.
End Serpentine.

(** X18. A corridor with no strong majority of items at either end is
    entered at the end where the corridor before it was left, when neither
    of the two is "Seiten M": the walk continues in a serpentine. *)
Theorem balanced_corridor_continues_the_walk `{Builtins}
    (productLocations : ShoppingPath.ProductLocations)
    (shoppingList : list jsstring)
    (pre post : list ShoppingPath.CorridorPath)
    (v1 v2 : ShoppingPath.CorridorPath) :
  ShoppingPath.corridors
    (ShoppingPath.optimizeShoppingPath productLocations shoppingList)
  = pre ++ v1 :: v2 :: post ->
  ShoppingPath.cp_name v1 <> lit "Seiten M" ->
  ShoppingPath.cp_name v2 <> lit "Seiten M" ->
  2 * length (List.filter (itemNearEnd (lit "E")) (ShoppingPath.items v2))
  <= 3 * length (List.filter (itemNearEnd (lit "W")) (ShoppingPath.items v2)) ->
  2 * length (List.filter (itemNearEnd (lit "W")) (ShoppingPath.items v2))
  <= 3 * length (List.filter (itemNearEnd (lit "E")) (ShoppingPath.items v2)) ->
  ShoppingPath.entryPoint v2 = ShoppingPath.exitPoint v1.
Proof.
  intros Hc H1 H2 Heast Hwest.
  apply entry_after_corridor in Hc as (k1 & k2 & cp & -> & ->).
  rewrite !visitOf_count in Heast, Hwest.
  cbn [visitOf ShoppingPath.cp_name ShoppingPath.entryPoint
         ShoppingPath.exitPoint] in *.
  set (bucket := default [] (mapGet _ k2)) in *.
  set (e := length (List.filter (ShoppingPath.nearEnd (lit "E")) bucket)) in *.
  set (w := length (List.filter (ShoppingPath.nearEnd (lit "W")) bucket)) in *.
  set (first := entryChoice _ k1 cp).
  unfold entryChoice at 1, positionAfter.
  apply str_eqb_neq in H1, H2. rewrite H1, H2.
  unfold ShoppingPath.moreThanOneAndAHalf. fold bucket e w.
  destruct (Nat.ltb_spec (3 * w) (2 * e)); [lia|].
  destruct (Nat.ltb_spec (3 * e) (2 * w)); [lia|].
  now destruct first.
Qed.

(** * The two optimizers *)

Lemma mapHas_hasKey {V} (m : list (jsstring * V)) k :
  mapHas m k = hasKey (mapKeys m) k.
Proof.
  unfold mapHas, hasKey. induction m as [|[k0 v0] m IH]; simpl; [reflexivity|].
  destruct (str_eqb k0 k); [reflexivity|exact IH].
Qed.

Lemma mapKeys_mapSet {V} (m : list (jsstring * V)) k v :
  mapKeys (mapSet m k v) = mapKeys m ++ (if hasKey (mapKeys m) k then [] else [k]).
Proof.
  unfold hasKey. induction m as [|[k0 v0] m IH]; simpl; [reflexivity|].
  destruct (str_eqb k0 k); simpl.
  - now rewrite app_nil_r.
  - now rewrite IH.
Qed.

Lemma hasKey_app keys k : hasKey (keys ++ [k]) k = true.
Proof.
  unfold hasKey. rewrite existsb_app. simpl.
  rewrite str_eqb_refl. now rewrite !Bool.orb_true_r.
Qed.

(** The keys after one step of a grouping loop. *)
Lemma group_step_keys {V} (m : list (jsstring * list V)) c (bucket : list V) :
  mapKeys (mapSet (if negb (mapHas m c) then mapSet m c [] else m) c bucket)
  = mapKeys m ++ (if hasKey (mapKeys m) c then [] else [c]).
Proof.
  rewrite mapKeys_mapSet, mapHas_hasKey.
  destruct (hasKey (mapKeys m) c) eqn:Hc; simpl.
  - now rewrite Hc.
  - rewrite mapKeys_mapSet, Hc, hasKey_app. now rewrite app_nil_r.
Qed.

Lemma hasKey_In keys k : hasKey keys k = true <-> In k keys.
Proof.
  unfold hasKey. rewrite existsb_exists. split.
  - intros (k' & Hin & Hk). apply str_eqb_eq in Hk. now subst.
  - intros Hin. exists k. split; [assumption|apply str_eqb_refl].
Qed.

Lemma firstOccurrences_NoDup corridors : List.NoDup (firstOccurrences corridors).
Proof.
  unfold firstOccurrences.
  assert (Hgen : forall keys, List.NoDup keys ->
    List.NoDup (fold_left (fun keys c =>
                  keys ++ (if hasKey keys c then [] else [c])) corridors keys)).
  { induction corridors as [|c l IH]; intros keys Hk; [assumption|].
    cbn [fold_left]. apply IH.
    destruct (hasKey keys c) eqn:Hc; [now rewrite app_nil_r|].
    apply (Permutation_NoDup (Permutation_cons_append keys c)).
    constructor; [|assumption].
    intros Hin. apply hasKey_In in Hin. congruence. }
  apply Hgen. constructor.
Qed.

Section TwoOptimizers.
Context `{Builtins}.

Lemma organizeItemsByCorridor_keys items :
  mapKeys (ShoppingPath.organizeItemsByCorridor items)
  = firstOccurrences (List.map (fun e => ShoppingPath.corridor (snd e)) items).
Proof.
  unfold ShoppingPath.organizeItemsByCorridor, firstOccurrences.
  assert (Hgen : forall m,
    mapKeys (fold_left ShoppingPath.groupItem items m)
    = fold_left (fun keys c => keys ++ (if hasKey keys c then [] else [c]))
        (List.map (fun e => ShoppingPath.corridor (snd e)) items) (mapKeys m)).
  { induction items as [|[it loc] items IH]; intros m; [reflexivity|].
    cbn [fold_left List.map snd]. rewrite IH. f_equal.
    apply group_step_keys. }
  apply (Hgen []).
Qed.

(** The corridor names of the second optimizer: the keys of its grouping,
    sorted. *)
Lemma Visual_names productLocations shoppingList :
  exists items : list (jsstring * Visual.Location),
    items
    = fold_left (fun itemsWithLocations item =>
        match Visual.findProductLocation productLocations item with
        | Some location => itemsWithLocations ++ [(item, location)]
        | None => itemsWithLocations
        end) shoppingList [] /\
    List.map Visual.name (Visual.optimizeShoppingPath productLocations shoppingList)
    = sort compareCorridors
        (firstOccurrences (List.map (fun e => Visual.corridor (snd e)) items)).
Proof.
  eexists. split; [reflexivity|].
  unfold Visual.optimizeShoppingPath. rewrite List.map_map. simpl.
  rewrite List.map_id. f_equal.
  match goal with
  | |- mapKeys (fold_left ?f ?l []) = _ => generalize l; intros items
  end.
  unfold firstOccurrences.
  match goal with
  | |- mapKeys (fold_left ?f items []) = _ =>
      assert (Hgen : forall m,
        mapKeys (fold_left f items m)
        = fold_left (fun keys c => keys ++ (if hasKey keys c then [] else [c]))
            (List.map (fun e => Visual.corridor (snd e)) items) (mapKeys m))
  end.
  { induction items as [|[it loc] items IH]; intros m; [reflexivity|].
    cbn [fold_left List.map snd]. rewrite IH. f_equal.
    apply group_step_keys. }
  apply (Hgen []).
Qed.
End TwoOptimizers.

(** X19. The second optimizer visits no corridor twice, and when none of
    its corridors is named like a member of [Object.prototype] it returns
    them in non-decreasing order of rank (a name that the table does not
    have ranking 0). *)
Theorem Visual_corridors_sorted_once `{Builtins}
    (productLocations : Visual.ProductLocations) (shoppingList : list jsstring) :
  let names :=
    List.map Visual.name
      (Visual.optimizeShoppingPath productLocations shoppingList) in
  List.NoDup names /\
  (Forall (fun a => inheritedName a = false) names ->
   StronglySorted (fun a b => (rank a <= rank b)%Z) names).
Proof.
  intros names. subst names.
  destruct (Visual_names productLocations shoppingList) as (items & _ & Hnames).
  rewrite Hnames. split.
  - eapply Permutation_NoDup;
      [symmetry; apply sort_Permutation|apply firstOccurrences_NoDup].
  - intros Hplain. apply compareCorridors_sorted.
    rewrite List.Forall_forall in Hplain |- *. intros a Ha. apply Hplain.
    exact (Permutation_in _ (Permutation_sym (sort_Permutation _ _)) Ha).
Qed.

Section Agreement.
Context `{Builtins}.

Lemma mapGet_forget idx k :
  mapGet (List.map forgetEntry idx) k = option_map forgetDistance (mapGet idx k).
Proof.
  induction idx as [|[k0 l0] idx IH]; simpl; [reflexivity|].
  destruct (str_eqb k0 k); [reflexivity|exact IH].
Qed.

Lemma Visual_findProductLocation_forget idx x :
  Visual.findProductLocation (List.map forgetEntry idx) x
  = option_map forgetDistance (fst (ShoppingPath.findProductLocation idx x)).
Proof.
  unfold Visual.findProductLocation, ShoppingPath.findProductLocation, mapHas.
  rewrite mapGet_forget.
  destruct (mapGet idx (toLowerCase x)) as [l|]; [reflexivity|]. simpl.
  induction idx as [|[k0 l0] idx IH]; simpl; [reflexivity|].
  destruct (includes (toLowerCase x) k0 || includes k0 (toLowerCase x));
    [reflexivity|exact IH].
Qed.

Lemma Visual_items_forget idx shoppingList :
  fold_left (fun itemsWithLocations item =>
    match Visual.findProductLocation (List.map forgetEntry idx) item with
    | Some location => itemsWithLocations ++ [(item, location)]
    | None => itemsWithLocations
    end) shoppingList []
  = List.map forgetEntry (located idx shoppingList).
Proof.
  assert (Hgen : forall acc,
    fold_left (fun itemsWithLocations item =>
      match Visual.findProductLocation (List.map forgetEntry idx) item with
      | Some location => itemsWithLocations ++ [(item, location)]
      | None => itemsWithLocations
      end) shoppingList acc
    = acc ++ List.map forgetEntry (located idx shoppingList)).
  { induction shoppingList as [|x l IH]; intros acc.
    - simpl. now rewrite app_nil_r.
    - unfold located. cbn [fold_left flat_map]. fold (located idx l).
      rewrite IH, Visual_findProductLocation_forget.
      destruct (fst (ShoppingPath.findProductLocation idx x)) as [loc|]; simpl.
      + now rewrite <- app_assoc.
      + reflexivity. }
  apply (Hgen []).
Qed.
End Agreement.

(** X20. The two optimizers agree on the corridors: from indexes with
    the same names and locations they return the same corridors in the same
    order. *)
Theorem optimizers_agree_on_corridors `{Builtins}
    (idx : ShoppingPath.ProductLocations)
    (idx' : Visual.ProductLocations) (shoppingList : list jsstring) :
  idx' = List.map forgetEntry idx ->
  List.map Visual.name (Visual.optimizeShoppingPath idx' shoppingList)
  = List.map ShoppingPath.cp_name
      (ShoppingPath.corridors
         (ShoppingPath.optimizeShoppingPath idx shoppingList)).
Proof.
  intros ->.
  destruct (Visual_names (List.map forgetEntry idx) shoppingList)
    as (items & Hitems & ->).
  rewrite Visual_items_forget in Hitems. subst items.
  destruct (optimizeShoppingPath_structure idx shoppingList)
    as (visit & Hname & _ & _ & -> & _).
  rewrite !List.map_map.
  rewrite (List.map_ext (fun k => ShoppingPath.cp_name (visit k)) (fun k => k) Hname).
  rewrite List.map_id, organizeItemsByCorridor_keys. reflexivity.
Qed.

(** * The steps of the navigation *)

Lemma pushCorridorStep_spec steps location :
  exists new,
    pushCorridorStep steps location = steps ++ new /\
    List.map step_id new
    = seq (length steps) (if hasStep location then 1 else 0) /\
    List.map step_location new
    = (if hasStep location then [Visual.name location] else []) /\
    Forall (fun st =>
              step_location st = Visual.name location /\
              (action st = lit "visit" ->
               Visual.name location = lit "Seiten M"
               \/ Visual.entryPoint location = Visual.exitPoint location) /\
              (Visual.name location <> lit "Seiten M" ->
               step_entryPoint st = Some (Visual.entryPoint location) /\
               step_exitPoint st = Some (Visual.exitPoint location))) new.
Proof.
  unfold pushCorridorStep, hasStep.
  destruct (str_eqb (Visual.name location) (lit "Seiten M")) eqn:Hs.
  - eexists. split; [reflexivity|]. apply str_eqb_eq in Hs.
    repeat split; repeat constructor; try tauto.
  - destruct (startsWith (Visual.name location) (lit "Gang ")).
    + eexists. split; [reflexivity|].
      split; [reflexivity|]. split; [reflexivity|].
      constructor; [|constructor]. simpl.
      split; [reflexivity|]. split; [|now split].
      destruct (Visual.entryPoint location), (Visual.exitPoint location);
        simpl; intros E; try discriminate; now right.
    + exists []. rewrite app_nil_r. repeat split; constructor.
Qed.

Lemma pushCorridorStep_fold path steps :
  exists new,
    fold_left pushCorridorStep path steps = steps ++ new /\
    List.map step_id new
    = seq (length steps) (length (List.filter hasStep path)) /\
    List.map step_location new
    = List.map Visual.name (List.filter hasStep path) /\
    Forall (fun st =>
              exists location,
                In location path /\
                step_location st = Visual.name location /\
                (action st = lit "visit" ->
                 Visual.name location = lit "Seiten M"
                 \/ Visual.entryPoint location = Visual.exitPoint location) /\
                (Visual.name location <> lit "Seiten M" ->
                 step_entryPoint st = Some (Visual.entryPoint location) /\
                 step_exitPoint st = Some (Visual.exitPoint location))) new.
Proof.
  revert steps. induction path as [|location path IH]; intros steps.
  - exists []. simpl. rewrite app_nil_r. repeat split; constructor.
  - cbn [fold_left].
    destruct (pushCorridorStep_spec steps location)
      as (new1 & -> & Hid1 & Hloc1 & Hall1).
    destruct (IH (steps ++ new1)) as (new2 & -> & Hid2 & Hloc2 & Hall2).
    assert (Hlen : length new1 = if hasStep location then 1 else 0).
    { rewrite <- (List.length_map step_id), Hid1. apply length_seq. }
    exists (new1 ++ new2). rewrite <- app_assoc. split; [reflexivity|].
    rewrite !List.map_app, Hid1, Hid2, Hloc1, Hloc2, List.length_app, Hlen.
    cbn [List.filter]. destruct (hasStep location); simpl.
    + repeat split.
      * f_equal. f_equal. lia.
      * apply Forall_app. split.
        -- eapply Forall_impl; [exact Hall1|]. intros st Hst.
           exists location. split; [now left|exact Hst].
        -- eapply Forall_impl; [exact Hall2|].
           intros st (l & Hin & Hst). exists l. split; [now right|exact Hst].
    + repeat split.
      * f_equal. lia.
      * apply Forall_app. split.
        -- eapply Forall_impl; [exact Hall1|]. intros st Hst.
           exists location. split; [now left|exact Hst].
        -- eapply Forall_impl; [exact Hall2|].
           intros st (l & Hin & Hst). exists l. split; [now right|exact Hst].
Qed.

(** X21. The steps of a path start at the entrance and end at the
    checkout; between the two there is one step, in the order of the path,
    for each corridor that is "Seiten M" or whose name starts with "Gang "
    (another corridor gets no step); and every step is numbered by its
    place in the list. *)
Theorem getPathSteps_sequence (path : list Visual.CorridorStep) :
  List.map step_location (getPathSteps path)
  = [lit "Eingang"]
    ++ List.map Visual.name (List.filter hasStep path)
    ++ [lit "Kassen"]
  /\ List.map step_id (getPathSteps path) = seq 0 (length (getPathSteps path)).
Proof.
  unfold getPathSteps.
  match goal with
  | |- context [fold_left pushCorridorStep path ?s] =>
      destruct (pushCorridorStep_fold path s) as (new & -> & Hid & Hloc & _)
  end.
  assert (Hlen : length new = length (List.filter hasStep path)).
  { rewrite <- (List.length_map step_id), Hid. apply length_seq. }
  split.
  - rewrite !List.map_app, Hloc. reflexivity.
  - rewrite !List.map_app, Hid, !List.length_app, Hlen. simpl.
    f_equal. now rewrite seq_app.
Qed.

(** X22. In the steps of the path that the optimizer returns, only the
    step of "Seiten M" has the action "visit": a "Gang " is always
    traversed, with its exit point opposite to its entry point (the branch
    for a visit without traversal is never taken). *)
Theorem getPathSteps_gang_is_traversed `{Builtins}
    (productLocations : Visual.ProductLocations) (shoppingList : list jsstring) :
  Forall (fun st =>
            (action st = lit "visit" -> step_location st = lit "Seiten M") /\
            (step_location st <> lit "Seiten M" ->
             forall p, step_entryPoint st = Some p ->
                       step_exitPoint st = Some (opposite p)))
    (getPathSteps (Visual.optimizeShoppingPath productLocations shoppingList)).
Proof.
  pose proof (Visual_exit_opposite productLocations shoppingList) as Hexit.
  rewrite List.Forall_forall in Hexit.
  unfold getPathSteps.
  match goal with
  | |- context [fold_left pushCorridorStep ?path ?s] =>
      destruct (pushCorridorStep_fold path s) as (new & -> & _ & _ & Hnew)
  end.
  assert (Hends : forall st,
    step_entryPoint st = None ->
    action st = lit "enter" \/ action st = lit "checkout" ->
    (action st = lit "visit" -> step_location st = lit "Seiten M") /\
    (step_location st <> lit "Seiten M" ->
     forall p, step_entryPoint st = Some p ->
               step_exitPoint st = Some (opposite p))).
  { intros st Hnone Hact. split.
    - intros Hvisit. rewrite Hvisit in Hact.
      destruct Hact as [E|E]; vm_compute in E; discriminate.
    - intros _ p Hp. congruence. }
  apply Forall_app. split; [apply Forall_app; split|].
  - constructor; [|constructor]. apply Hends; [reflexivity|now left].
  - eapply Forall_impl; [exact Hnew|].
    intros st (location & Hin & Hloc & Hvisit & Hpoints).
    apply Hexit in Hin. split.
    + intros Hact. apply Hvisit in Hact as [Hname|Hsame]; [congruence|].
      rewrite Hin in Hsame. now destruct (Visual.entryPoint location).
    + intros Hne p Hp. rewrite Hloc in Hne.
      destruct (Hpoints Hne) as [Hentry Hexit']. congruence.
  - constructor; [|constructor]. apply Hends; [reflexivity|now right].
Qed.

(** * The shopping list *)

Lemma filter_sorted {A} (R : A -> A -> Prop) (p : A -> bool) l :
  StronglySorted R l -> StronglySorted R (List.filter p l).
Proof.
  induction 1 as [|x l Hl IH Hx]; simpl; [constructor|].
  destruct (p x); [|assumption].
  constructor; [assumption|]. now apply filter_preserves_Forall.
Qed.

Lemma take_sorted {A} (R : A -> A -> Prop) n l :
  StronglySorted R l -> StronglySorted R (take n l).
Proof.
  intros Hl. rewrite <- (take_drop n l) in Hl.
  now apply StronglySorted_app_1_l in Hl.
Qed.

Lemma take_In {A} n (l : list A) x : In x (take n l) -> In x l.
Proof.
  intros Hx. rewrite <- (take_drop n l). apply in_or_app. now left.
Qed.

(** X23. The suggestions under the input are at most five; each is an
    entry of the catalog that scores more than 0.2 for the input (the score
    being the double that the code computes) and whose name, in lower case,
    is not the text of an item already in the list; and they are in
    non-increasing order of score. *)
Theorem suggestions_are_new_store_items `{Builtins}
    (articles : StoreData) (st : AppState) :
  let total := fun e => Double.score (Double.scoreItem (newItem st) e) in
  length (suggestionsFor articles st) <= 5 /\
  Forall (fun g =>
            In g (getAllGroceryItems articles) /\
            Double.gtb (total g) (Double.decimal 2 10) = true /\
            Forall (fun existing =>
                      toLowerCase (text existing) <> toLowerCase (name g))
              (items st))
    (suggestionsFor articles st) /\
  StronglySorted (fun g1 g2 => Double.leb (total g2) (total g1) = true)
    (suggestionsFor articles st).
Proof.
  intros total. unfold suggestionsFor.
  destruct (Nat.ltb_spec 0 (length (trim (newItem st)))) as [Hpos|_];
    [|repeat split; simpl; try constructor; lia].
  assert (Hq : trim (newItem st) <> []).
  { intros E. rewrite E in Hpos. simpl in Hpos. lia. }
  destruct (searchProducts_shape (newItem st) (getAllGroceryItems articles) Hq)
    as (best & -> & Hperm & Hsorted).
  repeat split.
  - rewrite length_take. lia.
  - apply List.Forall_forall. intros g Hg.
    apply take_In, filter_In in Hg as [Hg Hnew]. apply take_In in Hg.
    apply (Permutation_in _ Hperm), filter_In in Hg as [Hin Hgt].
    repeat split; [assumption|assumption|].
    apply List.Forall_forall. intros existing Hex Heq.
    apply Bool.negb_true_iff in Hnew.
    assert (Hsome : existsb (fun existingItem =>
              str_eqb (toLowerCase (text existingItem)) (toLowerCase (name g)))
              (items st) = true).
    { apply existsb_exists. exists existing. split; [assumption|].
      now apply str_eqb_eq. }
    congruence.
  - apply take_sorted, filter_sorted, take_sorted, Hsorted.
Qed.

Section Inventory.
Context `{Builtins}.

Lemma addItem_cases articles now date st :
  (addItem articles now date st = (st, false) /\ trim (newItem st) = []) \/
  (addItem articles now date st = (st, true) /\ trim (newItem st) <> [] /\
   Forall (fun g => toLowerCase (name g) <> toLowerCase (trim (newItem st)))
     (getAllGroceryItems articles)) \/
  (exists g,
     In g (getAllGroceryItems articles) /\
     toLowerCase (name g) = toLowerCase (trim (newItem st)) /\
     trim (newItem st) <> [] /\
     addItem articles now date st
     = ({| items := {| item_id := numberToString now;
                       text := name g;
                       completed := Some false;
                       createdAt := date |} :: items st;
           favorites := favorites st;
           newItem := [];
           editingId := editingId st;
           editingText := editingText st;
           showSuggestions := false |}, false)).
Proof.
  unfold addItem.
  destruct (decide (trim (newItem st) = [])) as [Hblank|Hq].
  { left. now rewrite bool_decide_eq_true_2. }
  right. rewrite bool_decide_eq_false_2 by assumption. simpl.
  destruct (List.find _ (getAllGroceryItems articles)) as [g|] eqn:Hfind.
  - right. apply find_some in Hfind as [Hin Hname].
    apply str_eqb_eq in Hname. exists g. repeat split; assumption.
  - left. repeat split; [assumption|].
    apply List.Forall_forall. intros g Hg Hname.
    apply (find_none _ _ Hfind) in Hg. simpl in Hg.
    apply str_eqb_eq in Hname. congruence.
Qed.
End Inventory.

(** X24. [addItem] adds nothing that the store does not have: the list
    is unchanged, or it gains, in front, one item that is not completed
    and whose text is the name of a grocery item equal to the input up to
    the case of the letters and the white space around it. The alert is
    shown exactly when the input is not blank and no grocery item has that
    name. *)
Theorem addItem_adds_only_store_items `{Builtins}
    (articles : StoreData) (now date : nat) (st : AppState) :
  let result := addItem articles now date st in
  (items (fst result) = items st \/
   exists g,
     In g (getAllGroceryItems articles) /\
     toLowerCase (name g) = toLowerCase (trim (newItem st)) /\
     items (fst result)
     = {| item_id := numberToString now;
          text := name g;
          completed := Some false;
          createdAt := date |} :: items st) /\
  (snd result = true <->
   trim (newItem st) <> [] /\
   Forall (fun g => toLowerCase (name g) <> toLowerCase (trim (newItem st)))
     (getAllGroceryItems articles)).
Proof.
  intros result. subst result.
  destruct (addItem_cases articles now date st)
    as [[-> Hblank]|[(-> & Hq & Hnone)|(g & Hin & Hname & Hq & ->)]]; simpl.
  - split; [now left|]. split; [discriminate|]. intros [Hq _]. contradiction.
  - split; [now left|]. split; [now split|reflexivity].
  - split; [right; now exists g|]. split; [discriminate|].
    intros [_ Hnone]. rewrite List.Forall_forall in Hnone.
    now apply Hnone in Hin.
Qed.

(** X25. The operations of the list keep it within the store: when
    every text of the list is the name of a grocery item, so it is after
    [addItem], [toggleItem], [deleteItem] and [clearCompleted]. *)
Theorem list_operations_keep_store_items `{Builtins}
    (articles : StoreData) (now date : nat) (st : AppState) (itemId : jsstring) :
  let stocked := fun l : list ShoppingItem =>
    Forall (fun it => In (text it) (List.map name (getAllGroceryItems articles))) l in
  stocked (items st) ->
  stocked (items (fst (addItem articles now date st))) /\
  stocked (toggleItem itemId (items st)) /\
  stocked (deleteItem itemId (items st)) /\
  stocked (clearCompleted (items st)).
Proof.
  intros stocked Hst. subst stocked. cbn beta in *. repeat split.
  - destruct (addItem_cases articles now date st)
      as [[-> _]|[(-> & _)|(g & Hin & _ & _ & ->)]]; simpl; try assumption.
    constructor; [|assumption]. simpl. now apply in_map.
  - unfold toggleItem. apply List.Forall_map.
    eapply Forall_impl; [exact Hst|]. intros it Hit.
    now destruct (str_eqb (item_id it) itemId).
  - now apply filter_preserves_Forall.
  - now apply filter_preserves_Forall.
Qed.

(** * The favorites *)

Lemma favorite_known_In favs k :
  existsb (fun fav => str_eqb (fav_id fav) k) favs = true
  <-> In k (List.map fav_id favs).
Proof.
  rewrite existsb_exists, in_map_iff. split.
  - intros (fav & Hin & Hk). apply str_eqb_eq in Hk. now exists fav.
  - intros (fav & Hk & Hin). exists fav. split; [assumption|].
    now apply str_eqb_eq.
Qed.

(** X26. The favorites never hold two items of one id: when the ids are
    distinct they are still distinct after [addToFavorites] and after
    [removeFromFavorites]; adding an item a second time changes nothing,
    and after a removal no favorite has the removed id. *)
Theorem favorites_ids_stay_distinct
    (item : GroceryItem) (itemId : jsstring) (st : AppState) :
  List.NoDup (List.map fav_id (favorites st)) ->
  List.NoDup (List.map fav_id (favorites (addToFavorites item st))) /\
  List.NoDup (List.map fav_id (favorites (removeFromFavorites itemId st))) /\
  addToFavorites item (addToFavorites item st) = addToFavorites item st /\
  ~ In itemId (List.map fav_id (favorites (removeFromFavorites itemId st))).
Proof.
  intros Hnd. repeat split.
  - unfold addToFavorites.
    destruct (existsb _ (favorites st)) eqn:Hknown; simpl; [assumption|].
    rewrite List.map_app. simpl.
    apply (Permutation_NoDup (Permutation_cons_append _ _)).
    constructor; [|assumption].
    intros Hin. apply favorite_known_In in Hin. congruence.
  - simpl. induction (favorites st) as [|fav favs IH]; simpl; [constructor|].
    simpl in Hnd. apply List.NoDup_cons_iff in Hnd as [Hfav Hnd].
    destruct (str_eqb (fav_id fav) itemId); simpl; [now apply IH|].
    constructor; [|now apply IH].
    intros Hin. apply Hfav. apply in_map_iff in Hin as (f & Hf & Hin).
    apply filter_In in Hin as [Hin _]. apply in_map_iff. now exists f.
  - destruct (existsb (fun fav => str_eqb (fav_id fav) (id item)) (favorites st))
      eqn:Hknown; unfold addToFavorites; rewrite Hknown; simpl.
    + now rewrite Hknown.
    + rewrite existsb_app. simpl.
      now rewrite str_eqb_refl, Bool.orb_true_r.
  - simpl. intros Hin. apply in_map_iff in Hin as (f & Hf & Hin).
    apply filter_In in Hin as [_ Hne]. subst itemId.
    now rewrite str_eqb_refl in Hne.
Qed.

(** X27. Removing a favorite that was just added gives the favorites
    back as they were, when no favorite had its id before. *)
Theorem removeFromFavorites_undoes_addToFavorites
    (item : GroceryItem) (st : AppState) :
  ~ In (id item) (List.map fav_id (favorites st)) ->
  favorites (removeFromFavorites (id item) (addToFavorites item st))
  = favorites st.
Proof.
  intros Hnew. unfold addToFavorites.
  destruct (existsb _ (favorites st)) eqn:Hknown.
  { apply favorite_known_In in Hknown. contradiction. }
  simpl. rewrite List.filter_app. simpl. rewrite str_eqb_refl. simpl.
  rewrite app_nil_r. apply filter_all.
  apply List.Forall_forall. intros fav Hfav. apply Bool.negb_true_iff.
  apply str_eqb_neq. intros E. apply Hnew. apply in_map_iff. now exists fav.
Qed.

(** X28. Checking an item twice gives the list back, when the flag of
    every item is present (as it is in every item that the component
    creates or loads); and checking changes neither the ids nor the texts
    nor the order of the items. *)
Theorem toggleItem_twice (itemId : jsstring) (l : list ShoppingItem) :
  Forall (fun it => completed it <> None) l ->
  toggleItem itemId (toggleItem itemId l) = l /\
  List.map item_id (toggleItem itemId l) = List.map item_id l /\
  List.map text (toggleItem itemId l) = List.map text l.
Proof.
  intros Hflags. unfold toggleItem. rewrite !List.map_map. repeat split.
  - rewrite <- (List.map_id l) at 2. apply map_ext_in. intros it Hit.
    rewrite List.Forall_forall in Hflags. apply Hflags in Hit.
    destruct (str_eqb (item_id it) itemId) eqn:Hid; simpl; rewrite Hid;
      [|reflexivity].
    destruct it as [i t [c|] d]; [|contradiction].
    unfold isCompleted. simpl. now rewrite Bool.negb_involutive.
  - apply List.map_ext. intros it. now destruct (str_eqb (item_id it) itemId).
  - apply List.map_ext. intros it. now destruct (str_eqb (item_id it) itemId).
Qed.

(** X29. [saveEdit] never stores a blank text: an item of the list after
    it is an item of the list before it, or carries the edited text, which
    is trimmed and not empty; the ids and their order are unchanged; and
    with a blank text under edit the state is unchanged. *)
Theorem saveEdit_stores_no_blank_text (st : AppState) :
  Forall (fun it =>
            In it (items st)
            \/ (text it = trim (editingText st) /\ text it <> []))
    (items (saveEdit st)) /\
  List.map item_id (items (saveEdit st)) = List.map item_id (items st) /\
  (trim (editingText st) = [] -> saveEdit st = st).
Proof.
  unfold saveEdit.
  destruct (editingId st) as [editing|]; [|repeat split; try reflexivity].
  - destruct (decide (trim (editingText st) = [])) as [Hblank|Hq].
    + rewrite bool_decide_eq_true_2 by assumption. simpl.
      repeat split; try reflexivity.
      apply List.Forall_forall. intros it Hit. now left.
    + rewrite bool_decide_eq_false_2 by assumption. simpl.
      destruct (str_eqb editing []); simpl.
      * repeat split; try reflexivity; try contradiction.
        apply List.Forall_forall. intros it Hit. now left.
      * repeat split; try contradiction.
        -- apply List.Forall_map, List.Forall_forall. intros it Hit.
           destruct (str_eqb (item_id it) editing); [right|left]; simpl;
             [now split|assumption].
        -- rewrite List.map_map. apply List.map_ext. intros it.
           now destruct (str_eqb (item_id it) editing).
  - apply List.Forall_forall. intros it Hit. now left.
Qed.

(** * From the list to the path *)

Section GroceryItems.
Context `{Builtins}.

Lemma categoryItems_names prefix gangKey cats g :
  In g (categoryItems prefix gangKey cats) ->
  exists categoryKey products,
    In (categoryKey, products) cats /\ In (name g) products.
Proof.
  unfold categoryItems. intros Hg.
  apply in_flat_map in Hg as ([categoryKey products] & Hcat & Hg).
  apply in_map_iff in Hg as ([index itemName] & <- & Hin).
  apply in_combine_r in Hin. now exists categoryKey, products.
Qed.

Lemma categoryProducts_In corridor direction position cats categoryKey products p :
  In (categoryKey, products) cats -> In p products ->
  exists location,
    In (p, location) (categoryProducts corridor direction position cats).
Proof.
  intros Hcat Hp. eexists. unfold categoryProducts.
  apply in_flat_map. exists (categoryKey, products). split; [assumption|].
  apply in_map_iff. exists p. split; [reflexivity|assumption].
Qed.

Lemma grocery_item_in_catalog articles g :
  storeShape articles ->
  In g (getAllGroceryItems articles) ->
  exists location, In (name g, location) (catalogProducts articles).
Proof.
  intros Hshape Hg. unfold getAllGroceryItems in Hg.
  apply in_flat_map in Hg as ([gangKey gangData] & Hentry & Hg).
  unfold storeShape in Hshape. rewrite List.Forall_forall in Hshape.
  pose proof (Hshape _ Hentry) as Hkind. simpl in Hkind.
  assert (Hcorridor : forall location,
    In (name g, location) (corridorProducts (gangKey, gangData)) ->
    exists location', In (name g, location') (catalogProducts articles)).
  { intros location Hin. exists location. unfold catalogProducts.
    apply in_flat_map. now exists (gangKey, gangData). }
  unfold corridorProducts.
  unfold corridorProducts in Hcorridor.
  destruct gangData as [cats|dirs].
  - subst gangKey. rewrite str_eqb_refl in Hcorridor.
    apply in_app_or in Hg as [Hg|Hg].
    { simpl in Hg. contradiction. }
    apply categoryItems_names in Hg as (categoryKey & products & Hcat & Hp).
    apply filter_In in Hcat as [Hcat _].
    destruct (categoryProducts_In (lit "Seiten M") [] [] cats _ _ _ Hcat Hp)
      as [location Hloc].
    now apply (Hcorridor location).
  - rewrite (str_eqb_neq _ _ Hkind) in Hcorridor.
    apply in_app_or in Hg as [Hg|Hg]; [|contradiction].
    apply in_flat_map in Hg as (section & _ & Hg).
    destruct (mapGet dirs section) as [sectionData|] eqn:Hsection;
      [|contradiction].
    apply mapGet_In in Hsection.
    assert (Hside : forall location,
      In (name g, location)
        (match positions sectionData with
         | Some ps =>
             flat_map (fun '(position, positionData) =>
               categoryProducts gangKey section position positionData) ps
         | None => []
         end
         ++ match categories sectionData with
            | Some cats => categoryProducts gangKey section [] cats
            | None => []
            end) ->
      exists location', In (name g, location') (catalogProducts articles)).
    { intros location Hin. apply (Hcorridor location).
      apply in_flat_map. now exists (section, sectionData). }
    apply in_app_or in Hg as [Hg|Hg].
    + destruct (categories sectionData) as [cats|]; [|contradiction].
      apply categoryItems_names in Hg as (categoryKey & products & Hcat & Hp).
      destruct (categoryProducts_In gangKey section [] cats _ _ _ Hcat Hp)
        as [location Hloc].
      apply (Hside location), in_or_app. now right.
    + destruct (positions sectionData) as [ps|]; [|contradiction].
      apply in_flat_map in Hg as ([direction cats] & Hps & Hg).
      apply categoryItems_names in Hg as (categoryKey & products & Hcat & Hp).
      destruct (categoryProducts_In gangKey section direction cats _ _ _ Hcat Hp)
        as [location Hloc].
      apply (Hside location), in_or_app. left.
      apply in_flat_map. now exists (direction, cats).
Qed.

Lemma storeShape_indexed articles :
  storeShape articles ->
  exists idx, ShoppingPath.createProductIndex articles = Some idx.
Proof.
  intros Hshape.
  destruct (ShoppingPath.createProductIndex articles) as [idx|] eqn:Hidx;
    [now exists idx|].
  exfalso. apply createProductIndex_fold_None in Hidx.
  apply List.Exists_exists in Hidx as ([corridor data] & Hin & side & sides & [= -> ->]).
  unfold storeShape in Hshape. rewrite List.Forall_forall in Hshape.
  apply Hshape in Hin. simpl in Hin. congruence.
Qed.
End GroceryItems.

(** X30. Whatever can be put on the list can be found in the store:
    for a catalog in which "Seiten M" holds its categories directly and
    every other corridor holds shelf sides, the index is built, the name of
    every grocery item has a location in it, and a shopping list of such
    names leaves no item not found. *)
Theorem grocery_items_are_located `{Builtins} (articles : StoreData) :
  storeShape articles ->
  exists idx,
    ShoppingPath.createProductIndex articles = Some idx /\
    Forall (fun g =>
              snd (ShoppingPath.findProductLocation idx (name g)) = true)
      (getAllGroceryItems articles) /\
    forall shoppingList,
      Forall (fun entry =>
                In entry (List.map name (getAllGroceryItems articles)))
        shoppingList ->
      ShoppingPath.notFoundItems
        (ShoppingPath.optimizeShoppingPath idx shoppingList) = [].
Proof.
  intros Hshape. destruct (storeShape_indexed articles Hshape) as [idx Hidx].
  exists idx. split; [assumption|].
  assert (Hfound : forall g, In g (getAllGroceryItems articles) ->
    snd (ShoppingPath.findProductLocation idx (name g)) = true).
  { intros g Hg.
    destruct (grocery_item_in_catalog articles g Hshape Hg) as [location Hin].
    apply createProductIndex_products in Hidx. subst idx.
    destruct (lastNamed_In (toLowerCase (name g)) _ _ _ Hin eq_refl)
      as (p' & loc' & Hlast).
    unfold ShoppingPath.findProductLocation, mapHas.
    now rewrite indexProducts_get, Hlast. }
  split; [now apply List.Forall_forall|].
  intros shoppingList Hlist.
  destruct (optimizeShoppingPath_structure idx shoppingList)
    as (_ & _ & _ & _ & _ & ->).
  unfold unlocated. rewrite List.Forall_forall in Hlist.
  induction shoppingList as [|x l IH]; [reflexivity|]. simpl.
  assert (Hx : In x (List.map name (getAllGroceryItems articles)))
    by (apply Hlist; now left).
  apply in_map_iff in Hx as (g & <- & Hg). rewrite (Hfound g Hg). simpl.
  apply IH. intros y Hy. apply Hlist. now right.
Qed.

(** * The theorems on examples *)

Example getAllGroceryItems_example :
  getAllGroceryItems catalogUnknownCorridor
  = [ {| id := lit "Gang 1_N_dairy_0"; name := lit "Milk";
         category := lit "dairy"; gang := lit "Gang 1" |};
      exampleGrocery ].
Proof. reflexivity. Qed.

Example addItem_example :
  option_map text
    (head (items (fst (@addItem latin1Builtins catalogUnknownCorridor
                         1001 0 exampleState))))
  = Some (lit "Bread").
Proof. reflexivity. Qed.

Lemma searchProducts_complete_below_cap_witness :
  trim (lit "milk") <> [] /\
  length (@Double.searchProducts latin1Builtins (lit "milk")
            (getAllGroceryItems catalogUnknownCorridor)) < 20 /\
  @Double.searchProducts latin1Builtins (lit "milk")
    (getAllGroceryItems catalogUnknownCorridor)
  ≡ₚ List.filter
       (fun e => Double.gtb
                   (Double.score (@Double.scoreItem latin1Builtins (lit "milk") e))
                   (Double.decimal 2 10))
       (getAllGroceryItems catalogUnknownCorridor).
Proof.
  assert (Hq : trim (lit "milk") <> []) by (vm_compute; discriminate).
  assert (Hlen : length (@Double.searchProducts latin1Builtins (lit "milk")
                           (getAllGroceryItems catalogUnknownCorridor)) < 20)
    by (vm_compute; lia).
  split; [exact Hq|]. split; [exact Hlen|].
  exact (@searchProducts_complete_below_cap latin1Builtins (lit "milk")
           (getAllGroceryItems catalogUnknownCorridor) Hq Hlen).
Defined.

Lemma searchProducts_blank_query_witness :
  Forall (fun c => isSpace c = true) (lit "  ") /\
  @Double.searchProducts latin1Builtins (lit "  ")
    (getAllGroceryItems catalogUnknownCorridor) = [].
Proof.
  assert (Hblank : Forall (fun c => isSpace c = true) (lit "  "))
    by (repeat constructor).
  split; [exact Hblank|].
  exact (@searchProducts_blank_query latin1Builtins (lit "  ")
           (getAllGroceryItems catalogUnknownCorridor) Hblank).
Defined.

Lemma Visual_corridors_sorted_once_witness :
  let names :=
    List.map Visual.name
      (@Visual.optimizeShoppingPath latin1Builtins
         (List.map forgetEntry (latin1Index catalogUnknownCorridor))
         [lit "milk"; lit "bread"]) in
  Forall (fun a => inheritedName a = false) names /\
  StronglySorted (fun a b => (rank a <= rank b)%Z) names.
Proof.
  intros names.
  assert (Hplain : Forall (fun a => inheritedName a = false) names)
    by (vm_compute; repeat constructor).
  split; [exact Hplain|].
  exact (proj2 (@Visual_corridors_sorted_once latin1Builtins
                  (List.map forgetEntry (latin1Index catalogUnknownCorridor))
                  [lit "milk"; lit "bread"]) Hplain).
Defined.

Lemma createProductIndex_lookup_witness :
  @ShoppingPath.createProductIndex latin1Builtins catalogEmptyName
  = Some (latin1Index catalogEmptyName) /\
  List.NoDup (mapKeys (latin1Index catalogEmptyName)) /\
  forall k,
    mapGet (latin1Index catalogEmptyName) k
    = option_map snd (@lastNamed latin1Builtins k (catalogProducts catalogEmptyName)).
Proof.
  assert (Hidx : @ShoppingPath.createProductIndex latin1Builtins catalogEmptyName
                 = Some (latin1Index catalogEmptyName)) by reflexivity.
  split; [exact Hidx|].
  exact (@createProductIndex_lookup latin1Builtins catalogEmptyName
           (latin1Index catalogEmptyName) Hidx).
Defined.

Lemma catalog_products_are_found_witness :
  let milk := {| ShoppingPath.corridor := lit "Gang 1";
                 ShoppingPath.direction := lit "N";
                 ShoppingPath.position := [];
                 ShoppingPath.category := lit "dairy";
                 ShoppingPath.distanceFromStart := Distance 2 |} in
  In (lit "Milk", milk) (catalogProducts catalogUnknownCorridor) /\
  (exists product' location',
     @ShoppingPath.findProductLocation latin1Builtins
       (latin1Index catalogUnknownCorridor) (lit "Milk")
     = (Some location', true) /\
     In (product', location') (catalogProducts catalogUnknownCorridor) /\
     @toLowerCase latin1Builtins product' = @toLowerCase latin1Builtins (lit "Milk") /\
     ((forall p l, In (p, l) (catalogProducts catalogUnknownCorridor) ->
                   @toLowerCase latin1Builtins p
                   = @toLowerCase latin1Builtins (lit "Milk") -> l = milk) ->
      location' = milk)) /\
  forall shoppingList,
    ~ In (lit "Milk")
        (ShoppingPath.notFoundItems
           (@ShoppingPath.optimizeShoppingPath latin1Builtins
              (latin1Index catalogUnknownCorridor) shoppingList)).
Proof.
  intros milk.
  assert (Hidx : @ShoppingPath.createProductIndex latin1Builtins
                   catalogUnknownCorridor
                 = Some (latin1Index catalogUnknownCorridor)) by reflexivity.
  assert (Hin : In (lit "Milk", milk) (catalogProducts catalogUnknownCorridor))
    by (left; reflexivity).
  split; [exact Hin|].
  exact (@catalog_products_are_found latin1Builtins catalogUnknownCorridor
           (latin1Index catalogUnknownCorridor) (lit "Milk") milk Hidx Hin).
Defined.

Lemma optimizers_agree_on_corridors_witness :
  @Visual.buildProductLocationMap latin1Builtins catalogUnknownCorridor
  = Some (List.map forgetEntry (latin1Index catalogUnknownCorridor)) /\
  List.map Visual.name
    (@Visual.optimizeShoppingPath latin1Builtins
       (List.map forgetEntry (latin1Index catalogUnknownCorridor))
       [lit "milk"; lit "bread"])
  = List.map ShoppingPath.cp_name
      (ShoppingPath.corridors
         (@ShoppingPath.optimizeShoppingPath latin1Builtins
            (latin1Index catalogUnknownCorridor) [lit "milk"; lit "bread"])).
Proof.
  split; [reflexivity|].
  exact (@optimizers_agree_on_corridors latin1Builtins
           (latin1Index catalogUnknownCorridor)
           (List.map forgetEntry (latin1Index catalogUnknownCorridor))
           [lit "milk"; lit "bread"] eq_refl).
Defined.

Lemma list_operations_keep_store_items_witness :
  let stocked := fun l : list ShoppingItem =>
    Forall (fun it =>
              In (text it)
                (List.map name (getAllGroceryItems catalogUnknownCorridor))) l in
  stocked (items exampleState) /\
  stocked (items (fst (@addItem latin1Builtins catalogUnknownCorridor
                         1001 0 exampleState))) /\
  stocked (toggleItem (lit "1700000000000") (items exampleState)) /\
  stocked (deleteItem (lit "1700000000000") (items exampleState)) /\
  stocked (clearCompleted (items exampleState)).
Proof.
  intros stocked.
  assert (Hst : stocked (items exampleState)).
  { constructor; [left; reflexivity|constructor]. }
  split; [exact Hst|].
  exact (@list_operations_keep_store_items latin1Builtins
           catalogUnknownCorridor 1001 0 exampleState
           (lit "1700000000000") Hst).
Defined.

Lemma favorites_ids_stay_distinct_witness :
  List.NoDup (List.map fav_id (favorites exampleState)) /\
  List.NoDup
    (List.map fav_id (favorites (addToFavorites exampleGrocery exampleState))) /\
  List.NoDup
    (List.map fav_id
       (favorites (removeFromFavorites (id exampleGrocery) exampleState))) /\
  addToFavorites exampleGrocery (addToFavorites exampleGrocery exampleState)
  = addToFavorites exampleGrocery exampleState /\
  ~ In (id exampleGrocery)
      (List.map fav_id
         (favorites (removeFromFavorites (id exampleGrocery) exampleState))).
Proof.
  assert (Hnd : List.NoDup (List.map fav_id (favorites exampleState))).
  { constructor; [intros Hin; destruct Hin|constructor]. }
  split; [exact Hnd|].
  exact (favorites_ids_stay_distinct exampleGrocery (id exampleGrocery)
           exampleState Hnd).
Defined.

Lemma removeFromFavorites_undoes_addToFavorites_witness :
  let milk := {| id := lit "Gang 1_N_dairy_0"; name := lit "Milk";
                 category := lit "dairy"; gang := lit "Gang 1" |} in
  ~ In (id milk) (List.map fav_id (favorites exampleState)) /\
  favorites (removeFromFavorites (id milk) (addToFavorites milk exampleState))
  = favorites exampleState.
Proof.
  intros milk.
  assert (Hnew : ~ In (id milk) (List.map fav_id (favorites exampleState))).
  { intros [E|Hin]; [vm_compute in E; discriminate|destruct Hin]. }
  split; [exact Hnew|].
  exact (removeFromFavorites_undoes_addToFavorites milk exampleState Hnew).
Defined.

Lemma toggleItem_twice_witness :
  Forall (fun it => completed it <> None) (items exampleState) /\
  toggleItem (lit "1700000000000")
    (toggleItem (lit "1700000000000") (items exampleState))
  = items exampleState /\
  List.map item_id (toggleItem (lit "1700000000000") (items exampleState))
  = List.map item_id (items exampleState) /\
  List.map text (toggleItem (lit "1700000000000") (items exampleState))
  = List.map text (items exampleState).
Proof.
  assert (Hflags : Forall (fun it => completed it <> None) (items exampleState)).
  { constructor; [discriminate|constructor]. }
  split; [exact Hflags|].
  exact (toggleItem_twice (lit "1700000000000") (items exampleState) Hflags).
Defined.

Lemma storeShape_example : storeShape catalogUnknownCorridor.
Proof.
  constructor; [|constructor; [|constructor]]; simpl; intros E;
    vm_compute in E; discriminate.
Qed.

Lemma grocery_items_are_located_witness :
  storeShape catalogUnknownCorridor /\
  exists idx,
    @ShoppingPath.createProductIndex latin1Builtins catalogUnknownCorridor
    = Some idx /\
    Forall (fun g =>
              snd (@ShoppingPath.findProductLocation latin1Builtins idx (name g))
              = true)
      (getAllGroceryItems catalogUnknownCorridor) /\
    forall shoppingList,
      Forall (fun entry =>
                In entry (List.map name (getAllGroceryItems catalogUnknownCorridor)))
        shoppingList ->
      ShoppingPath.notFoundItems
        (@ShoppingPath.optimizeShoppingPath latin1Builtins idx shoppingList) = [].
Proof.
  split; [exact storeShape_example|].
  exact (@grocery_items_are_located latin1Builtins catalogUnknownCorridor
           storeShape_example).
Defined.

Lemma balanced_corridor_continues_the_walk_witness :
  exists v1 v2,
    ShoppingPath.corridors
      (@ShoppingPath.optimizeShoppingPath latin1Builtins
         (latin1Index catalogUnknownCorridor) [lit "milk"; lit "bread"])
    = [] ++ v1 :: v2 :: [] /\
    ShoppingPath.cp_name v1 = lit "Gang 7" /\
    ShoppingPath.cp_name v2 = lit "Gang 1" /\
    ShoppingPath.entryPoint v2 = West /\
    ShoppingPath.entryPoint v2 = ShoppingPath.exitPoint v1.
Proof.
  eexists _, _.
  assert (Hc : forall v1 v2 (E :
    ShoppingPath.corridors
      (@ShoppingPath.optimizeShoppingPath latin1Builtins
         (latin1Index catalogUnknownCorridor) [lit "milk"; lit "bread"])
    = [] ++ v1 :: v2 :: []),
    ShoppingPath.cp_name v1 = lit "Gang 7" ->
    ShoppingPath.cp_name v2 = lit "Gang 1" ->
    2 * length (List.filter (itemNearEnd (lit "E")) (ShoppingPath.items v2))
    <= 3 * length (List.filter (itemNearEnd (lit "W")) (ShoppingPath.items v2)) ->
    2 * length (List.filter (itemNearEnd (lit "W")) (ShoppingPath.items v2))
    <= 3 * length (List.filter (itemNearEnd (lit "E")) (ShoppingPath.items v2)) ->
    ShoppingPath.entryPoint v2 = ShoppingPath.exitPoint v1).
  { intros v1 v2 E H1 H2 He Hw.
    apply (@balanced_corridor_continues_the_walk latin1Builtins
             (latin1Index catalogUnknownCorridor) [lit "milk"; lit "bread"]
             [] [] v1 v2 E); try assumption.
    - rewrite H1. intros E'. vm_compute in E'. discriminate.
    - rewrite H2. intros E'. vm_compute in E'. discriminate. }
  split; [vm_compute; reflexivity|].
  split; [reflexivity|]. split; [reflexivity|]. split; [reflexivity|].
  apply Hc; [vm_compute; reflexivity|reflexivity|reflexivity
            |vm_compute; lia|vm_compute; lia].
Defined.
